(** * openquake.hazardlib.contexts: context maker and probability maps

    A shallow embedding of [openquake/hazardlib/contexts.py] and the
    properties of its operations: [get_distances], [RupData.add],
    [_collapse], the methods [filter], [add_rup_params], [make_contexts],
    [_gen_rups_sites], [_make_pnes], [get_pmap] and [get_pmap_by_grp] of
    [ContextMaker], [_update], and
    [RuptureContext.get_probability_no_exceedance], and further
    [get_num_distances], [RupData.from_srcs], the constructor of
    [ContextMaker], [DistancesContext.roundup] and [BaseContext.__eq__].

    Conventions of the embedding.
    - Python floats are exact rationals ([Qc]); the IEEE not-a-number that
      the code uses as a discriminator ([occurrence_rate], [weight]) is a
      constructor of its own ([float]).  Rounding is not modelled.
    - A numpy array is its shape, its elements in row-major order and its
      [writeable] flag ([ndarray]); a numpy scalar is kept apart from an
      array ([npvalue]) because the code tests [isinstance(_, ndarray)].
    - A raised exception is a value ([exn]: class, message, traceback)
      carried by the error monad [result]; a [for] loop is a fold in that
      monad ([foldlM]).  The exception classes the module names derive from
      [Exception] and are built from one message; of any other class the
      model keeps whether it derives from [Exception] and whether it is
      built from one message, which is what the handlers of
      [get_pmap_by_grp] depend on.
    - Objects are records and every function returns the objects it would
      have mutated.  Where sharing is what a property is about ([_collapse])
      the function is modelled a second time on a store of objects.
    - What lives outside the module (rupture surfaces, the GSIM bank, the
      site collection, string formatting) is a field of [collaborators];
      the monitors ([with self.ctx_mon: ...]) and the wall time kept in
      [calc_times] are left out. *)

From Stdlib Require Import QArith Qcanon ZArith Lqa.
From stdpp Require Import base numbers list strings pretty gmap.

Local Open Scope Qc_scope.

(** ** Numbers *)

Definition qc (n : Z) (d : positive) : Qc := Q2Qc (n # d).

Definition Qc_eqb (x y : Qc) : bool := Qeq_bool x y.
Definition Qc_leb (x y : Qc) : bool := Qle_bool x y.
Definition Qc_ltb (x y : Qc) : bool := negb (Qle_bool y x).

(** A Python float: a finite value or the not-a-number sentinel. *)
Inductive float := NaN | Fin (q : Qc).

Definition isnan (f : float) : bool :=
  match f with NaN => true | Fin _ => false end.

Definition fmul (f : float) (q : Qc) : float :=
  match f with NaN => NaN | Fin x => Fin (x * q) end.

Definition fadd (f g : float) : float :=
  match f, g with Fin x, Fin y => Fin (x + y) | _, _ => NaN end.

Global Instance float_eq_dec : EqDecision float.
Proof. solve_decision. Defined.

Definition sum_Qc (l : list Qc) : Qc := foldr Qcplus 0 l.

(** ** Exceptions and the error monad *)

(** The classes of the exceptions the module meets.  Those named are
    classes derived from [Exception] that are built from one message.  Of any
    other class the model keeps what a handler depends on: whether it
    derives from [Exception] (KeyboardInterrupt and SystemExit do not), and
    [init_error], which is None when [cls(msg)] builds an exception with the
    message [msg] and holds the message of the TypeError of that call when
    the class cannot be built from one string. *)
Inductive exn_kind :=
| StopIteration | FarAwayRupture | ValueError | NameError | TypeError
| IndexError | AttributeError | ZeroDivisionError
| OtherError (cls : string) (is_exception : bool) (init_error : option string).

Global Instance exn_kind_eq_dec : EqDecision exn_kind.
Proof. solve_decision. Defined.

(** [tb] stands for the traceback object: the frames recorded where the
    exception was raised. *)
Record exn := Exn { kind : exn_kind; msg : string; tb : list string }.

Global Instance exn_eq_dec : EqDecision exn.
Proof. solve_decision. Defined.

Inductive result (A : Type) :=
| Ok (a : A)
| Raise (e : exn).
Arguments Ok {A} a.
Arguments Raise {A} e.

Global Instance result_eq_dec `{EqDecision A} : EqDecision (result A).
Proof. solve_decision. Defined.

Global Instance result_ret : MRet result := λ A a, Ok a.
Global Instance result_bind : MBind result := λ A B f m,
  match m with Ok a => f a | Raise e => Raise e end.

(** [issubclass(cls, Exception)] *)
Definition is_Exception (k : exn_kind) : bool :=
  match k with
  | OtherError _ is_exception _ => is_exception
  | _ => true
  end.

(** What goes wrong in [cls(msg)], if anything. *)
Definition init_error_of (k : exn_kind) : option string :=
  match k with
  | OtherError _ _ init_error => init_error
  | _ => None
  end.

Definition raise {A} (k : exn_kind) (m : string) (frame : string) : result A :=
  Raise (Exn k m [frame]).

Definition is_Ok {A} (r : result A) : Prop := ∃ a, r = Ok a.

Definition is_Okb {A} (r : result A) : bool :=
  match r with Ok _ => true | Raise _ => false end.

(** A [for] loop over a list that threads a state and stops at the first
    exception. *)
Fixpoint foldlM {S A} (body : S → A → result S) (st : S) (xs : list A)
  : result S :=
  match xs with
  | [] => Ok st
  | x :: xs => st ← body st x; foldlM body st xs
  end.

(** ** numpy arrays *)

Record ndarray := NDArray {
  shape : list nat;
  data : list Qc;
  writeable : bool
}.

Global Instance ndarray_eq_dec : EqDecision ndarray.
Proof. solve_decision. Defined.

Inductive npvalue :=
| NpScalar (x : Qc)
| NpArray (a : ndarray).

Global Instance npvalue_eq_dec : EqDecision npvalue.
Proof. solve_decision. Defined.

Definition size_of (sh : list nat) : nat := foldr Nat.mul 1%nat sh.

Definition np_data (v : npvalue) : list Qc :=
  match v with NpScalar x => [x] | NpArray a => data a end.

Definition np_shape (v : npvalue) : list nat :=
  match v with NpScalar _ => [] | NpArray a => shape a end.

(** The array holds as many elements as its shape says. *)
Definition well_shaped (a : ndarray) : Prop :=
  length (data a) = size_of (shape a).

(** The cells of an array that satisfy [P] hold zero. *)
Definition zeros_at (P : nat → Prop) (a : ndarray) : Prop :=
  ∀ idx x, data a !! idx = Some x → P idx → x = 0.

Definition np_add (a b : list Qc) : list Qc := zip_with Qcplus a b.

(** [numpy.sum(numpy.array(rows), axis=0)] on rows of [n] elements each. *)
Definition np_sum_axis0 (n : nat) (rows : list (list Qc)) : list Qc :=
  foldl np_add (replicate n 0) rows.

(** [numpy.reshape(poes, (-1, len(poes)))] on a 1-D array: the unknown
    dimension cannot be inferred for an empty array. *)
Definition reshape_row (a : ndarray) : result ndarray :=
  match data a with
  | [] => raise ValueError "cannot reshape array of size 0 into shape (0)"
            "get_probability_no_exceedance"
  | _ => Ok (NDArray [1%nat; length (data a)] (data a) (writeable a))
  end.

(** ** Ruptures *)

(** The temporal occurrence model of a parametric rupture is a collaborator:
    its [get_probability_no_exceedance(rate, poes)]. *)
Definition tom_t := Qc → ndarray → result npvalue.

Record hypocenter_t := Hypocenter {
  longitude : Qc; latitude : Qc; depth : Qc
}.

Record surface_t := Surface {
  get_strike : Qc;
  get_dip : Qc;
  get_top_edge_depth : Qc;
  get_width : Qc;
  is_planar : bool              (* isinstance(surface, PlanarSurface) *)
}.

Record rupture := Rupture {
  rup_id : Z;
  mag : Qc;
  rake : Qc;
  tectonic_region_type : string;
  hypocenter : hypocenter_t;
  surface : surface_t;
  occurrence_rate : float;
  probs_occur : list Qc;
  weight : option Qc;
  temporal_occurrence_model : option tom_t;
  params : gmap string Qc       (* attributes set by add_rup_params *)
}.

(** *** RuptureContext.get_probability_no_exceedance *)

(** The rows [v * ((1 - poes) ** i) for i, v in enumerate(p_kT)]. *)
Definition pne_terms (p_kT : list Qc) (poes : list Qc) : list (list Qc) :=
  imap (λ i v, (λ x, v * (1 - x) ^ i) <$> poes) p_kT.

(** [prob_no_exceed[prob_no_exceed > 1.] = 1.] *)
Definition clamp_above_one (l : list Qc) : list Qc :=
  (λ s, if Qc_ltb 1 s then 1 else s) <$> l.

(** [prob_no_exceed[poes == 0.] = 1.] *)
Definition force_one_where_zero (poes l : list Qc) : list Qc :=
  zip_with (λ x s, if Qc_eqb x 0 then 1 else s) poes l.

Definition get_probability_no_exceedance (self : rupture) (poes : ndarray)
  : result npvalue :=
  if isnan (occurrence_rate self) then
    poes ← (if decide (length (shape poes) = 1%nat)
            then reshape_row poes else Ok poes);
    let p_kT := probs_occur self in
    let rows := pne_terms p_kT (data poes) in
    match rows, shape poes with
    | [], _ => Ok (NpScalar 0)               (* sum of an empty array *)
    | _, [] =>                               (* K numbers: a scalar sum *)
        Ok (NpScalar (sum_Qc (concat rows)))
    | _, sh =>
        let prob_no_exceed := np_sum_axis0 (length (data poes)) rows in
        let prob_no_exceed := clamp_above_one prob_no_exceed in
        let prob_no_exceed := force_one_where_zero (data poes) prob_no_exceed in
        Ok (NpArray (NDArray sh prob_no_exceed true))
    end
  else
    match temporal_occurrence_model self, occurrence_rate self with
    | Some tom, Fin rate => tom rate poes
    | _, _ =>
        raise AttributeError
          "'NoneType' object has no attribute 'get_probability_no_exceedance'"
          "get_probability_no_exceedance"
    end.

(** ** The formula of the nonparametric model *)

(** [Σ_k p_k · (1 − x)^k] *)
Definition pne_sum (p_kT : list Qc) (x : Qc) : Qc :=
  sum_Qc (imap (λ k p, p * (1 - x) ^ k) p_kT).

(** The sum, clamped to 1 from above and forced to 1 where [x = 0]. *)
Definition pne_elem (p_kT : list Qc) (x : Qc) : Qc :=
  if Qc_eqb x 0 then 1
  else if Qc_ltb 1 (pne_sum p_kT x) then 1 else pne_sum p_kT x.

Definition is_pmf (p : list Qc) : Prop :=
  Forall (λ q, 0 ≤ q) p ∧ sum_Qc p = 1.

Definition in_unit (x : Qc) : Prop := 0 ≤ x ≤ 1.

(** ** Sites, GSIMs and the collaborators of the module *)

Record site := Site { sid : Z; lon : Qc; lat : Qc }.

Global Instance site_eq_dec : EqDecision site.
Proof. solve_decision. Defined.

(** A site collection: the sites it holds and the complete collection it
    was cut from ([sites.complete]). *)
Record SiteCollection := SiteCol {
  sites_of : list site;
  complete : list site
}.

Global Instance SiteCollection_eq_dec : EqDecision SiteCollection.
Proof. solve_decision. Defined.

Definition sids (s : SiteCollection) : list Z := sid <$> sites_of s.

(** Boolean-mask indexing, [xs[mask]]. *)
Fixpoint mask_select {A} (mask : list bool) (xs : list A) : list A :=
  match mask, xs with
  | b :: mask, x :: xs =>
      if b then x :: mask_select mask xs else mask_select mask xs
  | _, _ => []
  end.

(** Modelled from the spec: [SiteCollection.filter(mask)], which is not part
    of this module; "boolean-mask filtering returning a narrower collection
    that preserves sids and parameter values". *)
Definition sitecol_filter (s : SiteCollection) (mask : list bool)
  : SiteCollection :=
  SiteCol (mask_select mask (sites_of s)) (complete s).

(** The attributes of a context object are set dynamically: a dictionary. *)
Abbreviation DistancesContext := (gmap string ndarray).

Record gsim := Gsim {
  gsim_REQUIRES_DISTANCES : list string;
  gsim_REQUIRES_SITES_PARAMETERS : list string;
  gsim_REQUIRES_RUPTURE_PARAMETERS : list string;
  gsim_weight : option (string → Qc)   (* hasattr(gsim, 'weight'), weight[imt] *)
}.

(** The queries on a rupture surface and hypocenter that [get_distances]
    dispatches to. *)
Inductive geo_query :=
| get_min_distance | get_rx_distance | get_ry0_distance
| get_joyner_boore_distance | distance_to_mesh (with_depths : bool)
| get_cdppvalue | get_azimuth | get_azimuth_of_closest_point.

(** What [sites.split(location, distance)] returns: the close and the far
    sites, one of which may be None. *)
Inductive split_t :=
| AllFar (far_sites : SiteCollection)                  (* (None, far_sites) *)
| AllClose (close_sites : SiteCollection)              (* (close_sites, None) *)
| CloseAndFar (close_sites far_sites : SiteCollection).

(** What the module takes from its collaborators. *)
Record collaborators := Collaborators {
  (* geometry library: the value of a query at one point of the mesh *)
  geo : geo_query → rupture → site → Qc;
  (* surface.get_closest_points(mesh): longitudes and latitudes *)
  get_closest_points : rupture → list site → list Qc * list Qc;
  (* base.get_mean_std(data, imts, gsims) *)
  get_mean_std :
    list (rupture * SiteCollection * DistancesContext) → list string →
    list gsim → result ndarray;
  (* base.get_poes(mean_std, loglevels, trunclevel, gsims) *)
  get_poes :
    ndarray → list (string * list Qc) → option Qc → list gsim →
    result ndarray;
  (* sites.split(location, distance): close and far sites *)
  split : SiteCollection → hypocenter_t → Qc → split_t;
  (* '%r' % param *)
  py_repr : string → string;
  (* numpy.float32 and numpy.sqrt on one number *)
  F32 : Qc → Qc;
  np_sqrt : Qc → Qc
}.

Definition KNOWN_DISTANCES : list string :=
  ["rrup"; "rx"; "ry0"; "rjb"; "rhypo"; "repi"; "rcdpp"; "azimuth";
   "azimuth_cp"; "rvolc"].

Definition set_writeable (w : bool) (a : ndarray) : ndarray :=
  NDArray (shape a) (data a) w.

Definition zeros_like (n : nat) : ndarray :=
  NDArray [n] (replicate n 0) true.

(** [numpy.int16] and [numpy.uint16] applied to integers. *)
Definition numpy_int16 (z : Z) : Z := ((z + 32768) mod 65536 - 32768)%Z.
Definition numpy_uint16 (z : Z) : Z := (z mod 65536)%Z.

(** A cell of a RupData column. *)
Inductive cell :=
| CInt (z : Z)
| CFloat (f : float)
| CFloats (l : list Qc)
| CInts (l : list Z).

Global Instance cell_eq_dec : EqDecision cell.
Proof. solve_decision. Defined.

(** [AccumDict(accum=[])]: a missing key reads as the empty list. *)
Definition accum_append {A} (k : string) (v : A) (d : gmap string (list A))
  : gmap string (list A) :=
  <[k := default [] (d !! k) ++ [v]]> d.

Definition accum_extend {A} (k : string) (v : list A)
    (d : gmap string (list A)) : gmap string (list A) :=
  <[k := default [] (d !! k) ++ v]> d.

(** [x or y] on an optional number: None and zero are false. *)
Definition py_or (x : option Qc) (y : Qc) : Qc :=
  match x with
  | Some v => if Qc_eqb v 0 then y else v
  | None => y
  end.

Definition Qc_min (x y : Qc) : Qc := if Qc_leb x y then x else y.

(** The integer that ['%d'] prints for a float: truncation toward zero. *)
Definition Qc_trunc (x : Qc) : Z := (Qnum x ÷ Z.pos (Qden x))%Z.

(** [array.min()] *)
Definition np_min (l : list Qc) : result Qc :=
  match l with
  | [] => raise ValueError
      "zero-size array to reduction operation minimum which has no identity"
      "filter"
  | x :: l => Ok (foldl Qc_min x l)
  end.

(** ** ProbabilityMap *)

(** Modelled from the spec: [ProbabilityMap] lives in
    openquake.hazardlib.probability_map, outside this module; "a sparse
    mapping from site id to a dense array of shape (L, G)", the identity of a
    new entry being 1 in the independent regime and 0 in the mutex one.
    The keys are what Python accepts as dictionary keys here: numbers (an
    integer site id is the rational of the same value).  The attributes
    [nrups], [nsites], [maxdist] and [data] are the ones [get_pmap] sets. *)
Record ProbabilityMap := PMap {
  shape_y : nat;
  shape_z : nat;
  curves : gmap Qc (list Qc);
  nrups : nat;
  nsites : nat;
  maxdist : option Qc;
  rupdata : gmap string (list cell)
}.

Global Instance ProbabilityMap_eq_dec : EqDecision ProbabilityMap.
Proof. solve_decision. Defined.

Definition new_ProbabilityMap (L G : nat) : ProbabilityMap :=
  PMap L G ∅ 0 0 None ∅.

Definition set_curves (pm : ProbabilityMap) (c : gmap Qc (list Qc))
  : ProbabilityMap :=
  PMap (shape_y pm) (shape_z pm) c (nrups pm) (nsites pm) (maxdist pm)
    (rupdata pm).

(** [pmap.setdefault(sid, value).array]: the array of the entry, created
    full of [value] when the site id is new. *)
Definition setdefault_array (pm : ProbabilityMap) (sid : Qc) (value : Qc)
  : list Qc :=
  default (replicate (shape_y pm * shape_z pm) value) (curves pm !! sid).

(** Unary [~p]: [a ← 1 − a]. *)
Definition pmap_invert (pm : ProbabilityMap) : ProbabilityMap :=
  set_curves pm ((λ arr : list Qc, (λ a, 1 - a) <$> arr) <$> curves pm).

(** [pmap *= w] *)
Definition pmap_imul (pm : ProbabilityMap) (w : Qc) : ProbabilityMap :=
  set_curves pm ((λ arr : list Qc, (λ a, a * w) <$> arr) <$> curves pm).

(** [pmap += other]: per sid, [a ← a + b]. *)
Definition pmap_iadd (pm other : ProbabilityMap) : ProbabilityMap :=
  set_curves pm
    (union_with (λ a b, Some (zip_with Qcplus a b)) (curves pm) (curves other)).

(** [pmap |= other]: per sid, [a ← 1 − (1−a)(1−b)]. *)
Definition pmap_ior (pm other : ProbabilityMap) : ProbabilityMap :=
  set_curves pm
    (union_with (λ a b, Some (zip_with (λ x y, 1 - (1 - x) * (1 - y)) a b))
       (curves pm) (curves other)).

(** ** Iteration and broadcasting of numpy values *)

(** Cut a list in consecutive chunks of [n] elements. *)
Fixpoint chunks {A} (count n : nat) (l : list A) : list (list A) :=
  match count with
  | O => []
  | S count => take n l :: chunks count n (drop n l)
  end.

(** [for x in v]: the items along the first axis. *)
Definition np_iter (v : npvalue) : result (list npvalue) :=
  match v with
  | NpScalar _ =>
      raise TypeError "'numpy.float64' object is not iterable" "get_pmap"
  | NpArray a =>
      match shape a with
      | [] => raise TypeError "iteration over a 0-d array" "get_pmap"
      | [_] => Ok (NpScalar <$> data a)
      | n :: sh =>
          Ok ((λ c, NpArray (NDArray sh c (writeable a)))
                <$> chunks n (size_of sh) (data a))
      end
  end.

(** [sid, pne = item] *)
Definition unpack_pair (item : npvalue) : result (npvalue * npvalue) :=
  items ← np_iter item;
  match items with
  | [sid; pne] => Ok (sid, pne)
  | _ => raise ValueError "wrong number of values to unpack (expected 2)"
           "get_pmap"
  end.

(** A numpy value used as a dictionary key. *)
Definition np_hash (v : npvalue) : result Qc :=
  match v with
  | NpScalar x => Ok x
  | NpArray _ => raise TypeError "unhashable type: 'numpy.ndarray'" "get_pmap"
  end.

Definition np_map (f : Qc → Qc) (v : npvalue) : npvalue :=
  match v with
  | NpScalar x => NpScalar (f x)
  | NpArray a => NpArray (NDArray (shape a) (f <$> data a) true)
  end.

(** The operand of an in-place operation on an array of shape (L, G),
    broadcast to that shape. *)
Definition cannot_broadcast {A} : result A :=
  raise ValueError "operands could not be broadcast together" "get_pmap".

Definition broadcast_to (L G : nat) (v : npvalue) : result (list Qc) :=
  match v with
  | NpScalar x => Ok (replicate (L * G) x)
  | NpArray a =>
      lg ← match shape a return result (nat * nat) with
           | [] => Ok (1, 1)
           | [g] => Ok (1, g)
           | [l; g] => Ok (l, g)
           | _ => cannot_broadcast
           end%nat;
      let '(l, g) := lg in
      if bool_decide ((l = L ∨ l = 1%nat) ∧ (g = G ∨ g = 1%nat)) then
        Ok (i ← seq 0 L; j ← seq 0 G;
            [default 0
               (data a !! ((if bool_decide (l = 1%nat) then 0 else i) * g
                           + (if bool_decide (g = 1%nat) then 0 else j))%nat)])
      else cannot_broadcast
  end.

(** ** ContextMaker *)

(** The attributes a ContextMaker holds once constructed. *)
Record ContextMaker := {
  max_sites_disagg : nat;
  trt : string;
  gsims : list gsim;
  maximum_distance : string → Qc → Qc;
  trunclevel : option Qc;
  REQUIRES_DISTANCES : list string;
  REQUIRES_SITES_PARAMETERS : list string;
  REQUIRES_RUPTURE_PARAMETERS : list string;
  collapse_factor : Qc;
  max_radius : option Qc;
  pointsource_distance : option Qc;
  filter_distance : string;
  imtls : list (string * list Qc);
  reqv : option (gmap string (ndarray → Qc → ndarray))
}.

Section Contexts.
Context (ext : collaborators).

Definition query (q : geo_query) (rup : rupture) (mesh : list site) : ndarray :=
  NDArray [length mesh] (geo ext q rup <$> mesh) true.

Definition get_distances (rup : rupture) (mesh : list site) (param : string)
  : result ndarray :=
  dist ←
    (if decide (param = "rrup") then Ok (query get_min_distance rup mesh)
     else if decide (param = "rx") then Ok (query get_rx_distance rup mesh)
     else if decide (param = "ry0") then Ok (query get_ry0_distance rup mesh)
     else if decide (param = "rjb")
       then Ok (query get_joyner_boore_distance rup mesh)
     else if decide (param = "rhypo")
       then Ok (query (distance_to_mesh true) rup mesh)
     else if decide (param = "repi")
       then Ok (query (distance_to_mesh false) rup mesh)
     else if decide (param = "rcdpp") then Ok (query get_cdppvalue rup mesh)
     else if decide (param = "azimuth") then Ok (query get_azimuth rup mesh)
     else if decide (param = "azimuth_cp")
       then Ok (query get_azimuth_of_closest_point rup mesh)
     else if decide (param = "rvolc")
       (* Volcanic distance not yet supported, defaulting to zero *)
       then Ok (zeros_like (length mesh))
     else raise ValueError
            ("Unknown distance measure " +:+ py_repr ext param)
            "get_distances");
  Ok (set_writeable false dist).

Definition filter (self : ContextMaker) (sites : SiteCollection)
    (rup : rupture) (mdist : option Qc)
  : result (SiteCollection * DistancesContext) :=
  distances ← get_distances rup (sites_of sites) (filter_distance self);
  let mdist :=
    py_or mdist (maximum_distance self (tectonic_region_type rup) (mag rup)) in
  let mask := (λ d, Qc_leb d mdist) <$> data distances in
  if existsb id mask then
    let sites := sitecol_filter sites mask in
    let d := mask_select mask (data distances) in
    let distances := NDArray [length d] d true in
    Ok (sites, {[ filter_distance self := distances ]})
  else
    dmin ← np_min (data distances);
    raise FarAwayRupture
      (pretty (rup_id rup) +:+ ": " +:+ pretty (Qc_trunc dmin) +:+ " km")
      "filter".

(** [setattr(rupture, param, value)] *)
Definition rup_setattr (rup : rupture) (param : string) (value : Qc) : rupture :=
  Rupture (rup_id rup) (mag rup) (rake rup) (tectonic_region_type rup)
    (hypocenter rup) (surface rup) (occurrence_rate rup) (probs_occur rup)
    (weight rup) (temporal_occurrence_model rup)
    (<[param := value]> (params rup)).

(** [getattr(rupture, param)] for a rupture parameter: set by
    [add_rup_params], or one of the attributes every rupture has. *)
Definition rup_getattr (rup : rupture) (param : string) : result Qc :=
  match params rup !! param with
  | Some v => Ok v
  | None =>
      if decide (param = "mag") then Ok (mag rup)
      else if decide (param = "rake") then Ok (rake rup)
      else raise AttributeError
             ("rupture object has no attribute " +:+ py_repr ext param)
             "add"
  end.

Definition add_rup_params (self : ContextMaker) (rup : rupture)
  : result rupture :=
  foldlM (λ rup param,
    value ←
      (if decide (param = "mag") then Ok (mag rup)
       else if decide (param = "strike") then Ok (get_strike (surface rup))
       else if decide (param = "dip") then Ok (get_dip (surface rup))
       else if decide (param = "rake") then Ok (rake rup)
       else if decide (param = "ztor")
         then Ok (get_top_edge_depth (surface rup))
       else if decide (param = "hypo_lon")
         then Ok (longitude (hypocenter rup))
       else if decide (param = "hypo_lat")
         then Ok (latitude (hypocenter rup))
       else if decide (param = "hypo_depth") then Ok (depth (hypocenter rup))
       else if decide (param = "width") then Ok (get_width (surface rup))
       else raise ValueError
              ("ContextMaker requires unknown rupture parameter "
               +:+ py_repr ext param) "add_rup_params");
    Ok (rup_setattr rup param value))
    rup (REQUIRES_RUPTURE_PARAMETERS self).

Definition make_contexts (self : ContextMaker) (sites : SiteCollection)
    (rup : rupture) (radius_dist : option Qc)
  : result (rupture * SiteCollection * DistancesContext) :=
  '(sites, dctx) ← filter self sites rup radius_dist;
  dctx ← foldlM (λ (dctx : DistancesContext) param,
            distances ← get_distances rup (sites_of sites) param;
            Ok (<[param := distances]> dctx))
          dctx
          (List.filter (λ p, negb (bool_decide (p = filter_distance self)))
             (REQUIRES_DISTANCES self));
  let reqv_obj := reqv self ≫= (λ d, d !! tectonic_region_type rup) in
  dctx ←
    match reqv_obj with
    | Some reqv_get =>
        if is_planar (surface rup) then
          match dctx !! "repi" with
          | None => raise AttributeError
                      "'DistancesContext' object has no attribute 'repi'"
                      "make_contexts"
          | Some repi =>
              let reqv := reqv_get repi (mag rup) in
              let dctx : DistancesContext :=
                if bool_decide ("rjb" ∈ REQUIRES_DISTANCES self)
                then <["rjb" := reqv]> dctx else dctx in
              let reqv_rup :=
                NDArray (shape reqv)
                  ((λ x, np_sqrt ext (x ^ 2 + depth (hypocenter rup) ^ 2))
                     <$> data reqv) true in
              Ok (if bool_decide ("rrup" ∈ REQUIRES_DISTANCES self)
                  then <["rrup" := reqv_rup]> dctx else dctx)
          end
        else Ok dctx
    | None => Ok dctx
    end;
  rup ← add_rup_params self rup;
  Ok (rup, sites, dctx).

(** *** RupData.add *)

Definition RupData_add (cmaker : ContextMaker)
    (self_data : gmap string (list cell)) (rup : rupture) (src_id : option Z)
    (sctx : SiteCollection) (dctx : option DistancesContext)
  : result (gmap string (list cell)) :=
  let rate := occurrence_rate rup in
  let probs_occur :=
    if isnan rate then probs_occur rup        (* for nonparametric ruptures *)
    else [] in
  let self_data :=
    accum_append "srcidx" (CInt (default 0%Z src_id)) self_data in
  let self_data := accum_append "occurrence_rate" (CFloat rate) self_data in
  let self_data :=
    accum_append "weight"
      (CFloat (match weight rup with               (* rup.weight or nan *)
               | Some w => if Qc_eqb w 0 then NaN else Fin w
               | None => NaN
               end)) self_data in
  let self_data :=
    accum_append "probs_occur" (CFloats probs_occur) self_data in
  self_data ←
    foldlM (λ self_data rup_param,
        v ← rup_getattr rup rup_param;
        Ok (accum_append rup_param (CFloat (Fin v)) self_data))
      self_data (REQUIRES_RUPTURE_PARAMETERS cmaker);
  let self_data :=
    accum_append "sid_" (CInts (numpy_int16 <$> sids sctx)) self_data in
  self_data ←
    foldlM (λ self_data dst_param,
        dists ←
          match dctx with
          | None =>                               (* compute the distances *)
              get_distances rup (sites_of sctx) dst_param
          | Some dctx =>               (* reuse already computed distances *)
              match dctx !! dst_param with
              | Some dists => Ok dists
              | None =>
                  raise AttributeError
                    ("'DistancesContext' object has no attribute "
                     +:+ py_repr ext dst_param) "add"
              end
          end;
        Ok (accum_append (dst_param +:+ "_")
              (CFloats (F32 ext <$> data dists)) self_data))
      self_data (REQUIRES_DISTANCES cmaker);
  let closest := get_closest_points ext rup (sites_of sctx) in
  let self_data :=
    accum_append "lon_" (CFloats (F32 ext <$> closest.1)) self_data in
  let self_data :=
    accum_append "lat_" (CFloats (F32 ext <$> closest.2)) self_data in
  Ok self_data.

(** *** Sources, collapse and the rupture generator *)

Record source := Source {
  src_id : Z;                       (* src.id *)
  source_id : string;
  src_group_ids : list Z;
  mutex_weight : Qc;
  src_tectonic_region_type : string;
  location : option hypocenter_t;
  count_nphc : nat;
  hypocenter_distribution : list (Qc * Qc);        (* (weight, depth) *)
  gen_mag_ruptures : list (Qc * list rupture);
  _get_max_rupture_projection_radius : Qc → Qc
}.

Definition set_occurrence_rate (rup : rupture) (rate : float) : rupture :=
  Rupture (rup_id rup) (mag rup) (rake rup) (tectonic_region_type rup)
    (hypocenter rup) (surface rup) rate (probs_occur rup)
    (weight rup) (temporal_occurrence_model rup) (params rup).

(** collapse a list of ruptures into a single rupture *)
Definition _collapse (rups : list rupture) : result rupture :=
  match rups with
  | [] => raise IndexError "list index out of range" "_collapse"
  | rup :: _ =>
      Ok (set_occurrence_rate rup
            (fmul (occurrence_rate rup) (Qc_of_Z (Z.of_nat (length rups)))))
  end.

(** What [_gen_rups_sites] yields first: a list of ruptures, or the single
    rupture that [_collapse] returns. *)
Inductive rups_t :=
| RupList (rups : list rupture)
| OneRupture (rup : rupture).

(** [numpy.average(depths, weights=weights)] *)
Definition np_average (depths weights : list Qc) : result Qc :=
  let scl := sum_Qc weights in
  if Qc_eqb scl 0 then
    raise ZeroDivisionError "Weights sum to zero, can't be normalized"
      "_gen_rups_sites"
  else Ok (sum_Qc (zip_with Qcmult depths weights) / scl).

Definition set_depth (loc : hypocenter_t) (d : Qc) : hypocenter_t :=
  Hypocenter (longitude loc) (latitude loc) d.

(** One turn of the loop [for mag, rups in src.gen_mag_ruptures()] of the
    generator [_gen_rups_sites]: the triples it yields, and the value of the
    variable [loc] afterwards.  Whatever can fail in a turn fails before its
    first [yield]. *)
Definition _gen_rups_sites_mag (self : ContextMaker) (src : source)
    (sites : SiteCollection) (loc : option hypocenter_t)
    (mag : Qc) (rups : list rupture)
  : result (option hypocenter_t
            * list (rups_t * SiteCollection * option Qc)) :=
  let trt := src_tectonic_region_type src in
  let simple := match location src with
                | Some _ => bool_decide (count_nphc src = 1%nat)
                | None => false
                end in
  match loc with
  | Some loc0 =>
      if (max_sites_disagg self <? length (sites_of sites))%nat then
        loc1 ←
          (if simple then Ok loc0
           else match hypocenter_distribution src with
                | [] => raise ValueError
                          "not enough values to unpack (expected 2, got 0)"
                          "_gen_rups_sites"
                | hd => depth ← np_average (hd.*2) (hd.*1);
                        Ok (set_depth loc0 depth)   (* average hypocenter *)
                end);
        let mdist := maximum_distance self trt mag in
        let radius := _get_max_rupture_projection_radius src mag in
        let mdist := match max_radius self with
                     | Some max_radius => Qc_min (max_radius * radius) mdist
                     | None => mdist
                     end in
        if simple then
          (* there is nothing to collapse *)
          Ok (Some loc1, [(RupList rups, sites, Some mdist)])
        else
          (* compute the collapse distance and use it *)
          let cdist := match pointsource_distance self with
                       | None => Qc_min (collapse_factor self * radius) mdist
                       | Some psd => Qc_min psd mdist   (* legacy approach *)
                       end in
          match split ext sites loc1 cdist with
          | AllFar far_sites =>                         (* all is far *)
              rup ← _collapse rups;
              Ok (Some loc1, [(OneRupture rup, far_sites, Some mdist)])
          | AllClose close_sites =>                     (* all is close *)
              Ok (Some loc1, [(RupList rups, close_sites, Some mdist)])
          | CloseAndFar close_sites far_sites =>
              (* some sites are far, some are close *)
              rup ← _collapse rups;
              Ok (Some loc1, [(OneRupture rup, far_sites, Some mdist);
                              (RupList rups, close_sites, Some mdist)])
          end
      else Ok (loc, [(RupList rups, sites, None)])
  | None =>
      (* no point source or site-specific analysis *)
      Ok (loc, [(RupList rups, sites, None)])
  end.

(** The generator [_gen_rups_sites]: what it yields, in order; when a turn
    of its loop raises, the exception comes in place of the next item and
    nothing follows. *)
Fixpoint _gen_rups_sites_from (self : ContextMaker) (src : source)
    (sites : SiteCollection) (loc : option hypocenter_t)
    (mag_rups : list (Qc * list rupture))
  : list (result (rups_t * SiteCollection * option Qc)) :=
  match mag_rups with
  | [] => []
  | (mag, rups) :: mag_rups =>
      match _gen_rups_sites_mag self src sites loc mag rups with
      | Raise e => [Raise e]
      | Ok (loc, items) =>
          (Ok <$> items) ++ _gen_rups_sites_from self src sites loc mag_rups
      end
  end.

Definition _gen_rups_sites (self : ContextMaker) (src : source)
    (sites : SiteCollection)
  : list (result (rups_t * SiteCollection * option Qc)) :=
  _gen_rups_sites_from self src sites (location src) (gen_mag_ruptures src).

(** *** _make_pnes *)

(** The slice [ll(imt)] of every IMT, in the order of the mapping. *)
Fixpoint imt_slices (start : nat) (imtls : list (string * list Qc))
  : list (string * nat * nat) :=
  match imtls with
  | [] => []
  | (imt, imls) :: imtls =>
      (imt, start, start + length imls)%nat
        :: imt_slices (start + length imls) imtls
  end.

(** [len(self.imtls.array)] *)
Definition num_levels (imtls : list (string * list Qc)) : nat :=
  length (concat (imtls.*2)).

(** [poes[:, lo:hi, g] = 0] on an array of shape (N, L, G). *)
Definition zero_slice (poes : ndarray) (lo hi g : nat) : result ndarray :=
  match shape poes with
  | [_; L; G] =>
      if negb (writeable poes) then
        raise ValueError "assignment destination is read-only" "_make_pnes"
      else if (g <? G)%nat then
        Ok (NDArray (shape poes)
              (imap (λ idx x,
                 if ((idx mod G =? g) && (lo <=? (idx / G) mod L)
                     && ((idx / G) mod L <? hi))%nat
                 then 0 else x) (data poes))
              true)
      else raise IndexError "index is out of bounds for axis 2" "_make_pnes"
  | _ => raise IndexError "too many indices for array" "_make_pnes"
  end.

(** The two loops of [_make_pnes]:
    [for g, gsim in enumerate(self.gsims): for m, imt in enumerate(ll): ...] *)
Definition zero_weight_masking (self : ContextMaker) (poes : ndarray)
  : result ndarray :=
  foldlM (λ poes '(g, gsim),
    foldlM (λ poes '(imt, lo, hi),
      match gsim_weight gsim with
      | Some weight =>
          if Qc_eqb (weight imt) 0 then
            (* set by the engine when parsing the gsim logictree;
               when 0 ignore the gsim: see _build_trts_branches *)
            zero_slice poes lo hi g
          else Ok poes
      | None => Ok poes
      end) poes (imt_slices 0 (imtls self)))
    poes (imap pair (gsims self)).

(** NB: the last line of the method reads the name [rupture], which is
    neither a parameter or local variable of the method nor a name bound in
    the module: evaluating it raises NameError. *)
Definition _make_pnes (self : ContextMaker)
    (data : list (rupture * SiteCollection * DistancesContext))
    (mean_std : ndarray) : result npvalue :=
  let ll := imtls self in
  poes ← get_poes ext mean_std ll (trunclevel self) (gsims self);
  (* shape (N, L, G) *)
  poes ← zero_weight_masking self poes;
  raise NameError "name 'rupture' is not defined" "_make_pnes".

(** *** get_pmap *)

(** The variables of the loop [for rup in rups]: the site ids and the
    contexts collected so far, the rupture last bound to [rup] and the
    [r_sites], [dctx] of the last rupture that passed the filter. *)
Record ctx_loop := CtxLoop {
  cl_sids : list Z;
  cl_data : list (rupture * SiteCollection * DistancesContext);
  cl_rup : option rupture;
  cl_last : option (SiteCollection * DistancesContext)
}.

(** One turn of [for rup in rups]: [try: make_contexts ... except
    FarAwayRupture: continue], then [sids.extend], [data.append]. *)
Definition contexts_step (self : ContextMaker) (sites : SiteCollection)
    (magdist : option Qc) (st : ctx_loop) (rup : rupture) : result ctx_loop :=
  match make_contexts self sites rup magdist with
  | Raise e =>
      if decide (kind e = FarAwayRupture)
      then Ok (CtxLoop (cl_sids st) (cl_data st) (Some rup) (cl_last st))
      else Raise e
  | Ok (rup, r_sites, dctx) =>
      Ok (CtxLoop (cl_sids st ++ sids r_sites)
            (cl_data st ++ [(rup, r_sites, dctx)])
            (Some rup) (Some (r_sites, dctx)))
  end.

Definition contexts_loop (self : ContextMaker) (sites : SiteCollection)
    (magdist : option Qc) (st : ctx_loop) (rups : list rupture)
  : result ctx_loop :=
  foldlM (contexts_step self sites magdist) st rups.

(** [poemap.setdefault(sid, rup_indep).array *= pne] and its mutex
    counterpart, for every [sid, pne] of [pairs]. *)
Definition compose_pnes (rup_indep : bool) (rup : rupture) (pairs : npvalue)
    (poemap : ProbabilityMap) : result ProbabilityMap :=
  items ← np_iter pairs;
  foldlM (λ (poemap : ProbabilityMap) item,
    '(sid, pne) ← unpack_pair item;
    sid ← np_hash sid;
    let L := shape_y poemap in
    let G := shape_z poemap in
    if rup_indep then
      let array := setdefault_array poemap sid 1 in
      pne ← broadcast_to L G pne;
      Ok (set_curves poemap
            (<[sid := zip_with Qcmult array pne]> (curves poemap)))
    else
      let array := setdefault_array poemap sid 0 in
      match weight rup with
      | None => raise TypeError
          "unsupported operand type(s) for *: 'float' and 'NoneType'"
          "get_pmap"
      | Some w =>
          delta ← broadcast_to L G (np_map (λ p, (1 - p) * w) pne);
          Ok (set_curves poemap
                (<[sid := zip_with Qcplus array delta]> (curves poemap)))
      end) poemap items.

Record pmap_loop := PmapLoop {
  pl_poemap : ProbabilityMap;
  pl_rupdata : gmap string (list cell);
  pl_nrups : nat;
  pl_nsites : nat;
  pl_dists : list Qc
}.

(** The body of [for rups, sites, magdist in self._gen_rups_sites(...)]. *)
Definition get_pmap_body (self : ContextMaker) (src : source)
    (rup_indep fewsites : bool) (st : pmap_loop)
    (item : rups_t * SiteCollection * option Qc) : result pmap_loop :=
  let '(rups, sites, magdist) := item in
  let dists := match magdist with
               | Some d => pl_dists st ++ [d]
               | None => pl_dists st
               end in
  rups ← match rups with
         | RupList rups => Ok rups
         | OneRupture _ =>
             raise TypeError "rupture object is not iterable" "get_pmap"
         end;
  cl ← contexts_loop self sites magdist (CtxLoop [] [] None None) rups;
  match cl_sids cl with
  | [] =>                                       (* if not sids: continue *)
      Ok (PmapLoop (pl_poemap st) (pl_rupdata st) (pl_nrups st)
            (pl_nsites st) dists)
  | _ :: _ =>
      mean_std ← get_mean_std ext (cl_data cl) (imtls self).*1 (gsims self);
      pairs ← _make_pnes self (cl_data cl) mean_std;
      (* the variables [rup], [r_sites] and [dctx] left by the loop *)
      match cl_rup cl, cl_last cl with
      | Some rup, Some (r_sites, dctx) =>
          poemap ← compose_pnes rup_indep rup pairs (pl_poemap st);
          rupdata ←
            (if fewsites                                  (* store rupdata *)
             then RupData_add self (pl_rupdata st) rup (Some (src_id src))
                    r_sites (Some dctx)
             else Ok (pl_rupdata st));
          Ok (PmapLoop poemap rupdata (pl_nrups st + length rups)
                (pl_nsites st + length (cl_sids cl)) dists)
      | _, _ =>
          raise NameError "local variable referenced before assignment"
            "get_pmap"
      end
  end.

(** [numpy.mean(dists) if dists else None] *)
Definition mean_or_None (dists : list Qc) : option Qc :=
  match dists with
  | [] => None
  | _ => Some (sum_Qc dists / Qc_of_Z (Z.of_nat (length dists)))
  end.

Definition get_pmap (self : ContextMaker) (src : source)
    (s_sites : SiteCollection) (rup_indep : bool) : result ProbabilityMap :=
  let fewsites :=
    (length (complete s_sites) <=? max_sites_disagg self)%nat in
  let L := num_levels (imtls self) in
  let G := length (gsims self) in
  let poemap := new_ProbabilityMap L G in
  st ← foldlM (λ st item,
          item ← item;
          get_pmap_body self src rup_indep fewsites st item)
        (PmapLoop poemap ∅ 0 0 []) (_gen_rups_sites self src s_sites);
  Ok (PMap L G (curves (pl_poemap st)) (pl_nrups st) (pl_nsites st)
        (mean_or_None (pl_dists st)) (pl_rupdata st)).

(** *** _update and get_pmap_by_grp *)

(** [AccumDict(accum=ProbabilityMap(L, G))]: a missing group reads as an
    empty map. *)
Definition _update (L G : nat) (pmap : gmap Z ProbabilityMap)
    (pm : ProbabilityMap) (src : source) (src_mutex rup_mutex : bool)
  : gmap Z ProbabilityMap :=
  let pm := if negb rup_mutex then pmap_invert pm else pm in
  if bool_decide (curves pm = ∅) then pmap                    (* if not pm *)
  else
    let pm := if src_mutex then pmap_imul pm (mutex_weight src) else pm in
    foldl (λ (pmap : gmap Z ProbabilityMap) grp_id,
      let old := default (new_ProbabilityMap L G) (pmap !! grp_id) in
      if src_mutex then <[grp_id := pmap_iadd old pm]> pmap
      else <[grp_id := pmap_ior old pm]> pmap)
      pmap (src_group_ids src).

(** The variables of the loop of [get_pmap_by_grp].  The third component of
    [calc_times], the wall time, is left out. *)
Record grp_loop := GrpLoop {
  gl_pmap : gmap Z ProbabilityMap;
  gl_gids : list Z;
  gl_rup_data : gmap string (list cell);
  gl_calc_times : gmap Z (nat * nat);
  gl_dists : list Qc
}.

Definition decorate (err : exn) (src : source) : exn :=
  Exn (kind err)
    (msg err +:+ " (source id=" +:+ source_id src +:+ ")")
    (tb err).

(** What the loop does with the map [get_pmap] returned for a source:
    [_update], the distance, the group ids and rupture data, the times. *)
Definition grp_step (self : ContextMaker) (src_mutex rup_mutex : bool)
    (st : grp_loop) (src : source) (poemap : ProbabilityMap) : grp_loop :=
  let L := num_levels (imtls self) in
  let G := length (gsims self) in
  let pmap := _update L G (gl_pmap st) poemap src src_mutex rup_mutex in
  let dists := match maxdist poemap with                 (* if poemap.maxdist *)
               | Some d => if Qc_eqb d 0 then gl_dists st
                           else gl_dists st ++ [d]
               | None => gl_dists st
               end in
  let '(gids, rup_data) :=
    if bool_decide (rupdata poemap = ∅)               (* if len(poemap.data) *)
    then (gl_gids st, gl_rup_data st)
    else
      let nr := length (default [] (rupdata poemap !! "sid_")) in
      foldl (λ '(gids, rup_data) gid,
        (gids ++ replicate nr gid,
         foldl (λ rup_data '(k, v), accum_extend k v rup_data)
           rup_data (map_to_list (rupdata poemap))))
        (gl_gids st, gl_rup_data st) (src_group_ids src) in
  let old := default (0, 0)%nat (gl_calc_times st !! src_id src) in
  let calc_times :=
    <[src_id src := (old.1 + nrups poemap, old.2 + nsites poemap)%nat]>
      (gl_calc_times st) in
  GrpLoop pmap gids rup_data calc_times dists.

(** The [while True] loop over [it = iter(src_sites)]: [next(it)] raises
    StopIteration when the pairs are exhausted.  The handlers of the [try]
    block see what [get_pmap] raises: [except StopIteration: break] comes
    first; [except Exception as err] re-raises [etype(msg)] with the
    traceback of [err], and calling [etype(msg)] is itself an error for a
    class that is not built from one string; an exception that is not an
    [Exception] goes through as it is. *)
Fixpoint get_pmap_by_grp_loop (self : ContextMaker)
    (src_mutex rup_mutex : bool) (st : grp_loop)
    (src_sites : list (source * SiteCollection)) : result grp_loop :=
  match src_sites with
  | [] => Ok st                                   (* except StopIteration *)
  | (src, s_sites) :: src_sites =>
      match get_pmap self src s_sites (negb rup_mutex) with
      | Raise err =>
          if decide (kind err = StopIteration) then Ok st       (* break *)
          else if is_Exception (kind err) then
            match init_error_of (kind err) with
            | None => Raise (decorate err src)
            | Some m => raise TypeError m "get_pmap_by_grp"
            end
          else Raise err
      | Ok poemap =>
          get_pmap_by_grp_loop self src_mutex rup_mutex
            (grp_step self src_mutex rup_mutex st src poemap) src_sites
      end
  end.

(** What [get_pmap_by_grp] returns: pmap, rdata, calc_times, maxdist. *)
Record grp_result := GrpResult {
  gr_pmap : gmap Z ProbabilityMap;
  gr_rdata : gmap string (list cell);
  gr_calc_times : gmap Z (nat * nat);
  gr_maxdist : option Qc
}.

(** The end of [get_pmap_by_grp], after the loop:
    [rdata['grp_id'] = numpy.uint16(gids)] and the mean distance. *)
Definition grp_finish (st : grp_loop) : grp_result :=
  let rdata := gl_rup_data st in
  let rdata := <["grp_id" := CInt <$> (numpy_uint16 <$> gl_gids st)]> rdata in
  GrpResult (gl_pmap st) rdata (gl_calc_times st)
    (mean_or_None (gl_dists st)).

Definition get_pmap_by_grp (self : ContextMaker)
    (src_sites : list (source * SiteCollection))
    (src_mutex rup_mutex : bool) : result grp_result :=
  st ← get_pmap_by_grp_loop self src_mutex rup_mutex
         (GrpLoop ∅ [] ∅ ∅ []) src_sites;
  Ok (grp_finish st).

End Contexts.

(** The collaborators never raise FarAwayRupture. *)
Definition no_far_away (ext : collaborators) : Prop :=
  (∀ data imts gsims e,
     get_mean_std ext data imts gsims = Raise e → kind e ≠ FarAwayRupture)
  ∧ (∀ mean_std ll trunclevel gsims e,
       get_poes ext mean_std ll trunclevel gsims = Raise e →
       kind e ≠ FarAwayRupture).

(** ** _collapse on the object store

    [_collapse] copies an object and assigns to an attribute of the copy.
    Whether the ruptures it was given are left alone is a statement about
    shared objects, so the function is also modelled on a store: objects
    live at locations, attribute values are numbers, strings or references,
    and [copy.copy] allocates a new object with the same attribute values. *)
Module Heap.

Inductive pyval :=
| VNone
| VInt (z : Z)
| VFloat (f : float)
| VStr (s : string)
| VRef (l : nat).

Inductive pyobj :=
| PyList (items : list pyval)
| PyInst (cls : string) (attrs : gmap string pyval).

Global Instance pyval_eq_dec : EqDecision pyval.
Proof. solve_decision. Defined.
Global Instance pyobj_eq_dec : EqDecision pyobj.
Proof. solve_decision. Defined.

Abbreviation heap := (gmap nat pyobj).

Definition alloc (h : heap) (o : pyobj) : heap * nat :=
  let l := fresh (dom h) in (<[l := o]> h, l).

(** [copy.copy(x)]: a shallow copy of a list or of an instance; numbers and
    strings are returned as they are. *)
Definition copy_copy (h : heap) (v : pyval) : result (heap * pyval) :=
  match v with
  | VRef l =>
      match h !! l with
      | Some o => let '(h, l) := alloc h o in Ok (h, VRef l)
      | None => raise (OtherError "SystemError" true None) "dangling reference"
                  "copy"
      end
  | _ => Ok (h, v)
  end.

(** [x *= n] for an integer [n], as the value to bind and the store
    afterwards: a list is repeated in place. *)
Definition imul (h : heap) (v : pyval) (n : nat) : result (heap * pyval) :=
  match v with
  | VFloat f => Ok (h, VFloat (fmul f (Qc_of_Z (Z.of_nat n))))
  | VInt z => Ok (h, VInt (z * Z.of_nat n))
  | VStr s => Ok (h, VStr (String.concat "" (replicate n s)))
  | VRef l =>
      match h !! l with
      | Some (PyList items) =>
          Ok (<[l := PyList (mjoin (replicate n items))]> h, v)
      | _ => raise TypeError "unsupported operand type(s) for *=" "_collapse"
      end
  | VNone => raise TypeError "unsupported operand type(s) for *=" "_collapse"
  end.

(** collapse a list of ruptures into a single rupture *)
Definition _collapse (h : heap) (rups : nat) : result (heap * pyval) :=
  items ← match h !! rups with
          | Some (PyList items) => Ok items
          | _ => raise TypeError "object is not subscriptable" "_collapse"
          end;
  first ← match items with
          | v :: _ => Ok v
          | [] => raise IndexError "list index out of range" "_collapse"
          end;
  '(h, rup) ← copy_copy h first;
  (* rup.occurrence_rate *= len(rups) *)
  match rup with
  | VRef l =>
      match h !! l with
      | Some (PyInst cls attrs) =>
          match attrs !! "occurrence_rate" with
          | Some rate =>
              '(h, rate) ← imul h rate (length items);
              Ok (<[l := PyInst cls (<["occurrence_rate" := rate]> attrs)]> h,
                  rup)
          | None => raise AttributeError
                      "object has no attribute 'occurrence_rate'" "_collapse"
          end
      | _ => raise AttributeError
               "object has no attribute 'occurrence_rate'" "_collapse"
      end
  | _ => raise AttributeError
           "object has no attribute 'occurrence_rate'" "_collapse"
  end.

(** The occurrence rate of the rupture a value refers to. *)
Definition rate_of (h : heap) (v : pyval) : option float :=
  match v with
  | VRef l =>
      match h !! l with
      | Some (PyInst _ attrs) =>
          match attrs !! "occurrence_rate" with
          | Some (VFloat f) => Some f
          | _ => None
          end
      | _ => None
      end
  | _ => None
  end.

(** The sum of the occurrence rates of a list of ruptures. *)
Definition sum_rates (h : heap) (items : list pyval) : float :=
  foldr (λ v acc, fadd (default NaN (rate_of h v)) acc) (Fin 0) items.

End Heap.

(** ** The rest of the module *)

(** *** get_num_distances *)

(** The number of distances required for the given GSIMs: the size of the
    set the loop builds with [dists.update(gsim.REQUIRES_DISTANCES)]. *)
Definition get_num_distances (gsims : list gsim) : nat :=
  size (foldl (λ (dists : gset string) gsim,
                 dists ∪ list_to_set (gsim_REQUIRES_DISTANCES gsim))
          ∅ gsims).

(** *** ContextMaker.__init__ *)

(** The options of the dictionary [param] that the constructor reads; an
    option is None when the key is missing. *)
Record param_t := Param {
  p_max_sites_disagg : option nat;
  p_maximum_distance : option (string → Qc → Qc);
  p_truncation_level : option Qc;
  p_collapse_factor : option Qc;
  p_max_radius : option Qc;
  p_pointsource_distance : option Qc;
  p_filter_distance : option string;
  p_imtls : option (list (string * list Qc));
  p_reqv : option (gmap string (ndarray → Qc → ndarray))
}.

(** [param = param or {}] *)
Definition empty_param : param_t :=
  Param None None None None None None None None None.

(** [reqset.update(names)] and [reqset.add(name)] on a set kept as a list
    without repetitions. *)
Definition set_add (name : string) (reqset : list string) : list string :=
  if bool_decide (name ∈ reqset) then reqset else reqset ++ [name].

Definition set_update (reqset names : list string) : list string :=
  foldl (λ reqset name, set_add name reqset) reqset names.

(** The union of [REQUIRES_<req>] over the GSIMs. *)
Definition requires_union (req : gsim → list string) (gsims : list gsim)
  : list string :=
  foldl (λ reqset gsim, set_update reqset (req gsim)) [] gsims.

(** The constructor.  [IntegrationDistance({})], the maximum distance used
    when the parameters give none, comes from another module and is an
    argument here; the monitors and the logarithms of the levels are left
    out. *)
Definition ContextMaker_init (IntegrationDistance_empty : string → Qc → Qc)
    (trt : string) (gsims : list gsim) (param : option param_t)
  : ContextMaker :=
  let param := default empty_param param in
  let requires_distances := requires_union gsim_REQUIRES_DISTANCES gsims in
  let filter_distance :=
    match p_filter_distance param with
    | Some filter_distance => filter_distance
    | None =>
        if bool_decide ("rrup" ∈ requires_distances) then "rrup"
        else if bool_decide ("rjb" ∈ requires_distances) then "rjb"
        else "rrup"
    end in
  let requires_distances := set_add filter_distance requires_distances in
  let requires_distances :=
    match p_reqv param with
    | Some _ => set_add "repi" requires_distances
    | None => requires_distances
    end in
  {| max_sites_disagg := default 10%nat (p_max_sites_disagg param);
     trt := trt;
     gsims := gsims;
     maximum_distance :=
       default IntegrationDistance_empty (p_maximum_distance param);
     trunclevel := p_truncation_level param;
     REQUIRES_DISTANCES := requires_distances;
     REQUIRES_SITES_PARAMETERS :=
       requires_union gsim_REQUIRES_SITES_PARAMETERS gsims;
     REQUIRES_RUPTURE_PARAMETERS :=
       requires_union gsim_REQUIRES_RUPTURE_PARAMETERS gsims;
     collapse_factor := default (qc 3 1) (p_collapse_factor param);
     max_radius := p_max_radius param;
     pointsource_distance := p_pointsource_distance param;
     filter_distance := filter_distance;
     imtls := default [] (p_imtls param);
     reqv := p_reqv param |}.

(** The rupture parameters [add_rup_params] knows how to set. *)
Definition RUPTURE_PARAMETERS : list string :=
  ["mag"; "strike"; "dip"; "rake"; "ztor"; "hypo_lon"; "hypo_lat";
   "hypo_depth"; "width"].

(** Where each of them is read from. *)
Definition rupture_parameter_table (rup : rupture) : list (string * Qc) :=
  [("mag", mag rup);
   ("strike", get_strike (surface rup));
   ("dip", get_dip (surface rup));
   ("rake", rake rup);
   ("ztor", get_top_edge_depth (surface rup));
   ("hypo_lon", longitude (hypocenter rup));
   ("hypo_lat", latitude (hypocenter rup));
   ("hypo_depth", depth (hypocenter rup));
   ("width", get_width (surface rup))].

Definition rupture_parameter (rup : rupture) (param : string) : option Qc :=
  (list_to_map (rupture_parameter_table rup) : gmap string Qc) !! param.

(** A rupture with other added parameters and the same attributes. *)
Definition with_params (rup : rupture) (ps : gmap string Qc) : rupture :=
  Rupture (rup_id rup) (mag rup) (rake rup) (tectonic_region_type rup)
    (hypocenter rup) (surface rup) (occurrence_rate rup) (probs_occur rup)
    (weight rup) (temporal_occurrence_model rup) ps.

(** *** RupData *)

(** The names of the columns a call of [RupData.add] appends to, one
    occurrence per cell appended and in the order of the appends. *)
Definition RupData_columns (cmaker : ContextMaker) : list string :=
  ["srcidx"; "occurrence_rate"; "weight"; "probs_occur"]
    ++ REQUIRES_RUPTURE_PARAMETERS cmaker
    ++ ["sid_"]
    ++ ((λ dst_param, dst_param +:+ "_") <$> REQUIRES_DISTANCES cmaker)
    ++ ["lon_"; "lat_"].

(** The cells of a column. *)
Definition column (data : gmap string (list cell)) (name : string)
  : list cell :=
  default [] (data !! name).

(** [data'] is [data] with cells appended: to every column as many as the
    name of the column occurs in [cols], the cells already there kept. *)
Definition rows_appended (cols : list string)
    (data data' : gmap string (list cell)) : Prop :=
  ∀ name, ∃ cells,
    column data' name = column data name ++ cells
    ∧ length cells = count_occ String.string_dec cols name.

(** [RupData.from_srcs]; [iter_ruptures] is the method of the sources that
    yields their ruptures.  The final [numpy.array(v)] on each column keeps
    the cells and their order. *)
Definition RupData_from_srcs (ext : collaborators) (cmaker : ContextMaker)
    (iter_ruptures : source → list rupture)
    (self_data : gmap string (list cell)) (srcs : list source)
    (sites : SiteCollection) : result (gmap string (list cell)) :=
  foldlM (λ self_data src,
    foldlM (λ self_data rup,
      rup ← add_rup_params ext cmaker rup;
      RupData_add ext cmaker self_data rup (Some (src_id src)) sites None)
      self_data (iter_ruptures src))
    self_data srcs.

(** *** _gen_rups_sites *)

(** What an item yielded for the magnitude [mag] and its ruptures [rups0]
    can be: the ruptures as they are, or the single rupture [_collapse]
    makes of them, which takes a point source that is not simple; with no
    distance and all the sites, or, for a point source and more sites than
    [max_sites_disagg], with a distance within the maximum distance. *)
Definition yielded_for (self : ContextMaker) (src : source)
    (sites : SiteCollection) (mag : Qc) (rups0 : list rupture)
    (item : rups_t * SiteCollection * option Qc) : Prop :=
  match item.1.1 with
  | RupList rups => rups = rups0
  | OneRupture rup =>
      _collapse rups0 = Ok rup ∧ count_nphc src ≠ 1%nat
      ∧ is_Some (item.2)
  end
  ∧ match item.2 with
    | Some mdist =>
        is_Some (location src)
        ∧ (max_sites_disagg self < length (sites_of sites))%nat
        ∧ mdist ≤ maximum_distance self (src_tectonic_region_type src) mag
    | None => item.1.2 = sites
    end.

(** *** get_pmap *)

(** An item of the generator none of whose ruptures has a site in reach:
    [make_contexts] raises FarAwayRupture for each of them. *)
Definition all_far_away (ext : collaborators) (self : ContextMaker)
    (item : rups_t * SiteCollection * option Qc) : Prop :=
  ∃ rups, item.1.1 = RupList rups
    ∧ Forall (λ rup, ∃ e, make_contexts ext self item.1.2 rup item.2 = Raise e
                          ∧ kind e = FarAwayRupture) rups.

(** *** DistancesContext.roundup *)

(** [minimum_distance] is None, zero or a distance;
    [array[array < minimum_distance] = minimum_distance] is done on a copy
    of the array, which is then made read-only. *)
Definition roundup_array (minimum_distance : Qc) (array : ndarray)
  : ndarray :=
  let small_distances := (λ x, Qc_ltb x minimum_distance) <$> data array in
  if existsb id small_distances then
    NDArray (shape array)
      ((λ x, if Qc_ltb x minimum_distance then minimum_distance else x)
         <$> data array)
      false
  else array.

Definition roundup (self : DistancesContext) (minimum_distance : option Qc)
  : DistancesContext :=
  match minimum_distance with
  | None => self
  | Some minimum_distance =>
      if Qc_eqb minimum_distance 0 then self      (* if not minimum_distance *)
      else roundup_array minimum_distance <$> self
  end.

Definition Qc_max (x y : Qc) : Qc := if Qc_leb x y then y else x.

(** A distance rounded up to [m]. *)
Definition lift (m x : Qc) : Qc := if Qc_ltb x m then m else x.

(** *** BaseContext.__eq__ *)

(** The value of an attribute of a context: a numpy array, whose cells are
    floats and can be NaN (a numpy scalar is an array of shape ()), or a
    Python number, which has no attribute [shape]. *)
Record farray := FArray { fshape : list nat; fdata : list float }.

Inductive cvalue :=
| VArray (a : farray)
| VNumber (x : float).

(** A context object: its class, its [_slots_] and its attributes. *)
Record context := Context {
  ctx_class : string;
  _slots_ : list string;
  ctx_attrs : gmap string cvalue
}.

Definition DistancesContext_slots : list string :=
  ["rrup"; "rx"; "rjb"; "rhypo"; "repi"; "ry0"; "rcdpp"; "azimuth";
   "hanging_wall"; "rvolc"].

(** A distance context of the module as a context object. *)
Definition as_context (dctx : DistancesContext) : context :=
  Context "DistancesContext" DistancesContext_slots
    ((λ a : ndarray, VArray (FArray (shape a) (Fin <$> data a))) <$> dctx).

Definition Qc_abs (x : Qc) : Qc := if Qc_leb 0 x then x else - x.

(** [numpy.allclose(a, b)] on arrays of the same shape, with the default
    tolerances: [absolute(a - b) <= atol + rtol * absolute(b)] everywhere,
    rtol = 1e-05 and atol = 1e-08.  A NaN is close to nothing, itself
    included ([equal_nan] is False). *)
Definition rtol : Qc := qc 1 100000.
Definition atol : Qc := qc 1 100000000.

Definition isclose (a b : Qc) : bool :=
  Qc_leb (Qc_abs (a - b)) (atol + rtol * Qc_abs b).

Definition float_isclose (a b : float) : bool :=
  match a, b with
  | Fin a, Fin b => isclose a b
  | _, _ => false
  end.

Definition allclose (a b : list float) : bool :=
  forallb (λ ab : float * float, float_isclose ab.1 ab.2) (zip a b).

(** [a == b] on floats: a NaN equals nothing. *)
Definition float_eqb (a b : float) : bool :=
  match a, b with
  | Fin a, Fin b => Qc_eqb a b
  | _, _ => false
  end.

(** An entry of the list [oks]: a truth value, or the array of truth values
    that [a == b] is when one of the two is an array and the other a
    number. *)
Inductive ok_t :=
| OkBool (b : bool)
| OkArray (sh : list nat) (bs : list bool).

Definition ok_shape (ok : ok_t) : list nat :=
  match ok with OkBool _ => [] | OkArray sh _ => sh end.

Definition ok_cells (ok : ok_t) : list bool :=
  match ok with OkBool b => [b] | OkArray _ bs => bs end.

(** The comparison of one slot: [a, b = getattr(self, s, None),
    getattr(other, s, None)]. *)
Definition slot_ok (a b : option cvalue) : ok_t :=
  match a, b with
  | None, None => OkBool true
  | None, Some _ => OkBool false
  | Some _, None => OkBool false
  | Some (VArray a), Some (VArray b) =>   (* both have the attribute shape *)
      if decide (fshape a = fshape b)
      then OkBool (allclose (fdata a) (fdata b))
      else OkBool false
  | Some (VNumber x), Some (VNumber y) => OkBool (float_eqb x y)  (* a == b *)
  | Some (VArray a), Some (VNumber y) =>
      OkArray (fshape a) ((λ x, float_eqb x y) <$> fdata a)
  | Some (VNumber x), Some (VArray b) =>
      OkArray (fshape b) ((λ y, float_eqb x y) <$> fdata b)
  end.

(** [numpy.all(oks)]: the entries are made one array first, which entries of
    one shape allow.  What numpy makes of entries of different shapes
    depends on its version: that case is left out, with None. *)
Definition numpy_all (oks : list ok_t) : option bool :=
  let sh := from_option ok_shape [] (head oks) in
  if forallb (λ ok, bool_decide (ok_shape ok = sh)) oks
  then Some (forallb id (oks ≫= ok_cells))
  else None.

Definition BaseContext_eq (self other : context) : option bool :=
  if decide (ctx_class other = ctx_class self) then  (* isinstance(other, ..) *)
    if decide (_slots_ self = _slots_ other) then
      numpy_all ((λ s, slot_ok (ctx_attrs self !! s) (ctx_attrs other !! s))
                   <$> _slots_ self)
    else Some false
  else Some false.

(** No NaN in the value. *)
Definition nan_free (v : cvalue) : bool :=
  match v with
  | VArray a => forallb (λ x, negb (isnan x)) (fdata a)
  | VNumber x => negb (isnan x)
  end.

(** ** Scenarios

    A small world to evaluate the code in: sites lie east of the hypocenter
    at 100 km per degree, whatever the distance metric; the GSIM bank
    answers with a poe of (n+1)/10 on row n. *)
Module Scenario.

Definition ext : collaborators := {|
  geo := λ _ rup s, (lon s - longitude (hypocenter rup)) * qc 100 1;
  get_closest_points := λ rup mesh, (lon <$> mesh, lat <$> mesh);
  get_mean_std := λ data imts gsims,
    let N := length (data ≫= λ d, sites_of d.1.2) in
    let size := (2 * N * length imts * length gsims)%nat in
    Ok (NDArray [2; N; length imts; length gsims]%nat (replicate size 0) true);
  get_poes := λ mean_std ll trunclevel gsims,
    let N := default 0%nat (shape mean_std !! 1%nat) in
    let row := (num_levels ll * length gsims)%nat in
    Ok (NDArray [N; num_levels ll; length gsims]
          (n ← seq 0 N; replicate row (qc (Z.of_nat (S n)) 10)) true);
  split := λ sites loc cdist, AllClose sites;
  py_repr := λ s, "'" +:+ s +:+ "'";
  F32 := λ x, x;
  np_sqrt := λ x, x
|}.

(** The same world with a GSIM bank that leaks a StopIteration. *)
Definition ext_stop : collaborators := {|
  geo := geo ext;
  get_closest_points := get_closest_points ext;
  get_mean_std := λ _ _ _, raise StopIteration "" "get_mean_std";
  get_poes := get_poes ext;
  split := split ext;
  py_repr := py_repr ext;
  F32 := F32 ext;
  np_sqrt := np_sqrt ext
|}.

Definition gsim0 : gsim := Gsim ["rrup"] ["vs30"] ["mag"] None.

(** A GSIM whose logic-tree weight is zero for PGA. *)
Definition gsim_w0 : gsim :=
  Gsim ["rrup"] ["vs30"] ["mag"]
    (Some (λ imt, if decide (imt = "PGA") then 0 else 1)).

Definition cmaker_of (gsims : list gsim) : ContextMaker := {|
  max_sites_disagg := 10;
  trt := "Active Shallow Crust";
  gsims := gsims;
  maximum_distance := λ _ _, qc 200 1;
  trunclevel := Some (qc 3 1);
  REQUIRES_DISTANCES := ["rrup"];
  REQUIRES_SITES_PARAMETERS := ["vs30"];
  REQUIRES_RUPTURE_PARAMETERS := ["mag"];
  collapse_factor := qc 3 1;
  max_radius := None;
  pointsource_distance := None;
  filter_distance := "rrup";
  imtls := [("PGA", [qc 1 10; qc 2 10]); ("SA(0.2)", [qc 1 10])];
  reqv := None
|}.

Definition cmaker : ContextMaker := cmaker_of [gsim0].

(** A nonparametric rupture that occurs exactly once: pne = 1 - poe. *)
Definition rup_of (id : Z) (weight : option Qc) : rupture :=
  Rupture id (qc 6 1) 0 "Active Shallow Crust" (Hypocenter 0 0 (qc 10 1))
    (Surface 0 (qc 90 1) 0 (qc 10 1) false)
    NaN [0; 1] weight None ∅.

(** probs_occur = [0.5, 0.3, 0.2] *)
Definition rup_np : rupture :=
  Rupture 0 (qc 6 1) 0 "Active Shallow Crust" (Hypocenter 0 0 (qc 10 1))
    (Surface 0 (qc 90 1) 0 (qc 10 1) false)
    NaN [qc 1 2; qc 3 10; qc 1 5] None None ∅.

Definition poes_np : ndarray := NDArray [1%nat] [qc 1 10] true.

(** One site, 10 km away; one site, 100 km away. *)
Definition site_near : site := Site 0 (qc 1 10) 0.
Definition site_far : site := Site 1 1 0.
Definition one_site : SiteCollection := SiteCol [site_near] [site_near].
Definition far_site : SiteCollection := SiteCol [site_far] [site_far].

(** One site beyond the maximum distance of 200 km. *)
Definition remote_site : SiteCollection :=
  SiteCol [Site 2 (qc 3 1) 0] [Site 2 (qc 3 1) 0].

Definition src_of (rups : list rupture) : source := {|
  src_id := 1;
  source_id := "src-1";
  src_group_ids := [0%Z];
  mutex_weight := 1;
  src_tectonic_region_type := "Active Shallow Crust";
  location := None;
  count_nphc := 1;
  hypocenter_distribution := [];
  gen_mag_ruptures := [(qc 6 1, rups)];
  _get_max_rupture_projection_radius := λ _, qc 5 1
|}.


(** Two ruptures, with the weights 0.3 and 0.7 of a mutex group. *)
Definition two_rups : list rupture :=
  [rup_of 0 (Some (qc 3 10)); rup_of 1 (Some (qc 7 10))].

Definition name_error : exn :=
  Exn NameError "name 'rupture' is not defined" ["_make_pnes"].

(** A list of two ruptures on the store, with occurrence rates 1 and 2. *)
Definition rup_obj (rate : Qc) : Heap.pyobj :=
  Heap.PyInst "ParametricProbabilisticRupture"
    {[ "occurrence_rate" := Heap.VFloat (Fin rate);
       "mag" := Heap.VFloat (Fin (qc 6 1));
       "surface" := Heap.VRef 3 ]}.

Definition two_rups_heap : Heap.heap :=
  {[ 0%nat := Heap.PyList [Heap.VRef 1; Heap.VRef 2];
     1%nat := rup_obj 1;
     2%nat := rup_obj 2;
     3%nat := Heap.PyInst "PlanarSurface" ∅ ]}.


End Scenario.

(** ** Examples for the rest of the module *)
Module Example.

(** Distances of three sites, the first one closer than 1 km. *)
Definition dctx : DistancesContext :=
  {[ "rrup" := NDArray [3%nat] [qc 1 2; qc 2 1; qc 10 1] false;
     "rjb" := NDArray [3%nat] [qc 2 1; qc 3 1; qc 11 1] false ]}.

Definition dctx_of (x : Qc) : context :=
  as_context {[ "rrup" := NDArray [1%nat] [x] false ]}.

(** Distances one of which is not a number. *)
Definition nan_ctx : context :=
  Context "DistancesContext" DistancesContext_slots
    {[ "rrup" := VArray (FArray [2%nat] [Fin 1; NaN]) ]}.

(** Occurrence probabilities that do not sum to 1, and poes in [0, 1]. *)
Definition rup_rounded : rupture :=
  Rupture 0 (qc 6 1) 0 "Active Shallow Crust" (Hypocenter 0 0 (qc 10 1))
    (Surface 0 (qc 90 1) 0 (qc 10 1) false)
    NaN [qc 3 5; qc 3 5] None None ∅.

Definition poes_rounded : ndarray := NDArray [3%nat] [0; qc 1 10; 1] true.

(** A ContextMaker as the constructor builds it for two GSIMs, and two
    sites of which the second is beyond the maximum distance of 200 km. *)
Definition gsim_rjb : gsim := Gsim ["rjb"; "rx"] ["vs30"] ["mag"; "rake"] None.

Definition cmaker : ContextMaker :=
  ContextMaker_init (λ _ _, qc 200 1) "Active Shallow Crust"
    [gsim_rjb; Scenario.gsim0] None.

Definition near_and_remote : SiteCollection :=
  SiteCol [Scenario.site_near; Site 2 (qc 3 1) 0]
          [Scenario.site_near; Site 2 (qc 3 1) 0].

(** A GSIM that requires a rupture parameter the module does not know, in
    a ContextMaker built with equivalent distances, and a rupture with a
    planar surface. *)
Definition gsim_unknown : gsim := Gsim ["rjb"] ["vs30"] ["mag"; "slip"] None.

Definition param_reqv : param_t :=
  Param None (Some (λ _ _, qc 200 1)) None None None None None None
    (Some {[ "Active Shallow Crust" := λ (repi : ndarray) (mag : Qc), repi ]}).

Definition cmaker_reqv : ContextMaker :=
  ContextMaker_init (λ _ _, qc 200 1) "Active Shallow Crust"
    [gsim_unknown] (Some param_reqv).

Definition planar_rup : rupture :=
  Rupture 7 (qc 6 1) 0 "Active Shallow Crust" (Hypocenter 0 0 (qc 10 1))
    (Surface 0 (qc 90 1) 0 (qc 10 1) true)
    NaN [0; 1] None None ∅.

(** A point source with two hypocenters, all of whose sites are far from
    it, in a ContextMaker that collapses from the first site on. *)
Definition ext_far : collaborators := {|
  geo := geo Scenario.ext;
  get_closest_points := get_closest_points Scenario.ext;
  get_mean_std := get_mean_std Scenario.ext;
  get_poes := get_poes Scenario.ext;
  split := λ sites loc cdist, AllFar sites;
  py_repr := py_repr Scenario.ext;
  F32 := F32 Scenario.ext;
  np_sqrt := np_sqrt Scenario.ext
|}.

Definition point_src : source := {|
  src_id := 2;
  source_id := "point-2";
  src_group_ids := [0%Z];
  mutex_weight := 1;
  src_tectonic_region_type := "Active Shallow Crust";
  location := Some (Hypocenter 0 0 (qc 10 1));
  count_nphc := 2;
  hypocenter_distribution := [(qc 1 2, qc 5 1); (qc 1 2, qc 15 1)];
  gen_mag_ruptures := [(qc 6 1, Scenario.two_rups)];
  _get_max_rupture_projection_radius := λ _, qc 5 1
|}.

Definition cmaker_collapse : ContextMaker :=
  ContextMaker_init (λ _ _, qc 200 1) "Active Shallow Crust"
    [Scenario.gsim0]
    (Some (Param (Some 0%nat) None None None None None None None None)).

End Example.

(** * Properties *)

(** Decide a closed goal by evaluating its decision procedure. *)
Ltac evaluate :=
  lazymatch goal with
  | |- ?P => apply (bool_decide_eq_true_1 P); vm_compute; reflexivity
  end.

(** Case analysis on the computations bound in [H], first to last. *)
Ltac bind_cases H :=
  repeat match type of H with
         | context [mbind _ ?m] =>
             let E := fresh "E" in
             destruct m eqn:E; cbn [mbind result_bind raise] in H
         end.

(** Case analysis along the control flow of a computation that raised. *)
Ltac raise_cases :=
  repeat match goal with
         | H : Raise _ = Raise _ |- _ => injection H as <-
         | H : Ok _ = Raise _ |- _ => discriminate H
         | H : raise _ _ _ = Raise _ |- _ => unfold raise in H
         | H : context [mbind _ ?m] |- _ =>
             destruct m eqn:?; cbn [mbind result_bind] in H
         | H : context [match ?x with _ => _ end] |- _ => destruct x eqn:?
         end.

(** ** Loops in the error monad *)

Lemma is_Okb_true {A} (r : result A) : is_Okb r = true → is_Ok r.
Proof. destruct r as [a|e]; [by exists a | done]. Defined.

Lemma is_Ok_elim {A} (r : result A) (P : A → Prop) :
  is_Ok r → (∀ a, r = Ok a → P a) → ∃ a, r = Ok a ∧ P a.
Proof. intros [a ->] HP. exists a. split; [done|]. by apply HP. Defined.

Lemma foldlM_inv {S A} (P : S → Prop) (body : S → A → result S)
    (xs : list A) (st st' : S) :
  (∀ st x st', P st → body st x = Ok st' → P st') →
  P st → foldlM body st xs = Ok st' → P st'.
Proof.
  intros Hbody. revert st. induction xs as [|x xs IH]; intros st HP; cbn.
  - by intros [= <-].
  - destruct (body st x) as [st1|e] eqn:E; cbn; [|done]. eauto.
Qed.

Lemma foldlM_raise {S A} (P : exn → Prop) (body : S → A → result S)
    (xs : list A) (st : S) (e : exn) :
  (∀ st x e, body st x = Raise e → P e) →
  foldlM body st xs = Raise e → P e.
Proof.
  intros Hbody. revert st. induction xs as [|x xs IH]; intros st; cbn; [done|].
  destruct (body st x) as [st1|e1] eqn:E; cbn; [eauto|].
  intros [= <-]. eauto.
Qed.

Lemma foldlM_raise_in {S A} (P : exn → Prop) (body : S → A → result S)
    (xs : list A) (st : S) (e : exn) :
  (∀ st x e, x ∈ xs → body st x = Raise e → P e) →
  foldlM body st xs = Raise e → P e.
Proof.
  revert st. induction xs as [|x xs IH]; intros st Hbody; cbn; [done|].
  destruct (body st x) as [st1|e1] eqn:E; cbn.
  - apply IH. intros st' y e' Hy. apply Hbody. by apply list_elem_of_further.
  - intros [= <-]. eapply Hbody; [apply list_elem_of_here|done].
Qed.

Lemma foldlM_establishes {S A} (I Q : S → Prop) (body : S → A → result S)
    (xs : list A) (x0 : A) (st st' : S) :
  x0 ∈ xs →
  (∀ st x st', I st → body st x = Ok st' → I st') →
  (∀ st st', I st → body st x0 = Ok st' → Q st') →
  (∀ st x st', I st → Q st → body st x = Ok st' → Q st') →
  I st → foldlM body st xs = Ok st' → Q st'.
Proof.
  intros Hx0 HI Hx HQ. revert st.
  induction xs as [|x xs IH]; intros st Hst; [by apply elem_of_nil in Hx0|].
  cbn. destruct (body st x) as [st1|e] eqn:E; cbn; [|done].
  apply elem_of_cons in Hx0 as [<-|Hx0].
  - intros Hrest.
    eapply (foldlM_inv (λ s, I s ∧ Q s)); [| |exact Hrest]; [|by eauto].
    intros s y s' [??] ?. eauto.
  - apply IH; eauto.
Qed.

(** ** Arithmetic helpers *)

Lemma Qc_eqb_eq (x y : Qc) : Qc_eqb x y = true ↔ x = y.
Proof.
  unfold Qc_eqb. rewrite Qeq_bool_iff. split.
  - apply Qc_is_canon.
  - by intros ->.
Qed.

Lemma Qc_leb_le (x y : Qc) : Qc_leb x y = true ↔ x ≤ y.
Proof. unfold Qc_leb. by rewrite Qle_bool_iff. Qed.

Lemma Qc_ltb_lt (x y : Qc) : Qc_ltb x y = true ↔ x < y.
Proof.
  unfold Qc_ltb. rewrite negb_true_iff, <- not_true_iff_false, Qle_bool_iff.
  split; [apply Qcnot_le_lt | apply Qclt_not_le].
Qed.

Lemma Qc_ltb_ge (x y : Qc) : Qc_ltb x y = false ↔ y ≤ x.
Proof.
  rewrite <- not_true_iff_false, Qc_ltb_lt. split.
  - apply Qcnot_lt_le.
  - apply Qcle_not_lt.
Qed.

Lemma Qcpower_unit (y : Qc) (k : nat) : 0 ≤ y ≤ 1 → 0 ≤ y ^ k ≤ 1.
Proof.
  intros [H0 H1]. induction k as [|k [IH0 IH1]]; simpl.
  - split; [done | apply Qcle_refl].
  - split.
    + by apply Qcmult_nonneg_nonneg.
    + trans (1 * y ^ k).
      * by apply Qcmult_le_compat_r.
      * by rewrite Qcmult_1_l.
Qed.

Lemma sum_weighted_le (c : nat → Qc) (p : list Qc) :
  (∀ k, 0 ≤ c k ≤ 1) → Forall (λ q, 0 ≤ q) p →
  sum_Qc (imap (λ k q, q * c k) p) ≤ sum_Qc p.
Proof.
  intros Hc Hp. revert c Hc.
  induction Hp as [|q p Hq Hp IH]; intros c Hc; simpl.
  - apply Qcle_refl.
  - apply Qcplus_le_compat.
    + trans (q * 1).
      * rewrite !(Qcmult_comm q). apply Qcmult_le_compat_r; [apply Hc | done].
      * rewrite Qcmult_1_r. apply Qcle_refl.
    + apply (IH (c ∘ S)). intros k. apply Hc.
Qed.

Lemma sum_weighted_one (c : nat → Qc) (p : list Qc) :
  (∀ k, c k = 1) → sum_Qc (imap (λ k q, q * c k) p) = sum_Qc p.
Proof.
  intros Hc. revert c Hc.
  induction p as [|q p IH]; intros c Hc; simpl; [done|].
  rewrite Hc, Qcmult_1_r. f_equal. apply (IH (c ∘ S)). intros k. apply Hc.
Qed.

Lemma Qcpower_1_l (k : nat) : (1:Qc) ^ k = 1.
Proof. induction k as [|k IH]; simpl; [done|]. by rewrite IH, Qcmult_1_l. Qed.

(** ** The nonparametric non-exceedance formula *)

Lemma pne_sum_le_1 (p : list Qc) (x : Qc) :
  is_pmf p → in_unit x → pne_sum p x ≤ 1.
Proof.
  intros [Hp Hs] [Hx0 Hx1]. rewrite <- Hs. unfold pne_sum.
  apply (sum_weighted_le (λ k, (1 - x) ^ k)); [|done].
  intros k. apply Qcpower_unit. split.
  - apply (Qcplus_le_mono_r _ _ x). ring_simplify. done.
  - apply (Qcplus_le_mono_r _ _ x). ring_simplify.
    apply (Qcplus_le_mono_r _ _ (-(1))). ring_simplify. done.
Qed.

Lemma pne_sum_at_0 (p : list Qc) : pne_sum p 0 = sum_Qc p.
Proof.
  unfold pne_sum. apply (sum_weighted_one (λ k, (1 - 0) ^ k)).
  intros k. replace (1 - 0) with (1:Qc) by ring. apply Qcpower_1_l.
Qed.

(** For probabilities and poes in [0, 1] the two patches never change the
    value of the sum: they only guard against rounding. *)
Lemma pne_elem_pmf (p : list Qc) (x : Qc) :
  is_pmf p → in_unit x → pne_elem p x = pne_sum p x.
Proof.
  intros Hp Hx. unfold pne_elem.
  destruct (Qc_eqb x 0) eqn:E0.
  - apply Qc_eqb_eq in E0 as ->. rewrite pne_sum_at_0. by destruct Hp as [_ ->].
  - destruct (Qc_ltb 1 (pne_sum p x)) eqn:E1; [|done].
    apply Qc_ltb_lt in E1. apply Qclt_not_le in E1.
    destruct E1. by apply pne_sum_le_1.
Qed.

Lemma np_sum_axis0_acc (g : nat → Qc → Qc → Qc) (a : Qc → Qc)
    (p poes : list Qc) :
  foldl np_add (a <$> poes) (imap (λ i v, g i v <$> poes) p)
  = (λ x, a x + sum_Qc (imap (λ i v, g i v x) p)) <$> poes.
Proof.
  revert g a. induction p as [|v p IH]; intros g a; simpl.
  - apply list_fmap_ext. intros _ x _. by rewrite Qcplus_0_r.
  - replace (np_add (a <$> poes) (g 0%nat v <$> poes))
      with ((λ x, a x + g 0%nat v x) <$> poes).
    + etrans; [exact (IH (g ∘ S) (λ x, a x + g 0%nat v x))|].
      apply list_fmap_ext. intros _ x _. simpl. by rewrite Qcplus_assoc.
    + unfold np_add. by rewrite zip_with_fmap_l, zip_with_fmap_r, zip_with_diag.
Qed.

(** Summing the K rows along axis 0 gives the polynomial in every cell. *)
Lemma np_sum_axis0_terms (p poes : list Qc) :
  np_sum_axis0 (length poes) (pne_terms p poes) = pne_sum p <$> poes.
Proof.
  unfold np_sum_axis0, pne_terms.
  replace (replicate (length poes) (0:Qc)) with ((λ _, 0:Qc) <$> poes).
  - etrans; [exact (np_sum_axis0_acc (λ i v x, v * (1 - x) ^ i) (λ _, 0) _ _)|].
    apply list_fmap_ext. intros _ x _. by rewrite Qcplus_0_l.
  - induction poes as [|x poes IH]; [done|]. cbn. f_equal. exact IH.
Qed.

Lemma patches_elem (p poes : list Qc) :
  force_one_where_zero poes (clamp_above_one (pne_sum p <$> poes))
  = pne_elem p <$> poes.
Proof.
  unfold force_one_where_zero, clamp_above_one, pne_elem.
  rewrite <- list_fmap_compose, zip_with_fmap_r, zip_with_diag.
  done.
Qed.

Lemma concat_pne_terms_single (p : list Qc) (x : Qc) :
  concat (pne_terms p [x]) = imap (λ k q, q * (1 - x) ^ k) p.
Proof.
  unfold pne_terms.
  change (concat (imap (λ i v, (λ k q y, q * (1 - y) ^ k) i v <$> [x]) p)
          = imap (λ k q, (λ k q y, q * (1 - y) ^ k) k q x) p).
  generalize (λ (k : nat) (q y : Qc), q * (1 - y) ^ k).
  induction p as [|v p IH]; intros g; [done|].
  cbn. f_equal. exact (IH (g ∘ S)).
Qed.

Lemma reshape_row_nonempty (a : ndarray) :
  data a ≠ [] →
  reshape_row a = Ok (NDArray [1%nat; length (data a)] (data a) (writeable a)).
Proof. unfold reshape_row. by destruct (data a). Qed.

Lemma pne_terms_nonempty (p d : list Qc) : p ≠ [] → pne_terms p d ≠ [].
Proof. unfold pne_terms. by destruct p. Qed.

(** On an array of at least one dimension the code computes the sum, clamps
    it and patches the cells where [poes == 0], whatever the numbers are. *)
Lemma get_probability_no_exceedance_array (self : rupture) (poes : ndarray) :
  occurrence_rate self = NaN →
  probs_occur self ≠ [] →
  data poes ≠ [] →
  shape poes ≠ [] →
  get_probability_no_exceedance self poes
  = Ok (NpArray (NDArray
          (if decide (length (shape poes) = 1%nat)
           then [1%nat; length (data poes)] else shape poes)
          (pne_elem (probs_occur self) <$> data poes) true)).
Proof.
  intros Hnan Hp Hd Hs. unfold get_probability_no_exceedance.
  rewrite Hnan. cbn [isnan].
  pose proof (pne_terms_nonempty _ (data poes) Hp) as Hrows.
  destruct (decide (length (shape poes) = 1%nat)) as [H1|H1].
  - rewrite reshape_row_nonempty by done. cbn [mbind result_bind data shape].
    destruct (pne_terms (probs_occur self) (data poes)) as [|r rs] eqn:Er; [done|].
    rewrite <- Er, np_sum_axis0_terms, patches_elem. done.
  - cbn [mbind result_bind].
    destruct (pne_terms (probs_occur self) (data poes)) as [|r rs] eqn:Er; [done|].
    destruct (shape poes) as [|n sh] eqn:Esh; [done|].
    rewrite <- Er, np_sum_axis0_terms, patches_elem. done.
Qed.

(** C1.  For a nonparametric rupture (occurrence_rate is NaN) with
    occurrence probabilities p_0..p_{K-1}, [get_probability_no_exceedance]
    returns for an array of poes, cell by cell and whatever the numbers are,
    the sum over k of p_k (1 - poes)^k, put back to 1 when it exceeds 1 and
    forced to 1 where poes is 0; a 1-D input comes back as one row of a 2-D
    array, any other shape is kept.  A 0-d input gives the sum as a number,
    without the two corrections.  For probabilities that sum to 1 and poes
    in [0, 1] the corrections change nothing and every value is the sum. *)
Theorem get_probability_no_exceedance_nonparametric
    (self : rupture) (poes : ndarray) :
  occurrence_rate self = NaN →
  probs_occur self ≠ [] →
  data poes ≠ [] →
  ∃ pne, get_probability_no_exceedance self poes = Ok pne
       ∧ np_shape pne = (if decide (length (shape poes) = 1%nat)
                         then [1%nat; length (data poes)] else shape poes)
       ∧ (shape poes ≠ [] →
          np_data pne = pne_elem (probs_occur self) <$> data poes
          ∧ ∀ i x, data poes !! i = Some x →
              np_data pne !! i
              = Some (if decide (x = 0) then 1
                      else if decide (1 < pne_sum (probs_occur self) x) then 1
                      else pne_sum (probs_occur self) x))
       ∧ (shape poes = [] → well_shaped poes →
          np_data pne = pne_sum (probs_occur self) <$> data poes)
       ∧ (is_pmf (probs_occur self) → Forall in_unit (data poes) →
          well_shaped poes →
          np_data pne = pne_elem (probs_occur self) <$> data poes
          ∧ np_data pne = pne_sum (probs_occur self) <$> data poes).
Proof.
  intros Hnan Hp Hd.
  assert (Hsame : is_pmf (probs_occur self) → Forall in_unit (data poes) →
            pne_elem (probs_occur self) <$> data poes
            = pne_sum (probs_occur self) <$> data poes).
  { intros Hpmf Hunit. apply list_fmap_ext. intros i x Hx.
    apply pne_elem_pmf; [done|].
    eapply Forall_forall in Hunit; [exact Hunit|].
    by eapply list_elem_of_lookup_2. }
  destruct (shape poes) as [|n sh] eqn:Esh.
  - (* a 0-d array: the sum is a numpy scalar and is returned unpatched *)
    assert (Hscalar : well_shaped poes → ∃ x, data poes = [x]
              ∧ get_probability_no_exceedance self poes
                = Ok (NpScalar (pne_sum (probs_occur self) x))).
    { intros Hws. unfold well_shaped in Hws. rewrite Esh in Hws.
      simpl in Hws. destruct (data poes) as [|x [|??]] eqn:Ed; try done.
      exists x. split; [done|].
      unfold get_probability_no_exceedance. rewrite Hnan, Esh.
      cbn [isnan length]. rewrite decide_False by done.
      cbn [mbind result_bind]. rewrite Esh, Ed.
      pose proof (pne_terms_nonempty _ [x] Hp) as Hrows.
      destruct (pne_terms (probs_occur self) [x]) as [|r rs] eqn:Er; [done|].
      rewrite <- Er, concat_pne_terms_single. done. }
    assert (Hret : ∃ s, get_probability_no_exceedance self poes
                        = Ok (NpScalar s)).
    { unfold get_probability_no_exceedance. rewrite Hnan, Esh.
      cbn [isnan length]. rewrite decide_False by done.
      cbn [mbind result_bind]. rewrite Esh.
      pose proof (pne_terms_nonempty _ (data poes) Hp) as Hrows.
      destruct (pne_terms (probs_occur self) (data poes)); [done|].
      by eexists. }
    destruct Hret as [s Hret]. exists (NpScalar s).
    split_and!; [exact Hret|done|done| |].
    + intros _ Hws. destruct (Hscalar Hws) as (x & Hx & Hx').
      rewrite Hret in Hx'. injection Hx' as ->. by rewrite Hx.
    + intros Hpmf Hunit Hws. destruct (Hscalar Hws) as (x & Hx & Hx').
      rewrite Hret in Hx'. injection Hx' as ->.
      rewrite (Hsame Hpmf Hunit), Hx. done.
  - eexists. split_and!.
    + rewrite get_probability_no_exceedance_array; [done..|by rewrite Esh].
    + cbn. by rewrite Esh.
    + intros _. split; [done|]. intros i x Hx. cbn [np_data data].
      rewrite list_lookup_fmap, Hx. cbn. f_equal. unfold pne_elem.
      destruct (Qc_eqb x 0) eqn:E0.
      * apply Qc_eqb_eq in E0. by rewrite decide_True.
      * rewrite decide_False by (intros H%Qc_eqb_eq; congruence).
        destruct (Qc_ltb 1 _) eqn:E1.
        -- apply Qc_ltb_lt in E1. by rewrite decide_True.
        -- apply Qc_ltb_ge in E1. rewrite decide_False; [done|].
           by apply Qcle_not_lt.
    + done.
    + intros Hpmf Hunit _. split; [done|]. cbn [np_data data].
      by apply Hsame.
Qed.

(** probs_occur = [0.5, 0.3, 0.2] and poes = 0.1 give pne = 0.932.  With
    the rounded probabilities [0.6, 0.6] and poes = [0, 0.1, 1] the sums are
    1.2, 1.14 and 0.6: the first is forced to 1, the second put back to 1. *)
Lemma get_probability_no_exceedance_nonparametric_witness :
  (∃ pne, get_probability_no_exceedance Scenario.rup_np Scenario.poes_np
          = Ok pne
        ∧ np_data pne = [qc 932 1000]
        ∧ np_shape pne = [1%nat; 1%nat])
  ∧ (∃ pne, get_probability_no_exceedance Example.rup_rounded
              Example.poes_rounded = Ok pne
          ∧ pne_sum [qc 3 5; qc 3 5] <$> data Example.poes_rounded
            = [qc 6 5; qc 114 100; qc 3 5]
          ∧ np_data pne = [1; 1; qc 3 5]).
Proof.
  split.
  - destruct (get_probability_no_exceedance_nonparametric Scenario.rup_np
                Scenario.poes_np)
      as (pne & Hret & Hshape & Harr & _); [reflexivity|done|done|].
    destruct Harr as [Hdata _]; [done|].
    exists pne. split_and!; [exact Hret| |exact Hshape].
    rewrite Hdata. evaluate.
  - destruct (get_probability_no_exceedance_nonparametric Example.rup_rounded
                Example.poes_rounded)
      as (pne & Hret & _ & Harr & _); [reflexivity|done|done|].
    destruct Harr as [Hdata _]; [done|].
    exists pne. split_and!; [exact Hret|evaluate|].
    rewrite Hdata. evaluate.
Defined.


(** ** get_pmap *)

(** [_make_pnes] never returns: when the GSIM bank and the masking succeed,
    its last line raises NameError. *)
Lemma _make_pnes_raises ext self data mean_std :
  ∃ e, _make_pnes ext self data mean_std = Raise e.
Proof.
  unfold _make_pnes.
  destruct (get_poes ext _ _ _ _) as [poes|e]; cbn; [|by eexists].
  destruct (zero_weight_masking self poes) as [poes'|e]; cbn; by eexists.
Qed.

(** Whenever [get_pmap] returns, no rupture has passed the filter and its
    map is the empty one it started from: no array, no RupData row, no
    rupture and no site counted. *)
Lemma get_pmap_body_stores_nothing ext self src rup_indep fewsites st item st' :
  get_pmap_body ext self src rup_indep fewsites st item = Ok st' →
  pl_poemap st' = pl_poemap st ∧ pl_rupdata st' = pl_rupdata st
  ∧ pl_nrups st' = pl_nrups st ∧ pl_nsites st' = pl_nsites st.
Proof.
  unfold get_pmap_body. destruct item as [[rups sites] magdist].
  destruct rups as [rups|rup]; cbn [mbind result_bind raise]; [|done].
  destruct (contexts_loop _ _ _ _ _ _) as [cl|e];
    cbn [mbind result_bind]; [|done].
  destruct (cl_sids cl) as [|s0 ss]; [by intros [= <-]|].
  destruct (get_mean_std ext _ _ _) as [mean_std|e];
    cbn [mbind result_bind]; [|done].
  destruct (_make_pnes_raises ext self (cl_data cl) mean_std) as [e ->].
  done.
Qed.

Lemma get_pmap_stores_nothing ext self src s_sites rup_indep pm :
  get_pmap ext self src s_sites rup_indep = Ok pm →
  curves pm = ∅ ∧ rupdata pm = ∅ ∧ nrups pm = 0%nat ∧ nsites pm = 0%nat.
Proof.
  unfold get_pmap.
  destruct (foldlM _ _ (_gen_rups_sites ext self src s_sites)) as [st|e] eqn:E;
    cbn [mbind result_bind]; [|done].
  intros [= <-]. cbn [curves rupdata nrups nsites].
  pose (I := λ st : pmap_loop,
          curves (pl_poemap st) = ∅ ∧ pl_rupdata st = ∅
          ∧ pl_nrups st = 0%nat ∧ pl_nsites st = 0%nat).
  enough (H : I st) by exact H.
  eapply (foldlM_inv I); [| |exact E]; [|done].
  clear. intros st [item|e] st' (H1 & H2 & H3 & H4);
    cbn [mbind result_bind]; [|done].
  intros Hstep.
  apply get_pmap_body_stores_nothing in Hstep as (E1 & E2 & E3 & E4).
  unfold I. by rewrite E1, E2, E3, E4.
Qed.

(** The two updates, on their own.  Given rows [sid, pne] the independent
    branch keeps a running product per site id: 0.9 and 0.8 leave 0.72. *)
Example compose_pnes_product :
  curves <$>
    match compose_pnes true (Scenario.rup_of 1 (Some (qc 7 10)))
            (NpArray (NDArray [2; 2]%nat [0; qc 9 10; 0; qc 8 10] true))
            (new_ProbabilityMap 1 1) with
    | Ok pm => Some pm
    | Raise _ => None
    end
  = Some {[ 0 := [qc 72 100] ]}.
Proof. evaluate. Qed.

(** The mutex branch weighs every row with the weight of the one rupture
    it is given, the last one of the batch: with weights 0.3 and 0.7 and
    exceedance probabilities 0.2 and 0.4 it would store
    0.7 * 0.2 + 0.7 * 0.4 = 0.42, not 0.3 * 0.2 + 0.7 * 0.4 = 0.34. *)
Example compose_pnes_one_weight :
  curves <$>
    match compose_pnes false (Scenario.rup_of 1 (Some (qc 7 10)))
            (NpArray (NDArray [2; 2]%nat [0; qc 8 10; 0; qc 6 10] true))
            (new_ProbabilityMap 1 1) with
    | Ok pm => Some pm
    | Raise _ => None
    end
  = Some {[ 0 := [qc 42 100] ]}.
Proof. evaluate. Qed.

(** C2.  Two independent ruptures, both within reach of the one site:
    [get_pmap] with rup_indep=True stores no product of non-exceedance
    arrays; it fails with the NameError of [_make_pnes]. *)
Theorem get_pmap_independent_raises_NameError :
  get_pmap Scenario.ext Scenario.cmaker (Scenario.src_of Scenario.two_rups)
    Scenario.one_site true
  = Raise Scenario.name_error.
Proof. vm_compute. reflexivity. Qed.

(** C3.  Two mutually exclusive ruptures with weights 0.3 and 0.7, both
    within reach of the one site: [get_pmap] with rup_indep=False stores no
    weighted sum of exceedance probabilities; it fails with the NameError of
    [_make_pnes]. *)
Theorem get_pmap_mutex_raises_NameError :
  weight <$> Scenario.two_rups = [Some (qc 3 10); Some (qc 7 10)]
  ∧ get_pmap Scenario.ext Scenario.cmaker (Scenario.src_of Scenario.two_rups)
      Scenario.one_site false
    = Raise Scenario.name_error.
Proof. split; vm_compute; reflexivity. Qed.

(** ** Zero-weight masking *)

Lemma zero_slice_shape poes lo hi g poes' :
  zero_slice poes lo hi g = Ok poes' → shape poes' = shape poes.
Proof. unfold zero_slice. repeat case_match; try done. by intros [= <-]. Qed.

Lemma zero_slice_keeps_zeros P poes lo hi g poes' :
  zero_slice poes lo hi g = Ok poes' → zeros_at P poes → zeros_at P poes'.
Proof.
  unfold zero_slice. repeat case_match; try done. intros [= <-] Hz idx x.
  cbn [data]. rewrite list_lookup_imap.
  destruct (data poes !! idx) as [y|] eqn:Ey; [|done]. cbn.
  case_match; intros [= <-]; [done|]. by apply (Hz idx).
Qed.

Lemma zero_slice_sets N L G poes lo hi g poes' :
  zero_slice poes lo hi g = Ok poes' → shape poes = [N; L; G] →
  zeros_at (λ idx, idx mod G = g ∧ lo ≤ (idx / G) mod L < hi)%nat poes'.
Proof.
  unfold zero_slice. intros H Hs. rewrite Hs in H.
  destruct (negb (writeable poes)); [done|].
  destruct (g <? G)%nat; [|done].
  injection H as <-. intros idx x.
  cbn [data]. rewrite list_lookup_imap.
  destruct (data poes !! idx) as [y|] eqn:Ey; [|done].
  cbn [fmap option_fmap option_map].
  intros Hx (Hg & Hlo & Hhi).
  rewrite (proj2 (Nat.eqb_eq _ _) Hg), (proj2 (Nat.leb_le _ _) Hlo),
    (proj2 (Nat.ltb_lt _ _) Hhi) in Hx.
  by injection Hx as <-.
Qed.

(** The PoEs of a GSIM whose weight for an IMT is zero are zero, at all the
    levels of that IMT and for all sites, once the masking is done. *)
Lemma zero_weight_masking_zeroes self poes poes' N L G g gs w imt lo hi :
  zero_weight_masking self poes = Ok poes' →
  shape poes = [N; L; G] →
  gsims self !! g = Some gs → gsim_weight gs = Some w → w imt = 0 →
  (imt, lo, hi) ∈ imt_slices 0 (imtls self) →
  shape poes' = [N; L; G]
  ∧ zeros_at (λ idx, idx mod G = g ∧ lo ≤ (idx / G) mod L < hi)%nat poes'.
Proof.
  intros Hmask Hshape Hg Hw Hw0 Hslice.
  set (P := (λ idx, idx mod G = g ∧ lo ≤ (idx / G) mod L < hi)%nat).
  set (I := λ a : ndarray, shape a = [N; L; G]).
  set (step := λ (g : nat) (gs : gsim) (poes : ndarray)
                 '(imt, lo, hi),
         match gsim_weight gs with
         | Some weight =>
             if Qc_eqb (weight imt) 0 then zero_slice poes lo hi g else Ok poes
         | None => Ok poes
         end).
  assert (HstepI : ∀ g gs a x a', I a → step g gs a x = Ok a' → I a').
  { intros g1 gs1 a [[imt1 lo1] hi1] a' Ha. unfold step.
    repeat case_match; try (by intros [= <-]).
    intros Hz%zero_slice_shape. unfold I. by rewrite Hz. }
  assert (HstepQ : ∀ g gs a x a', zeros_at P a → step g gs a x = Ok a' →
                                  zeros_at P a').
  { intros g1 gs1 a [[imt1 lo1] hi1] a' Ha. unfold step.
    repeat case_match; try (by intros [= <-]).
    intros Hz. by eapply zero_slice_keeps_zeros. }
  assert (HinnerI : ∀ g gs a a',
            I a → foldlM (step g gs) a (imt_slices 0 (imtls self)) = Ok a' →
            I a').
  { intros g1 gs1 a a' Ha. apply (foldlM_inv I (step g1 gs1)); [|done].
    by apply HstepI. }
  split.
  - revert Hmask. unfold zero_weight_masking.
    apply (foldlM_inv I); [|done].
    intros a [g1 gs1] a' Ha. by apply (HinnerI g1 gs1).
  - revert Hmask. unfold zero_weight_masking.
    apply (foldlM_establishes I (zeros_at P) _ _ (g, gs)); [| | | |done].
    + apply elem_of_lookup_imap. by exists g, gs.
    + intros a [g1 gs1] a' Ha. by apply (HinnerI g1 gs1).
    + intros a a' Ha.
      apply (foldlM_establishes I (zeros_at P) (step g gs) _ (imt, lo, hi));
        try done.
      * by apply HstepI.
      * intros a1 a1' Ha1. unfold step. rewrite Hw, Hw0.
        change (Qc_eqb 0 0) with true. cbv iota.
        intros Hz. by eapply zero_slice_sets.
      * intros a1 x a1' _. by apply HstepQ.
    + intros a [g1 gs1] a' _ Hz.
      apply (foldlM_inv (zeros_at P) (step g1 gs1)); [|done].
      intros a1 x a1'. by apply HstepQ.
Qed.

(** C6.  For a GSIM g whose weight for an IMT is zero, the masking of
    [_make_pnes] returns the poes with the slice [poes[:, ll(imt), g]] at 0
    and the shape kept.  The probability of no exceedance of a nonparametric
    rupture is 1 on that slice, and a value of 1 leaves a column as it is in
    both regimes: a times 1 is a, and a plus (1 - 1) times the weight is a.
    In every probability map [get_pmap] returns, the array of every site
    reads as the regime identity in every column, that of (imt, g) among
    them: 1 in the independent regime, 0 in the mutex regime. *)
Theorem zero_weight_column_stays_at_identity ext (self : ContextMaker)
    (poes poes' : ndarray) (N L G g : nat) (gs : gsim) (w : string → Qc)
    (imt : string) (lo hi : nat) :
  zero_weight_masking self poes = Ok poes' →
  shape poes = [N; L; G] →
  gsims self !! g = Some gs → gsim_weight gs = Some w → w imt = 0 →
  (imt, lo, hi) ∈ imt_slices 0 (imtls self) →
  let slice := (λ idx, idx mod G = g ∧ lo ≤ (idx / G) mod L < hi)%nat in
  shape poes' = [N; L; G]
  ∧ zeros_at slice poes'
  ∧ (∀ rup : rupture,
       occurrence_rate rup = NaN → probs_occur rup ≠ [] → data poes' ≠ [] →
       ∃ pne, get_probability_no_exceedance rup poes' = Ok (NpArray pne)
         ∧ shape pne = [N; L; G]
         ∧ length (data pne) = length (data poes')
         ∧ ∀ idx p, slice idx → data pne !! idx = Some p →
             p = 1 ∧ ∀ a weight : Qc, a * p = a ∧ a + (1 - p) * weight = a)
  ∧ (∀ src s_sites (rup_indep : bool) pm (sid : Qc),
       get_pmap ext self src s_sites rup_indep = Ok pm →
       let identity : Qc := if rup_indep then 1 else 0 in
       setdefault_array pm sid identity
       = replicate (num_levels (imtls self) * length (gsims self)) identity).
Proof.
  intros Hmask Hshape Hg Hw Hw0 Hslice slice.
  destruct (zero_weight_masking_zeroes _ _ _ _ _ _ _ _ _ _ _ _
              Hmask Hshape Hg Hw Hw0 Hslice) as [Hshape' Hzeros].
  split_and!; [exact Hshape'|exact Hzeros| |].
  - intros rup Hnan Hp Hd.
    rewrite (get_probability_no_exceedance_array rup poes' Hnan Hp Hd)
      by by rewrite Hshape'.
    eexists. split; [reflexivity|]. cbn [shape data].
    rewrite Hshape'. split_and!; [done|by rewrite length_fmap|].
    intros idx p Hidx Hp'. rewrite list_lookup_fmap in Hp'.
    destruct (data poes' !! idx) as [x|] eqn:Ex; [|done].
    injection Hp' as <-. rewrite (Hzeros idx x Ex Hidx).
    change (pne_elem (probs_occur rup) 0) with (1:Qc).
    split; [done|]. intros a weight. split; ring.
  - intros src s_sites rup_indep pm sid Hpm identity.
    assert (Hsh : shape_y pm = num_levels (imtls self)
                  ∧ shape_z pm = length (gsims self)).
    { unfold get_pmap in Hpm.
      destruct (foldlM _ _ _) as [st|e]; cbn [mbind result_bind] in Hpm;
        [|done].
      by injection Hpm as <-. }
    destruct Hsh as [Hy Hz].
    destruct (get_pmap_stores_nothing _ _ _ _ _ _ Hpm) as (Hc & _).
    unfold setdefault_array. by rewrite Hc, lookup_empty, Hy, Hz.
Qed.

(** The GSIM has no weight for PGA, whose two levels are the first two of
    three: of the poes 0.1, 0.1, 0.1 of one site the masking leaves 0, 0,
    0.1, and the probabilities of no exceedance of the rupture that occurs
    once are 1, 1, 0.9. *)
Lemma zero_weight_column_stays_at_identity_witness :
  ∃ poes',
    zero_weight_masking (Scenario.cmaker_of [Scenario.gsim_w0])
      (NDArray [1; 3; 1]%nat [qc 1 10; qc 1 10; qc 1 10] true) = Ok poes'
    ∧ data poes' = [0; 0; qc 1 10]
    ∧ ∃ pne, get_probability_no_exceedance (Scenario.rup_of 0 (Some 1)) poes'
             = Ok (NpArray pne)
        ∧ ∀ p, data pne !! 1%nat = Some p → p = 1.
Proof.
  apply is_Ok_elim; [apply is_Okb_true; vm_compute; reflexivity|].
  intros poes' H.
  destruct (zero_weight_column_stays_at_identity Scenario.ext
              (Scenario.cmaker_of [Scenario.gsim_w0])
              (NDArray [1; 3; 1]%nat [qc 1 10; qc 1 10; qc 1 10] true) poes'
              1 3 1 0 Scenario.gsim_w0
              (λ imt, if decide (imt = "PGA") then 0 else 1) "PGA" 0 2 H)
    as (_ & _ & Hpne & _); [reflexivity..|apply list_elem_of_here|].
  assert (Hdata : data poes' = [0; 0; qc 1 10]).
  { vm_compute in H. by injection H as <-. }
  split; [exact Hdata|].
  destruct (Hpne (Scenario.rup_of 0 (Some 1))) as (pne & Hret & _ & _ & Hone);
    [reflexivity|done|by rewrite Hdata|].
  exists pne. split; [exact Hret|]. intros p Hp.
  apply (Hone 1%nat p); [|exact Hp]. cbn. lia.
Defined.

(** C9.  One site in the complete collection (fewsites holds) and two
    ruptures that both pass the filter: [get_pmap] returns no RupData at
    all, it fails with the NameError of [_make_pnes] before the line that
    stores a snapshot. *)
Theorem get_pmap_fewsites_raises_NameError :
  let src := Scenario.src_of Scenario.two_rups in
  (length (complete Scenario.one_site)
   <=? max_sites_disagg Scenario.cmaker)%nat = true
  ∧ Forall (λ rup, is_Ok (make_contexts Scenario.ext Scenario.cmaker
                            Scenario.one_site rup None)) Scenario.two_rups
  ∧ get_pmap Scenario.ext Scenario.cmaker src Scenario.one_site true
    = Raise Scenario.name_error.
Proof.
  split_and!; [reflexivity | | vm_compute; reflexivity].
  repeat constructor; apply is_Okb_true; vm_compute; reflexivity.
Qed.

(** ** get_distances *)

Lemma get_distances_unknown ext rup mesh param :
  param ∉ KNOWN_DISTANCES →
  get_distances ext rup mesh param
  = Raise (Exn ValueError ("Unknown distance measure " +:+ py_repr ext param)
             ["get_distances"]).
Proof.
  intros Hp. unfold get_distances.
  repeat (case_decide;
          [subst; exfalso; apply Hp; unfold KNOWN_DISTANCES;
           repeat first [apply list_elem_of_here | apply list_elem_of_further]
          |]).
  reflexivity.
Qed.

Lemma get_distances_known ext rup mesh param :
  param ∈ KNOWN_DISTANCES →
  ∃ values, length values = length mesh
    ∧ get_distances ext rup mesh param
      = Ok (NDArray [length mesh] values false).
Proof.
  intros Hp. unfold get_distances.
  repeat (case_decide;
          [eexists; split; [|reflexivity]; cbn;
           rewrite ?length_fmap, ?length_replicate; reflexivity|]).
  exfalso. unfold KNOWN_DISTANCES in Hp.
  rewrite !elem_of_cons, elem_of_nil in Hp. tauto.
Qed.

(** C8.  [get_distances] fails, with the ValueError "Unknown distance
    measure ...", exactly for the metrics outside the catalogue
    KNOWN_DISTANCES = {rrup, rx, ry0, rjb, rhypo, repi, rcdpp, azimuth,
    azimuth_cp, rvolc}; for rvolc it returns zeros, one per point of the
    mesh; every array it returns holds one number per point of the mesh and
    is read-only. *)
Theorem get_distances_catalogue ext rup mesh param :
  match get_distances ext rup mesh param with
  | Ok dist =>
      ((param ∈ KNOWN_DISTANCES)
       ∧ writeable dist = false
       ∧ shape dist = [length mesh]
       ∧ length (data dist) = length mesh)
  | Raise err =>
      ((param ∉ KNOWN_DISTANCES)
       ∧ err = Exn ValueError
                 ("Unknown distance measure " +:+ py_repr ext param)
                 ["get_distances"])
  end
  ∧ get_distances ext rup mesh "rvolc"
    = Ok (NDArray [length mesh] (replicate (length mesh) 0) false).
Proof.
  split; [|reflexivity].
  destruct (decide (param ∈ KNOWN_DISTANCES)) as [Hin|Hout].
  - destruct (get_distances_known ext rup mesh param Hin) as (v & Hlen & ->).
    done.
  - rewrite get_distances_unknown by done. done.
Qed.

(** ** filter *)

Lemma get_distances_length ext rup mesh param dist :
  get_distances ext rup mesh param = Ok dist →
  length (data dist) = length mesh.
Proof.
  destruct (decide (param ∈ KNOWN_DISTANCES)) as [Hin|Hout].
  - destruct (get_distances_known ext rup mesh param Hin) as (v & Hlen & ->).
    by intros [= <-].
  - by rewrite get_distances_unknown.
Qed.

Lemma mask_select_close {A} (m : Qc) (xs : list A) (ds : list Qc) :
  length ds = length xs →
  let close := List.filter (λ p : A * Qc, Qc_leb p.2 m) (zip xs ds) in
  mask_select ((λ d, Qc_leb d m) <$> ds) xs = close.*1
  ∧ mask_select ((λ d, Qc_leb d m) <$> ds) ds = close.*2
  ∧ (existsb id ((λ d, Qc_leb d m) <$> ds) = true ↔ close ≠ []).
Proof.
  revert xs. induction ds as [|d ds IH]; intros [|x xs] Hlen; try done.
  injection Hlen as Hlen. destruct (IH xs Hlen) as (IH1 & IH2 & IH3).
  cbn [zip zip_with fmap list_fmap mask_select existsb List.filter snd id].
  destruct (Qc_leb d m) eqn:E; cbn [fmap list_fmap fst snd orb].
  - split_and!; [by f_equal..|done].
  - done.
Qed.

(** What [filter] does with the maximum distance [m] it settles on: it
    returns the sites whose distance is at most [m] ([close], the sites
    paired with their distances), in their order, with
    their distances under the name of [filter_distance]; it raises
    FarAwayRupture when there are sites and none is that close. *)
Lemma filter_spec ext self sites rup mdist dist :
  get_distances ext rup (sites_of sites) (filter_distance self) = Ok dist →
  let m := py_or mdist
             (maximum_distance self (tectonic_region_type rup) (mag rup)) in
  let close := List.filter (λ p : site * Qc, Qc_leb p.2 m)
                 (zip (sites_of sites) (data dist)) in
  match filter ext self sites rup mdist with
  | Ok (sites', dctx) =>
      close ≠ []
      ∧ sites' = SiteCol (close.*1) (complete sites)
      ∧ dctx = {[ filter_distance self
                  := NDArray [length (close.*2)] (close.*2) true ]}
  | Raise e =>
      close = [] ∧ (sites_of sites ≠ [] → kind e = FarAwayRupture)
  end.
Proof.
  intros Hd m close. unfold filter. rewrite Hd. cbn [mbind result_bind].
  fold m.
  destruct (mask_select_close m (sites_of sites) (data dist))
    as (H1 & H2 & H3); [by eapply get_distances_length|].
  fold close in H1, H2, H3.
  destruct (existsb id _) eqn:E.
  - unfold sitecol_filter. rewrite H1, H2. split; [by apply H3|done].
  - assert (close = []) as Hclose.
    { destruct close as [|c cl]; [done|].
      assert (false = true) by (by apply H3). done. }
    pose proof (get_distances_length _ _ _ _ _ Hd) as Hlen.
    destruct (data dist) as [|d ds].
    + cbn. split; [done|]. intros Hne. by destruct (sites_of sites).
    + cbn. done.
Qed.

Lemma py_or_spec (mdist : option Qc) (default : Qc) :
  py_or mdist default
  = match mdist with
    | Some m => if decide (m = 0) then default else m
    | None => default
    end.
Proof.
  destruct mdist as [m|]; [|done]. cbn.
  destruct (Qc_eqb m 0) eqn:E.
  - apply Qc_eqb_eq in E. by rewrite decide_True.
  - rewrite decide_False; [done|]. intros H%Qc_eqb_eq. congruence.
Qed.

(** C5.  A maximum distance of 0 is supplied and the only site is 100 km
    away, so no site satisfies d <= mdist; [filter] does not raise
    FarAwayRupture: [mdist or ...] takes a zero for a missing argument, the
    site is compared with maximum_distance (200 km) and returned. *)
Theorem filter_zero_mdist_not_used :
  let rup := Scenario.rup_of 7 None in
  get_distances Scenario.ext rup (sites_of Scenario.far_site) "rrup"
  = Ok (NDArray [1%nat] [qc 100 1] false)
  ∧ maximum_distance Scenario.cmaker (tectonic_region_type rup) (mag rup)
    = qc 200 1
  ∧ filter Scenario.ext Scenario.cmaker Scenario.far_site rup (Some 0)
    = Ok (Scenario.far_site, {[ "rrup" := NDArray [1%nat] [qc 100 1] true ]}).
Proof. split_and!; vm_compute; reflexivity. Qed.

(** ** _collapse *)

Lemma sum_equal_rates (r : float) (n : nat) :
  foldr (λ f acc, fadd f acc) (Fin 0) (replicate (S n) r)
  = fmul r (Qc_of_Z (Z.of_nat (S n))).
Proof.
  destruct r as [|x]; [done|].
  induction n as [|n IH].
  - cbn [replicate foldr fadd fmul]. f_equal.
    change (Z.of_nat 1) with 1%Z. rewrite Z2Qc_inj_1. ring.
  - change (replicate (S (S n)) (Fin x)) with (Fin x :: replicate (S n) (Fin x)).
    cbn [foldr]. rewrite IH. cbn [fadd fmul]. f_equal.
    rewrite (Nat2Z.inj_succ (S n)), <- Z.add_1_r, Z2Qc_inj_add, Z2Qc_inj_1.
    ring.
Qed.

Lemma sum_rates_equal_rates (h : Heap.heap) (items : list Heap.pyval)
    (r : float) :
  Forall (λ v, Heap.rate_of h v = Some r) items →
  Heap.sum_rates h items
  = foldr (λ f acc, fadd f acc) (Fin 0) (replicate (length items) r).
Proof.
  induction 1 as [|v items Hv _ IH]; [done|].
  cbn. rewrite Hv. cbn. by rewrite <- IH.
Qed.

(** C4 (as the code has it).  For a non-empty list of ruptures whose first
    element has a float occurrence rate r, [_collapse] returns a new object:
    a shallow copy of the first rupture, with the same class and the same
    attribute values, except that its occurrence_rate is r times the length
    of the list.  Every object that existed before, the list and the
    ruptures among them, is unchanged.  The new rate is the sum of the
    contributing rates when these are all equal. *)
Theorem collapse_copies_first_and_scales_rate
    (h : Heap.heap) (rups first : nat) (rest : list Heap.pyval)
    (cls : string) (attrs : gmap string Heap.pyval) (r : float) :
  h !! rups = Some (Heap.PyList (Heap.VRef first :: rest)) →
  h !! first = Some (Heap.PyInst cls attrs) →
  attrs !! "occurrence_rate" = Some (Heap.VFloat r) →
  let items := Heap.VRef first :: rest in
  let rate := fmul r (Qc_of_Z (Z.of_nat (length items))) in
  ∃ h' l,
    Heap._collapse h rups = Ok (h', Heap.VRef l)
    ∧ h !! l = None
    ∧ h' !! l = Some (Heap.PyInst cls
                        (<["occurrence_rate" := Heap.VFloat rate]> attrs))
    ∧ (∀ k o, h !! k = Some o → h' !! k = Some o)
    ∧ (Forall (λ v, Heap.rate_of h v = Some r) items →
       rate = Heap.sum_rates h items).
Proof.
  intros Hrups Hfirst Hrate items rate.
  set (l := fresh (dom h)).
  assert (Hl : h !! l = None) by apply not_elem_of_dom, is_fresh.
  exists (<[l := Heap.PyInst cls
              (<["occurrence_rate" := Heap.VFloat rate]> attrs)]> h), l.
  split_and!.
  - unfold Heap._collapse. rewrite Hrups. cbn [mbind result_bind].
    unfold Heap.copy_copy, Heap.alloc. rewrite Hfirst. fold l.
    cbn [mbind result_bind]. rewrite lookup_insert_eq, Hrate.
    cbn [Heap.imul mbind result_bind]. by rewrite insert_insert_eq.
  - done.
  - by rewrite lookup_insert_eq.
  - intros k o Hk. rewrite lookup_insert_ne; [done|]. intros <-. congruence.
  - intros Heq. rewrite (sum_rates_equal_rates h items r Heq).
    subst rate items. cbn [length]. by rewrite sum_equal_rates.
Qed.

(** The pure function used by the generator computes the same rate. *)
Lemma _collapse_rate (rup : rupture) (rups : list rupture) :
  ∃ rup', _collapse (rup :: rups) = Ok rup'
    ∧ occurrence_rate rup'
      = fmul (occurrence_rate rup) (Qc_of_Z (Z.of_nat (length (rup :: rups)))).
Proof. eexists. split; reflexivity. Qed.

(** The rates 1 and 2 collapse to 1 * 2 = 2, not to their sum 3. *)
Lemma collapse_rate_is_not_the_sum :
  ∃ h' rup,
    Heap._collapse Scenario.two_rups_heap 0 = Ok (h', rup)
    ∧ Heap.rate_of h' rup = Some (Fin (qc 2 1))
    ∧ Heap.sum_rates Scenario.two_rups_heap [Heap.VRef 1; Heap.VRef 2]
      = Fin (qc 3 1)
    ∧ Heap.rate_of h' rup
      ≠ Some (Heap.sum_rates Scenario.two_rups_heap
                [Heap.VRef 1; Heap.VRef 2]).
Proof.
  eexists _, _. split; [vm_compute; reflexivity|].
  assert (Hsum : Heap.sum_rates Scenario.two_rups_heap
                   [Heap.VRef 1; Heap.VRef 2] = Fin (qc 3 1))
    by (vm_compute; reflexivity).
  split_and!; [vm_compute; reflexivity | exact Hsum |].
  rewrite Hsum. vm_compute. intros [=].
Qed.

Lemma collapse_copies_first_and_scales_rate_witness :
  ∃ h' l,
    Heap._collapse Scenario.two_rups_heap 0 = Ok (h', Heap.VRef l)
    ∧ Scenario.two_rups_heap !! l = None
    ∧ h' !! 0%nat = Some (Heap.PyList [Heap.VRef 1; Heap.VRef 2])
    ∧ h' !! 1%nat = Some (Scenario.rup_obj 1)
    ∧ h' !! 2%nat = Some (Scenario.rup_obj 2)
    ∧ h' !! l = Some (Heap.PyInst "ParametricProbabilisticRupture"
                        {[ "occurrence_rate" := Heap.VFloat (Fin (qc 2 1));
                           "mag" := Heap.VFloat (Fin (qc 6 1));
                           "surface" := Heap.VRef 3 ]}).
Proof.
  destruct (collapse_copies_first_and_scales_rate Scenario.two_rups_heap
              0 1 [Heap.VRef 2] _ _ (Fin 1) eq_refl eq_refl eq_refl)
    as (h' & l & Hret & Hfresh & Hnew & Hold & _).
  exists h', l. split_and!.
  - exact Hret.
  - exact Hfresh.
  - by apply Hold.
  - by apply Hold.
  - by apply Hold.
  - rewrite Hnew. reflexivity.
Defined.

(** ** RupData.add and the 16-bit columns *)









(** ** Exceptions of get_pmap and get_pmap_by_grp *)

Lemma np_average_raise depths weights e :
  np_average depths weights = Raise e → kind e = ZeroDivisionError.
Proof.
  unfold np_average. case_match; [|done]. by intros [= <-].
Qed.

Lemma _collapse_raise rups e :
  _collapse rups = Raise e → kind e = IndexError.
Proof. destruct rups; [|done]. by intros [= <-]. Qed.

Lemma _gen_rups_sites_mag_raise ext self src sites loc mag rups e :
  _gen_rups_sites_mag ext self src sites loc mag rups = Raise e →
  kind e ≠ FarAwayRupture.
Proof.
  unfold _gen_rups_sites_mag. intros H. raise_cases; try done;
    repeat match goal with
           | H : np_average _ _ = Raise _ |- _ =>
               apply np_average_raise in H; rewrite H
           | H : _collapse _ = Raise _ |- _ =>
               apply _collapse_raise in H; rewrite H
           end; done.
Qed.

Lemma _gen_rups_sites_raise ext self src sites e :
  Raise e ∈ _gen_rups_sites ext self src sites → kind e ≠ FarAwayRupture.
Proof.
  unfold _gen_rups_sites. generalize (location src).
  induction (gen_mag_ruptures src) as [|[mag rups] mag_rups IH]; intros loc;
    cbn [_gen_rups_sites_from].
  - by intros ?%elem_of_nil.
  - destruct (_gen_rups_sites_mag _ _ _ _ _ _ _) as [[loc' items]|e'] eqn:E.
    + intros [H|H]%elem_of_app; [|by eapply IH].
      by apply list_elem_of_fmap in H as (item & [=] & _).
    + intros [= <-]%list_elem_of_singleton.
      by eapply _gen_rups_sites_mag_raise.
Qed.

Lemma contexts_loop_raise ext self sites magdist st rups e :
  contexts_loop ext self sites magdist st rups = Raise e →
  kind e ≠ FarAwayRupture.
Proof.
  unfold contexts_loop.
  apply (foldlM_raise (λ e, kind e ≠ FarAwayRupture)).
  clear. intros st rup e. unfold contexts_step.
  destruct (make_contexts _ _ _ _ _) as [[[??]?]|e']; [done|].
  case_decide; [done|]. by intros [= <-].
Qed.

Lemma zero_slice_raise poes lo hi g e :
  zero_slice poes lo hi g = Raise e → kind e ≠ FarAwayRupture.
Proof.
  unfold zero_slice. intros H. raise_cases; done.
Qed.

Lemma zero_weight_masking_raise self poes e :
  zero_weight_masking self poes = Raise e → kind e ≠ FarAwayRupture.
Proof.
  unfold zero_weight_masking.
  apply (foldlM_raise (λ e, kind e ≠ FarAwayRupture)).
  intros poes' [g gs] e'.
  apply (foldlM_raise (λ e, kind e ≠ FarAwayRupture)).
  intros poes'' [[imt lo] hi] e''.
  repeat case_match; try done. apply zero_slice_raise.
Qed.

Lemma _make_pnes_raise ext self data mean_std e :
  no_far_away ext →
  _make_pnes ext self data mean_std = Raise e →
  kind e ≠ FarAwayRupture.
Proof.
  intros [_ Hpoes]. unfold _make_pnes. intros H. bind_cases H.
  - by injection H as <-.
  - injection H as <-. by eapply zero_weight_masking_raise.
  - injection H as <-. by eapply Hpoes.
Qed.

Lemma get_pmap_body_raise ext self src rup_indep fewsites st item e :
  no_far_away ext →
  get_pmap_body ext self src rup_indep fewsites st item = Raise e →
  kind e ≠ FarAwayRupture.
Proof.
  intros Hext. unfold get_pmap_body. destruct item as [[rups sites] magdist].
  destruct rups as [rups|rup]; cbn [mbind result_bind raise];
    [|by intros [= <-]].
  destruct (contexts_loop _ _ _ _ _ _) as [cl|e'] eqn:Ecl;
    cbn [mbind result_bind raise];
    [|intros [= <-]; by eapply contexts_loop_raise].
  destruct (cl_sids cl) as [|s0 ss]; [done|].
  destruct (get_mean_std ext _ _ _) as [mean_std|e'] eqn:Ems;
    cbn [mbind result_bind raise].
  - destruct (_make_pnes_raises ext self (cl_data cl) mean_std) as [e' He'].
    rewrite He'. cbn [mbind result_bind]. intros [= <-].
    by eapply _make_pnes_raise.
  - intros [= <-]. destruct Hext as [Hms _]. by eapply Hms.
Qed.

Lemma get_pmap_raise ext self src s_sites rup_indep e :
  no_far_away ext →
  get_pmap ext self src s_sites rup_indep = Raise e →
  kind e ≠ FarAwayRupture.
Proof.
  intros Hext. unfold get_pmap.
  destruct (foldlM _ _ (_gen_rups_sites ext self src s_sites)) as [st|e'] eqn:E;
    cbn [mbind result_bind]; [done|].
  intros [= <-]. revert E.
  apply (foldlM_raise_in (λ e, kind e ≠ FarAwayRupture)).
  intros st0 [item|e0] e Hin; cbn [mbind result_bind].
  - by apply get_pmap_body_raise.
  - intros [= <-]. by eapply _gen_rups_sites_raise.
Qed.

(** A source that is processed without an exception does not end the loop:
    the remaining sources are processed from the state it leaves. *)
Lemma get_pmap_by_grp_loop_app ext self src_mutex rup_mutex st before rest :
  Forall (λ p, is_Ok (get_pmap ext self p.1 p.2 (negb rup_mutex))) before →
  ∃ st', get_pmap_by_grp_loop ext self src_mutex rup_mutex st (before ++ rest)
         = get_pmap_by_grp_loop ext self src_mutex rup_mutex st' rest.
Proof.
  intros Hok. revert st.
  induction Hok as [|[src s_sites] before [poemap Hp] _ IH]; intros st.
  - by exists st.
  - cbn [app get_pmap_by_grp_loop]. cbn [fst snd] in Hp. rewrite Hp.
    apply IH.
Qed.

Lemma get_pmap_by_grp_ok ext self src_mutex rup_mutex src_sites :
  Forall (λ p, is_Ok (get_pmap ext self p.1 p.2 (negb rup_mutex))) src_sites →
  is_Ok (get_pmap_by_grp ext self src_sites src_mutex rup_mutex).
Proof.
  intros Hok. unfold get_pmap_by_grp.
  destruct (get_pmap_by_grp_loop_app ext self src_mutex rup_mutex
              (GrpLoop ∅ [] ∅ ∅ []) src_sites [] Hok) as [st' E].
  rewrite app_nil_r in E. rewrite E. by eexists.
Qed.


Lemma contexts_step_far_away ext self sites magdist st rup e :
  make_contexts ext self sites rup magdist = Raise e →
  kind e = FarAwayRupture →
  contexts_step ext self sites magdist st rup
  = Ok (CtxLoop (cl_sids st) (cl_data st) (Some rup) (cl_last st)).
Proof.
  intros He Hfar. unfold contexts_step. by rewrite He, decide_True.
Qed.

(** C7 (as the code has it).  A StopIteration that [get_pmap] raises while
    a source is processed is not re-raised with the source id: the handler
    meant for the end of the iteration catches it and ends the loop.  Whatever sources
    follow, [get_pmap_by_grp] returns what it would return had the sources
    ended before the failing one: the failure is lost and the remaining
    sources are never processed. *)
Theorem get_pmap_by_grp_StopIteration_ends_the_loop ext self
    src_mutex rup_mutex
    (before : list (source * SiteCollection)) (src : source)
    (s_sites : SiteCollection) (rest : list (source * SiteCollection))
    (err : exn) :
  Forall (λ p, is_Ok (get_pmap ext self p.1 p.2 (negb rup_mutex))) before →
  get_pmap ext self src s_sites (negb rup_mutex) = Raise err →
  kind err = StopIteration →
  get_pmap_by_grp ext self (before ++ (src, s_sites) :: rest)
    src_mutex rup_mutex
  = get_pmap_by_grp ext self before src_mutex rup_mutex
  ∧ is_Ok (get_pmap_by_grp ext self before src_mutex rup_mutex).
Proof.
  intros Hbefore Herr Hkind. split; [|by apply get_pmap_by_grp_ok].
  unfold get_pmap_by_grp.
  destruct (get_pmap_by_grp_loop_app ext self src_mutex rup_mutex
              (GrpLoop ∅ [] ∅ ∅ []) before ((src, s_sites) :: rest) Hbefore)
    as [st1 E1].
  destruct (get_pmap_by_grp_loop_app ext self src_mutex rup_mutex
              (GrpLoop ∅ [] ∅ ∅ []) before [] Hbefore) as [st2 E2].
  rewrite app_nil_r in E2.
  assert (Hsame : ∀ st, get_pmap_by_grp_loop ext self src_mutex rup_mutex st
                          ((src, s_sites) :: rest) = Ok st).
  { intros st. cbn [get_pmap_by_grp_loop]. rewrite Herr.
    by rewrite decide_True. }
  revert E1 E2. generalize (GrpLoop ∅ [] ∅ ∅ []).
  induction Hbefore as [|[src0 sites0] before [pm Hpm] _ IH]; intros st0.
  - cbn [app]. rewrite Hsame. by intros _ _.
  - cbn [app get_pmap_by_grp_loop]. cbn [fst snd] in Hpm. rewrite Hpm.
    intros E1 E2. by apply IH.
Qed.

(** The GSIM bank leaks a StopIteration for the first source, which has a
    site in reach; the second source, none of whose ruptures is in reach,
    would be counted in calc_times, and is not. *)
Lemma get_pmap_by_grp_StopIteration_ends_the_loop_witness :
  get_pmap_by_grp Scenario.ext_stop Scenario.cmaker
    [(Scenario.src_of Scenario.two_rups, Scenario.one_site);
     (Example.point_src, Scenario.remote_site)] false false
  = Ok (GrpResult ∅ {[ "grp_id" := [] ]} ∅ None)
  ∧ ∃ res,
      get_pmap_by_grp Scenario.ext_stop Scenario.cmaker
        [(Example.point_src, Scenario.remote_site)] false false = Ok res
      ∧ gr_calc_times res !! 2%Z = Some (0, 0)%nat.
Proof.
  split.
  - refine (eq_trans
              (proj1 (get_pmap_by_grp_StopIteration_ends_the_loop
                        Scenario.ext_stop Scenario.cmaker false false []
                        (Scenario.src_of Scenario.two_rups) Scenario.one_site
                        [(Example.point_src, Scenario.remote_site)]
                        (Exn StopIteration "" ["get_mean_std"]) _ _ _)) _).
    + constructor.
    + vm_compute. reflexivity.
    + reflexivity.
    + reflexivity.
  - apply is_Ok_elim; [apply is_Okb_true; vm_compute; reflexivity|].
    intros res H. vm_compute in H. injection H as <-. reflexivity.
Defined.

(** * Properties of the rest of the module *)

(** Comparisons of rationals, decided on their fractions. *)
Ltac Qc_order :=
  repeat match goal with
         | H : Qc_ltb _ _ = true |- _ => apply Qc_ltb_lt in H
         | H : Qc_ltb _ _ = false |- _ => apply Qc_ltb_ge in H
         | H : Qc_leb _ _ = true |- _ => apply Qc_leb_le in H
         | H : Qc_leb _ _ = false |- _ =>
             apply not_true_iff_false in H; rewrite Qc_leb_le in H;
             apply Qcnot_le_lt in H
         | |- Qc_ltb _ _ = true => apply Qc_ltb_lt
         | |- Qc_ltb _ _ = false => apply Qc_ltb_ge
         | |- Qc_leb _ _ = true => apply Qc_leb_le
         | |- @eq Qc _ _ => apply Qc_is_canon
         end;
  unfold Qclt, Qcle in *; try lra.

(** ** DistancesContext.roundup *)

Lemma lift_lift (m1 m2 x : Qc) : lift m2 (lift m1 x) = lift (Qc_max m1 m2) x.
Proof.
  unfold lift, Qc_max.
  destruct (Qc_ltb x m1) eqn:E1, (Qc_leb m1 m2) eqn:E2;
    [destruct (Qc_ltb m1 m2) eqn:E3 | destruct (Qc_ltb m1 m2) eqn:E3
    | destruct (Qc_ltb x m2) eqn:E3 | destruct (Qc_ltb x m2) eqn:E3];
    try (destruct (Qc_ltb x m2) eqn:E4); try (destruct (Qc_ltb x m1) eqn:E5);
    try reflexivity; Qc_order.
Qed.

Lemma lift_ge (m x : Qc) : m ≤ lift m x.
Proof. unfold lift. destruct (Qc_ltb x m) eqn:E; Qc_order. Qed.

Lemma lift_id (m x : Qc) : lift m x = x ↔ m ≤ x.
Proof.
  unfold lift. destruct (Qc_ltb x m) eqn:E; split; intros H; try done.
  - subst. Qc_order.
  - Qc_order.
  - Qc_order.
Qed.

Lemma small_distances_any (m : Qc) (d : list Qc) :
  existsb id ((λ x, Qc_ltb x m) <$> d) = false ↔ Forall (λ x, m ≤ x) d.
Proof.
  induction d as [|x d IH]; [done|]. cbn [fmap list_fmap existsb id].
  rewrite orb_false_iff, IH, Forall_cons, Qc_ltb_ge. done.
Qed.

Lemma lift_all_id (m : Qc) (d : list Qc) :
  Forall (λ x, m ≤ x) d → lift m <$> d = d.
Proof.
  induction 1 as [|x d Hx _ IH]; [done|]. cbn. f_equal; [|done].
  by apply lift_id.
Qed.

Lemma roundup_array_data (m : Qc) (a : ndarray) :
  shape (roundup_array m a) = shape a
  ∧ data (roundup_array m a) = lift m <$> data a.
Proof.
  unfold roundup_array. destruct (existsb id _) eqn:E; [done|].
  apply small_distances_any in E. by rewrite lift_all_id.
Qed.

(** X1.  With a minimum distance m other than zero, [roundup] returns a
    context with the same attributes, each array of the same shape with the
    distances below m replaced by m and the others kept: no distance is
    below m afterwards.  An array without a distance below m is returned as
    it is; an array that had one comes back read-only. *)
Theorem roundup_raises_small_distances
    (self : DistancesContext) (m : Qc) (dist : string) (array : ndarray) :
  m ≠ 0 →
  self !! dist = Some array →
  dom (roundup self (Some m)) = dom self
  ∧ ∃ array',
      roundup self (Some m) !! dist = Some array'
      ∧ shape array' = shape array
      ∧ data array' = lift m <$> data array
      ∧ Forall (λ x, m ≤ x) (data array')
      ∧ (Forall (λ x, m ≤ x) (data array) → array' = array)
      ∧ (¬ Forall (λ x, m ≤ x) (data array) → writeable array' = false).
Proof.
  intros Hm Hdist. unfold roundup.
  destruct (Qc_eqb m 0) eqn:E; [by apply Qc_eqb_eq in E|].
  split; [apply dom_fmap_L|].
  exists (roundup_array m array). rewrite lookup_fmap, Hdist.
  destruct (roundup_array_data m array) as [Hs Hd].
  split_and!; try done.
  - rewrite Hd. apply Forall_fmap, Forall_true. intros x. apply lift_ge.
  - intros Hall. apply small_distances_any in Hall.
    unfold roundup_array. by rewrite Hall.
  - intros Hsome. unfold roundup_array.
    destruct (existsb id _) eqn:Eany; [done|].
    by apply small_distances_any in Eany.
Qed.

Lemma roundup_array_twice (m1 m2 : Qc) (a : ndarray) :
  roundup_array m2 (roundup_array m1 a) = roundup_array (Qc_max m1 m2) a.
Proof.
  assert (Hdata : lift m2 <$> (lift m1 <$> data a)
                  = lift (Qc_max m1 m2) <$> data a).
  { rewrite <- list_fmap_compose. apply list_fmap_ext.
    intros _ x _. apply lift_lift. }
  unfold roundup_array at 2.
  destruct (existsb id ((λ x, Qc_ltb x m1) <$> data a)) eqn:E1.
  - (* touched by the first call *)
    assert (E : existsb id ((λ x, Qc_ltb x (Qc_max m1 m2)) <$> data a) = true).
    { apply not_false_iff_true. intros H%small_distances_any.
      apply not_false_iff_true in E1. apply E1, small_distances_any.
      eapply Forall_impl; [exact H|]. intros x Hx. cbn in Hx.
      unfold Qc_max in Hx. destruct (Qc_leb m1 m2) eqn:E2; Qc_order. }
    unfold roundup_array. cbn [data shape]. rewrite E.
    fold (lift m1) (lift m2) (lift (Qc_max m1 m2)).
    destruct (existsb id ((λ x, Qc_ltb x m2) <$> (lift m1 <$> data a)))
      eqn:E2.
    + by rewrite Hdata.
    + apply small_distances_any in E2.
      by rewrite <- Hdata, (lift_all_id m2).
  - (* left alone by the first call *)
    pose proof E1 as Hall%small_distances_any.
    rewrite (lift_all_id m1) in Hdata by done.
    unfold roundup_array. fold (lift m2) (lift (Qc_max m1 m2)).
    rewrite Hdata.
    destruct (existsb id ((λ x, Qc_ltb x m2) <$> data a)) eqn:E2.
    + assert (E : existsb id ((λ x, Qc_ltb x (Qc_max m1 m2)) <$> data a)
                  = true).
      { apply not_false_iff_true. intros H%small_distances_any.
        apply not_false_iff_true in E2. apply E2, small_distances_any.
        eapply Forall_impl; [exact H|]. intros x Hx. cbn in Hx.
        unfold Qc_max in Hx. destruct (Qc_leb m1 m2) eqn:E3; Qc_order. }
      by rewrite E.
    + assert (E : existsb id ((λ x, Qc_ltb x (Qc_max m1 m2)) <$> data a)
                  = false).
      { apply small_distances_any. apply small_distances_any in E2.
        unfold Qc_max. by destruct (Qc_leb m1 m2). }
      by rewrite E.
Qed.

(** X2.  Rounding up to m1 and then to m2, both other than zero, is rounding
    up to the larger of the two, arrays and read-only flags included; in
    particular rounding up twice to the same distance changes nothing
    more. *)
Theorem roundup_twice (self : DistancesContext) (m1 m2 : Qc) :
  m1 ≠ 0 → m2 ≠ 0 →
  roundup (roundup self (Some m1)) (Some m2)
  = roundup self (Some (Qc_max m1 m2))
  ∧ roundup (roundup self (Some m1)) (Some m1) = roundup self (Some m1).
Proof.
  intros H1 H2.
  assert (Hne : ∀ m, m ≠ 0 → Qc_eqb m 0 = false).
  { intros m Hm. apply not_true_iff_false. by rewrite Qc_eqb_eq. }
  assert (Hmax : Qc_max m1 m2 ≠ 0).
  { unfold Qc_max. by destruct (Qc_leb m1 m2). }
  assert (Hself : Qc_max m1 m1 = m1).
  { unfold Qc_max. by destruct (Qc_leb m1 m1). }
  unfold roundup. rewrite !Hne by done.
  split.
  - rewrite <- map_fmap_compose. apply map_fmap_ext.
    intros k a _. apply roundup_array_twice.
  - rewrite <- map_fmap_compose. apply map_fmap_ext.
    intros k a _. cbn. by rewrite roundup_array_twice, Hself.
Qed.

Lemma roundup_raises_small_distances_witness :
  dom (roundup Example.dctx (Some 1)) = dom Example.dctx
  ∧ ∃ array',
      roundup Example.dctx (Some 1) !! "rrup" = Some array'
      ∧ data array' = [1; qc 2 1; qc 10 1]
      ∧ writeable array' = false.
Proof.
  destruct (roundup_raises_small_distances Example.dctx 1 "rrup"
              (NDArray [3%nat] [qc 1 2; qc 2 1; qc 10 1] false))
    as (Hdom & array' & Hl & Hs & Hd & Hge & _ & Hro).
  - discriminate.
  - reflexivity.
  - split; [exact Hdom|]. exists array'. split_and!; [exact Hl|exact Hd|].
    apply Hro. intros H. apply Forall_cons in H as [H _]. by vm_compute in H.
Defined.

Lemma roundup_twice_witness :
  roundup (roundup Example.dctx (Some 1)) (Some (qc 3 1))
  = roundup Example.dctx (Some (qc 3 1)).
Proof.
  refine (proj1 (roundup_twice Example.dctx 1 (qc 3 1) _ _)); discriminate.
Defined.

(** ** BaseContext.__eq__ *)

Lemma isclose_refl (x : Qc) : isclose x x = true.
Proof.
  assert (Habs : 0 ≤ Qc_abs x).
  { unfold Qc_abs. destruct (Qc_leb 0 x) eqn:E.
    - by apply Qc_leb_le.
    - apply not_true_iff_false in E. rewrite Qc_leb_le in E.
      apply Qcnot_le_lt, Qclt_le_weak in E.
      apply (proj1 (Qcle_minus_iff x 0)) in E. by rewrite Qcplus_0_l in E. }
  unfold isclose. replace (x - x) with (0:Qc) by ring.
  change (Qc_abs 0) with (0:Qc). apply Qc_leb_le.
  apply Qcplus_nonneg_nonneg; [done|].
  apply Qcmult_nonneg_nonneg; [done|exact Habs].
Qed.

Lemma float_isclose_refl (x : float) :
  float_isclose x x = negb (isnan x).
Proof. destruct x as [|q]; [done|]. cbn. apply isclose_refl. Qed.

Lemma float_eqb_refl (x : float) : float_eqb x x = negb (isnan x).
Proof. destruct x as [|q]; [done|]. cbn. by apply Qc_eqb_eq. Qed.

Lemma allclose_refl (l : list float) :
  allclose l l = forallb (λ x, negb (isnan x)) l.
Proof.
  unfold allclose. induction l as [|x l IH]; [done|].
  cbn. by rewrite float_isclose_refl, IH.
Qed.

Lemma slot_ok_refl (a : option cvalue) :
  slot_ok a a = OkBool (from_option nan_free true a).
Proof.
  destruct a as [[a|x]|]; cbn; [|by rewrite float_eqb_refl|done].
  rewrite decide_True by done. by rewrite allclose_refl.
Qed.

Lemma ok_cells_bools {A} (f : A → bool) (l : list A) :
  forallb id (((λ x, OkBool (f x)) <$> l) ≫= ok_cells) = forallb f l.
Proof.
  induction l as [|x l IH]; [done|].
  change (f x && forallb id (((λ x, OkBool (f x)) <$> l) ≫= ok_cells)
          = f x && forallb f l).
  by rewrite IH.
Qed.

Lemma numpy_all_bools {A} (f : A → bool) (l : list A) :
  numpy_all ((λ x, OkBool (f x)) <$> l) = Some (forallb f l).
Proof.
  unfold numpy_all.
  assert (Hsh : forallb
                  (λ ok, bool_decide
                           (ok_shape ok
                            = from_option ok_shape []
                                (head ((λ x, OkBool (f x)) <$> l))))
                  ((λ x, OkBool (f x)) <$> l) = true).
  { apply forallb_forall. intros ok Hin%list_elem_of_In.
    apply list_elem_of_fmap in Hin as (y & -> & Hy).
    apply bool_decide_eq_true_2. by destruct l. }
  by rewrite Hsh, ok_cells_bools.
Qed.

Lemma BaseContext_eq_self (self : context) :
  BaseContext_eq self self
  = Some (forallb (λ s, from_option nan_free true (ctx_attrs self !! s))
            (_slots_ self)).
Proof.
  unfold BaseContext_eq. rewrite !decide_True by done.
  rewrite <- numpy_all_bools. f_equal. apply list_fmap_ext.
  intros i s _. apply slot_ok_refl.
Qed.

Lemma BaseContext_eq_agree (self other : context) :
  ctx_class other = ctx_class self →
  _slots_ self = _slots_ other →
  (∀ s, s ∈ _slots_ self → ctx_attrs self !! s = ctx_attrs other !! s) →
  BaseContext_eq self other = BaseContext_eq self self.
Proof.
  intros Hc Hs Hattrs. unfold BaseContext_eq.
  rewrite !decide_True by done. f_equal. apply list_fmap_ext.
  intros i s Hi. rewrite <- Hattrs; [done|]. by eapply list_elem_of_lookup_2.
Qed.

(** X3.  [__eq__] looks at the attributes named in [_slots_] and at no
    other: comparing a context with one of the same class and slots that
    agrees with it on the slots is comparing it with itself.  A context
    equals itself exactly when none of the attributes in its slots holds a
    NaN.  For a DistancesContext, azimuth_cp, one of the known distances but
    not one of the slots, plays no part in the comparison. *)
Theorem BaseContext_eq_only_slots (self other : context) :
  ctx_class other = ctx_class self →
  _slots_ self = _slots_ other →
  (∀ s, s ∈ _slots_ self → ctx_attrs self !! s = ctx_attrs other !! s) →
  BaseContext_eq self other = BaseContext_eq self self
  ∧ BaseContext_eq self self
    = Some (forallb (λ s, from_option nan_free true (ctx_attrs self !! s))
              (_slots_ self))
  ∧ ("azimuth_cp" ∈ KNOWN_DISTANCES
     ∧ ∀ (c : context) (v : cvalue),
         _slots_ c = DistancesContext_slots →
         BaseContext_eq c
           (Context (ctx_class c) (_slots_ c)
              (<["azimuth_cp" := v]> (ctx_attrs c)))
         = BaseContext_eq c c).
Proof.
  intros Hc Hs Hattrs. split_and!.
  - by apply BaseContext_eq_agree.
  - apply BaseContext_eq_self.
  - unfold KNOWN_DISTANCES.
    repeat first [apply list_elem_of_here | apply list_elem_of_further].
  - intros c v Hslots. apply BaseContext_eq_agree; [done..|].
    intros s Hin. cbn. rewrite lookup_insert_ne; [done|]. intros <-.
    rewrite Hslots in Hin. unfold DistancesContext_slots in Hin.
    rewrite !elem_of_cons, elem_of_nil in Hin.
    repeat destruct Hin as [Hin|Hin]; done.
Qed.

(** Distances without NaN equal themselves, with or without azimuth_cp; an
    array that holds a NaN does not equal itself. *)
Lemma BaseContext_eq_only_slots_witness :
  BaseContext_eq (as_context Example.dctx)
    (as_context (<["azimuth_cp" := NDArray [0%nat] [] true]> Example.dctx))
  = Some true
  ∧ BaseContext_eq Example.nan_ctx Example.nan_ctx = Some false.
Proof.
  split.
  - destruct (BaseContext_eq_only_slots (as_context Example.dctx)
                (as_context (<["azimuth_cp" := NDArray [0%nat] [] true]>
                               Example.dctx))) as (H1 & H2 & _);
      [done..| |].
    + intros s Hin. cbn. rewrite fmap_insert. rewrite lookup_insert_ne;
        [done|]. intros <-.
      cbn in Hin. unfold DistancesContext_slots in Hin.
      rewrite !elem_of_cons, elem_of_nil in Hin.
      repeat destruct Hin as [Hin|Hin]; done.
    + rewrite H1, H2. vm_compute. reflexivity.
  - destruct (BaseContext_eq_only_slots Example.nan_ctx Example.nan_ctx)
      as (_ & H2 & _); [done..|]. rewrite H2. reflexivity.
Defined.

(** X4.  [__eq__] compares arrays with the tolerances of [numpy.allclose],
    which are relative to the right-hand side: the comparison is neither
    symmetric nor transitive. *)
Theorem BaseContext_eq_not_an_equivalence :
  (∃ a b, BaseContext_eq a b = Some true ∧ BaseContext_eq b a = Some false)
  ∧ (∃ a b c, BaseContext_eq a b = Some true ∧ BaseContext_eq b c = Some true
              ∧ BaseContext_eq a c = Some false).
Proof.
  split.
  - exists (Example.dctx_of 1),
           (Example.dctx_of (qc 1000010010050 1000000000000)).
    split; vm_compute; reflexivity.
  - exists (Example.dctx_of 0), (Example.dctx_of (qc 1 100000000)),
           (Example.dctx_of (qc 2 100000000)).
    split_and!; vm_compute; reflexivity.
Qed.

(** ** add_rup_params *)

Lemma add_rup_params_known ext (self : ContextMaker) (rup r : rupture) :
  Forall (.∈ RUPTURE_PARAMETERS) (REQUIRES_RUPTURE_PARAMETERS self) →
  r = with_params rup (params r) →
  ∃ r', add_rup_params ext self r = Ok r'
        ∧ r' = with_params rup (params r')
        ∧ (∀ p, p ∈ REQUIRES_RUPTURE_PARAMETERS self →
                params r' !! p = rupture_parameter rup p)
        ∧ (∀ p, p ∉ REQUIRES_RUPTURE_PARAMETERS self →
                params r' !! p = params r !! p).
Proof.
  unfold add_rup_params. generalize (REQUIRES_RUPTURE_PARAMETERS self) as req.
  intros req Hreq. revert r. induction Hreq as [|x req Hx Hreq IH]; intros r Hr.
  - exists r. split_and!; [done..| |done]. intros p Hp.
    by apply elem_of_nil in Hp.
  - cbn [foldlM].
    assert (Hstep : ∃ v, rupture_parameter rup x = Some v
              ∧ (if decide (x = "mag") then Ok (mag r)
       else if decide (x = "strike") then Ok (get_strike (surface r))
       else if decide (x = "dip") then Ok (get_dip (surface r))
       else if decide (x = "rake") then Ok (rake r)
       else if decide (x = "ztor")
         then Ok (get_top_edge_depth (surface r))
       else if decide (x = "hypo_lon")
         then Ok (longitude (hypocenter r))
       else if decide (x = "hypo_lat")
         then Ok (latitude (hypocenter r))
       else if decide (x = "hypo_depth") then Ok (depth (hypocenter r))
       else if decide (x = "width") then Ok (get_width (surface r))
       else raise ValueError
              ("ContextMaker requires unknown rupture parameter "
               +:+ py_repr ext x) "add_rup_params") = Ok v).
    { rewrite Hr. unfold RUPTURE_PARAMETERS in Hx.
      rewrite !elem_of_cons, elem_of_nil in Hx.
      repeat destruct Hx as [->|Hx]; [eexists; split; reflexivity..|done]. }
    destruct Hstep as (v & Hv & ->). cbn [mbind result_bind].
    destruct (IH (rup_setattr r x v)) as (r' & Hfold & Hnat & Hin & Hout).
    { rewrite Hr at 1. reflexivity. }
    exists r'. split_and!; [exact Hfold|exact Hnat| |].
    + intros p Hp. destruct (decide (p ∈ req)) as [Hp'|Hp']; [by apply Hin|].
      apply elem_of_cons in Hp as [->|Hp]; [|done].
      rewrite Hout by done. cbn. by rewrite lookup_insert_eq.
    + intros p Hp. apply not_elem_of_cons in Hp as [Hne Hp].
      rewrite Hout by done. cbn. by rewrite lookup_insert_ne.
Qed.

Lemma add_rup_params_unknown ext (self : ContextMaker) (r : rupture) :
  Exists (.∉ RUPTURE_PARAMETERS) (REQUIRES_RUPTURE_PARAMETERS self) →
  ∃ e, add_rup_params ext self r = Raise e ∧ kind e = ValueError.
Proof.
  unfold add_rup_params. generalize (REQUIRES_RUPTURE_PARAMETERS self) as req.
  intros req Hreq. revert r. induction req as [|x req IH]; intros r.
  { by apply Exists_nil in Hreq. }
  cbn [foldlM]. destruct (decide (x ∈ RUPTURE_PARAMETERS)) as [Hx|Hx].
  - apply Exists_cons in Hreq as [Hreq|Hreq]; [done|].
    unfold RUPTURE_PARAMETERS in Hx.
    rewrite !elem_of_cons, elem_of_nil in Hx.
    repeat destruct Hx as [->|Hx]; [apply (IH Hreq)..|done].
  - unfold RUPTURE_PARAMETERS in Hx.
    rewrite !not_elem_of_cons in Hx.
    destruct Hx as (?&?&?&?&?&?&?&?&?&_).
    rewrite !decide_False by done. eexists. split; reflexivity.
Qed.

(** X5.  [add_rup_params] succeeds exactly when every required rupture
    parameter is one of the nine it knows, and raises a ValueError
    otherwise.  When it succeeds, every required parameter holds the value
    read from the rupture, its surface or its hypocenter, nothing else of
    the rupture changes, and adding the parameters again changes nothing. *)
Theorem add_rup_params_sets_requirements ext (self : ContextMaker)
    (rup : rupture) :
  match add_rup_params ext self rup with
  | Ok rup' =>
      Forall (.∈ RUPTURE_PARAMETERS) (REQUIRES_RUPTURE_PARAMETERS self)
      ∧ rup' = with_params rup (params rup')
      ∧ (∀ p, p ∈ REQUIRES_RUPTURE_PARAMETERS self →
              is_Some (params rup' !! p)
              ∧ params rup' !! p = rupture_parameter rup p)
      ∧ (∀ p, p ∉ REQUIRES_RUPTURE_PARAMETERS self →
              params rup' !! p = params rup !! p)
      ∧ add_rup_params ext self rup' = Ok rup'
  | Raise e =>
      ¬ Forall (.∈ RUPTURE_PARAMETERS) (REQUIRES_RUPTURE_PARAMETERS self)
      ∧ kind e = ValueError
  end.
Proof.
  destruct (decide (Forall (.∈ RUPTURE_PARAMETERS)
                      (REQUIRES_RUPTURE_PARAMETERS self))) as [Hreq|Hreq].
  - destruct (add_rup_params_known ext self rup rup Hreq)
      as (rup' & -> & Hnat & Hin & Hout); [by destruct rup|].
    split_and!; [done..| | |].
    + intros p Hp. rewrite (Hin p Hp). split; [|done].
      eapply Forall_forall in Hreq; [|exact Hp].
      unfold RUPTURE_PARAMETERS in Hreq.
      rewrite !elem_of_cons, elem_of_nil in Hreq.
      repeat destruct Hreq as [->|Hreq]; [by eexists..|done].
    + exact Hout.
    + destruct (add_rup_params_known ext self rup rup' Hreq Hnat)
        as (rup2 & -> & Hnat2 & Hin2 & Hout2).
      f_equal. rewrite Hnat2, Hnat at 1. f_equal. apply map_eq. intros p.
      destruct (decide (p ∈ REQUIRES_RUPTURE_PARAMETERS self)) as [Hp|Hp].
      * by rewrite Hin2, Hin.
      * by rewrite Hout2.
  - destruct (add_rup_params_unknown ext self rup) as (e & -> & He).
    { by apply not_Forall_Exists; [intros p; apply _|]. }
    done.
Qed.

(** ** ContextMaker.__init__ *)

Lemma set_add_elem (name x : string) (reqset : list string) :
  x ∈ set_add name reqset ↔ x = name ∨ x ∈ reqset.
Proof.
  unfold set_add. case_bool_decide as H.
  - split; [by right|]. by intros [->|?].
  - rewrite elem_of_app, list_elem_of_singleton. tauto.
Qed.

Lemma set_add_NoDup (name : string) (reqset : list string) :
  NoDup reqset → NoDup (set_add name reqset).
Proof.
  intros Hnd. unfold set_add. case_bool_decide as H; [done|].
  apply NoDup_app. split_and!; [done| |apply NoDup_singleton].
  intros x Hx ->%list_elem_of_singleton. done.
Qed.

Lemma set_update_spec (names reqset : list string) :
  (NoDup reqset → NoDup (set_update reqset names))
  ∧ ∀ x, x ∈ set_update reqset names ↔ x ∈ reqset ∨ x ∈ names.
Proof.
  unfold set_update. revert reqset.
  induction names as [|name names IH]; intros reqset; cbn.
  - split; [done|]. intros x. rewrite elem_of_nil. tauto.
  - destruct (IH (set_add name reqset)) as [IH1 IH2]. split.
    + intros Hnd. by apply IH1, set_add_NoDup.
    + intros x. rewrite IH2, set_add_elem, elem_of_cons. tauto.
Qed.

Lemma requires_union_from (req : gsim → list string) (gsims : list gsim)
    (reqset : list string) :
  (NoDup reqset →
   NoDup (foldl (λ reqset gsim, set_update reqset (req gsim)) reqset gsims))
  ∧ ∀ x, x ∈ foldl (λ reqset gsim, set_update reqset (req gsim)) reqset gsims
         ↔ x ∈ reqset ∨ ∃ gsim, gsim ∈ gsims ∧ x ∈ req gsim.
Proof.
  revert reqset. induction gsims as [|g gsims IH]; intros reqset; cbn.
  - split; [done|]. intros x. split; [by left|].
    intros [?|(g & Hg & _)]; [done|]. by apply elem_of_nil in Hg.
  - destruct (IH (set_update reqset (req g))) as [IH1 IH2].
    destruct (set_update_spec (req g) reqset) as [Hnd Hin]. split.
    + intros H. by apply IH1, Hnd.
    + intros x. rewrite IH2, Hin. split.
      * intros [[?|?]|(g' & Hg' & Hx)]; [by left|right..].
        -- exists g. split; [apply list_elem_of_here|done].
        -- exists g'. split; [by apply list_elem_of_further|done].
      * intros [?|(g' & Hg' & Hx)]; [by left; left|].
        apply elem_of_cons in Hg' as [->|Hg']; [by left; right|].
        right. by exists g'.
Qed.

Lemma requires_union_spec (req : gsim → list string) (gsims : list gsim) :
  NoDup (requires_union req gsims)
  ∧ ∀ x, x ∈ requires_union req gsims ↔ ∃ gsim, gsim ∈ gsims ∧ x ∈ req gsim.
Proof.
  destruct (requires_union_from req gsims []) as [Hnd Hin]. split.
  - apply Hnd, NoDup_nil_2.
  - intros x. rewrite Hin, elem_of_nil. tauto.
Qed.

(** X6.  A ContextMaker built by the constructor requires every site and
    rupture parameter some GSIM requires and no other.  Its required
    distances are those of the GSIMs, the filter distance and, when
    equivalent distances are given, repi; nothing is listed twice.  When
    the parameters give no filter distance it is rjb if some GSIM requires
    rjb and none requires rrup, and rrup in every other case. *)
Theorem ContextMaker_init_requirements
    (IntegrationDistance_empty : string → Qc → Qc) (trt : string)
    (gsims : list gsim) (param : option param_t) :
  let self := ContextMaker_init IntegrationDistance_empty trt gsims param in
  let required (req : gsim → list string) (name : string) :=
    ∃ gsim, gsim ∈ gsims ∧ name ∈ req gsim in
  NoDup (REQUIRES_DISTANCES self)
  ∧ NoDup (REQUIRES_SITES_PARAMETERS self)
  ∧ NoDup (REQUIRES_RUPTURE_PARAMETERS self)
  ∧ (∀ d, d ∈ REQUIRES_DISTANCES self
          ↔ required gsim_REQUIRES_DISTANCES d
            ∨ d = filter_distance self
            ∨ (d = "repi" ∧ is_Some (reqv self)))
  ∧ (∀ p, p ∈ REQUIRES_SITES_PARAMETERS self
          ↔ required gsim_REQUIRES_SITES_PARAMETERS p)
  ∧ (∀ p, p ∈ REQUIRES_RUPTURE_PARAMETERS self
          ↔ required gsim_REQUIRES_RUPTURE_PARAMETERS p)
  ∧ match param ≫= p_filter_distance with
    | Some given => filter_distance self = given
    | None =>
        (filter_distance self = "rjb"
         ↔ required gsim_REQUIRES_DISTANCES "rjb"
           ∧ ¬ required gsim_REQUIRES_DISTANCES "rrup")
        ∧ (filter_distance self = "rrup" ∨ filter_distance self = "rjb")
    end.
Proof.
  intros self required.
  destruct (requires_union_spec gsim_REQUIRES_DISTANCES gsims) as [HD1 HD2].
  destruct (requires_union_spec gsim_REQUIRES_SITES_PARAMETERS gsims)
    as [HS1 HS2].
  destruct (requires_union_spec gsim_REQUIRES_RUPTURE_PARAMETERS gsims)
    as [HR1 HR2].
  split_and!; [| exact HS1 | exact HR1 | | exact HS2 | exact HR2 |].
  - unfold self, ContextMaker_init. cbn [REQUIRES_DISTANCES].
    destruct (p_reqv (default empty_param param));
      repeat apply set_add_NoDup; exact HD1.
  - intros d. unfold self, ContextMaker_init.
    cbn [REQUIRES_DISTANCES filter_distance reqv].
    destruct (p_reqv (default empty_param param)) as [r|].
    + rewrite !set_add_elem, (HD2 d). split.
      * intros [->|[->|H]]; [right; right; by eauto|by right; left|by left].
      * intros [H|[->|[-> _]]]; [by right; right|by right; left|by left].
    + rewrite !set_add_elem, (HD2 d). split.
      * intros [->|H]; [by right; left|by left].
      * intros [H|[->|[_ [? [=]]]]]; [by right|by left].
  - unfold self, ContextMaker_init. cbn [filter_distance].
    replace (p_filter_distance (default empty_param param))
      with (param ≫= p_filter_distance) by (by destruct param).
    destruct (param ≫= p_filter_distance) as [fd|]; [done|].
    unfold required. rewrite <- !HD2.
    repeat case_bool_decide; split; first [by left | by right | idtac];
      split; first [done | tauto].
Qed.

(** ** make_contexts *)

Lemma make_contexts_loop ext rup mesh (ps : list string)
    (dctx0 : DistancesContext) :
  match foldlM (λ (dctx : DistancesContext) param,
            distances ← get_distances ext rup mesh param;
            Ok (<[param := distances]> dctx)) dctx0 ps with
  | Ok dctx =>
      Forall (.∈ KNOWN_DISTANCES) ps
      ∧ dom dctx = dom dctx0 ∪ list_to_set ps
      ∧ (∀ d, d ∉ ps → dctx !! d = dctx0 !! d)
      ∧ (∀ d, d ∈ ps → ∃ a, dctx !! d = Some a
                            ∧ get_distances ext rup mesh d = Ok a)
  | Raise e => ¬ Forall (.∈ KNOWN_DISTANCES) ps ∧ kind e = ValueError
  end.
Proof.
  revert dctx0. induction ps as [|x ps IH]; intros dctx0; cbn [foldlM].
  - split_and!; [done| |done|].
    + cbn. by rewrite (right_id_L ∅ (∪)).
    + intros d Hd. by apply elem_of_nil in Hd.
  - destruct (decide (x ∈ KNOWN_DISTANCES)) as [Hx|Hx].
    + destruct (get_distances_known ext rup mesh x Hx) as (v & Hlen & Hget).
      rewrite Hget. cbn [mbind result_bind].
      specialize (IH (<[x := NDArray [length mesh] v false]> dctx0)).
      destruct (foldlM _ _ ps) as [dctx|e].
      * destruct IH as (Hps & Hdom & Hout & Hin). split_and!.
        -- by constructor.
        -- rewrite Hdom, dom_insert_L. cbn [list_to_set].
           apply set_eq. intros d. rewrite !elem_of_union. tauto.
        -- intros d [Hne Hd]%not_elem_of_cons.
           by rewrite Hout, lookup_insert_ne.
        -- intros d Hd. destruct (decide (d ∈ ps)) as [Hd'|Hd'].
           { by apply Hin. }
           apply elem_of_cons in Hd as [->|Hd]; [|done].
           rewrite Hout, lookup_insert_eq by done. by eexists.
      * destruct IH as [Hps He]. split; [|done].
        intros [_ H]%Forall_cons. done.
    + rewrite (get_distances_unknown ext rup mesh x Hx). cbn. split; [|done].
      intros [H _]%Forall_cons. done.
Qed.

Lemma elem_of_other_distances (fd d : string) (req : list string) :
  d ∈ List.filter (λ p, negb (bool_decide (p = fd))) req ↔ d ∈ req ∧ d ≠ fd.
Proof.
  rewrite !list_elem_of_In, filter_In, negb_true_iff, bool_decide_eq_false.
  done.
Qed.

(** X7.  What [make_contexts] returns when no equivalent distances are in
    use.  The sites are those within the maximum distance, measured with the
    filter distance, and there is at least one; the distance context holds
    the filter distance and the required distances and nothing else, each
    array with one value per remaining site.  The array of the filter
    distance is cut out of the distances of all the sites and is writeable;
    every other distance is computed for the remaining sites only.  The
    rupture is the one [add_rup_params] gives. *)
Theorem make_contexts_aligned ext (self : ContextMaker)
    (sites : SiteCollection) (rup : rupture) (radius_dist : option Qc)
    (rup' : rupture) (sites' : SiteCollection) (dctx : DistancesContext) :
  reqv self = None →
  make_contexts ext self sites rup radius_dist = Ok (rup', sites', dctx) →
  let m := py_or radius_dist
             (maximum_distance self (tectonic_region_type rup) (mag rup)) in
  sites_of sites' ≠ []
  ∧ complete sites' = complete sites
  ∧ dom dctx = {[ filter_distance self ]}
               ∪ list_to_set (REQUIRES_DISTANCES self)
  ∧ (∀ d a, dctx !! d = Some a →
            shape a = [length (sites_of sites')]
            ∧ length (data a) = length (sites_of sites'))
  ∧ (∃ dist,
       get_distances ext rup (sites_of sites) (filter_distance self) = Ok dist
       ∧ let close := List.filter (λ p : site * Qc, Qc_leb p.2 m)
                        (zip (sites_of sites) (data dist)) in
         sites_of sites' = close.*1
         ∧ dctx !! filter_distance self
           = Some (NDArray [length close] (close.*2) true))
  ∧ (∀ d, d ∈ REQUIRES_DISTANCES self → d ≠ filter_distance self →
          ∃ a, dctx !! d = Some a
               ∧ get_distances ext rup (sites_of sites') d = Ok a)
  ∧ add_rup_params ext self rup = Ok rup'.
Proof.
  intros Hreqv H m.
  destruct (get_distances ext rup (sites_of sites) (filter_distance self))
    as [dist|e] eqn:Hd.
  2: { unfold make_contexts, filter in H. by rewrite Hd in H. }
  pose proof (filter_spec ext self sites rup radius_dist dist Hd) as Hf.
  cbv zeta in Hf. fold m in Hf. unfold make_contexts in H.
  destruct (filter ext self sites rup radius_dist) as [[s1 d1]|e]; [|done].
  destruct Hf as (Hne & -> & ->). cbn [mbind result_bind] in H.
  set (close := List.filter (λ p : site * Qc, Qc_leb p.2 m)
                  (zip (sites_of sites) (data dist))) in *.
  pose proof (make_contexts_loop ext rup
    (sites_of (SiteCol (close.*1) (complete sites)))
    (List.filter (λ p, negb (bool_decide (p = filter_distance self)))
       (REQUIRES_DISTANCES self))
    {[ filter_distance self
       := NDArray [length (close.*2)] (close.*2) true ]}) as Hl.
  destruct (foldlM _ _ _) as [d2|e] eqn:El in H; [|done].
  rewrite El in Hl. destruct Hl as (Hknown & Hdom & Hout & Hin).
  rewrite Hreqv in H. cbn [mbind option_bind result_bind] in H.
  destruct (add_rup_params ext self rup) as [r2|e]; [|done].
  cbn in H. injection H as <- <- <-.
  assert (Hfd : d2 !! filter_distance self
                = Some (NDArray [length close] (close.*2) true)).
  { rewrite Hout, lookup_singleton_eq, length_fmap; [done|].
    rewrite elem_of_other_distances. tauto. }
  split_and!.
  - cbn. by destruct close.
  - done.
  - rewrite Hdom, dom_singleton_L. apply set_eq. intros d.
    rewrite !elem_of_union, !elem_of_list_to_set, elem_of_other_distances.
    rewrite elem_of_singleton.
    destruct (decide (d = filter_distance self)); tauto.
  - intros d a Ha. cbn [sites_of]. rewrite length_fmap.
    destruct (decide (d = filter_distance self)) as [->|Hne'].
    { rewrite Hfd in Ha. injection Ha as <-. cbn. by rewrite length_fmap. }
    destruct (decide (d ∈ REQUIRES_DISTANCES self)) as [Hreq|Hreq].
    + destruct (Hin d) as (a' & Ha' & Hget).
      { by apply elem_of_other_distances. }
      rewrite Ha in Ha'. injection Ha' as <-.
      destruct (get_distances_known ext rup (close.*1) d) as (v & Hv & Hget').
      { eapply Forall_forall in Hknown; [exact Hknown|].
        by apply elem_of_other_distances. }
      cbn [sites_of] in Hget. rewrite Hget' in Hget. injection Hget as <-.
      cbn. by rewrite Hv, length_fmap.
    + rewrite Hout, lookup_singleton_ne in Ha by
        (rewrite ?elem_of_other_distances; tauto || done). done.
  - exists dist. split; [done|]. done.
  - intros d Hreq Hne'. apply Hin. by apply elem_of_other_distances.
  - done.
Qed.

Lemma no_close_site {A} (m : Qc) (xs : list A) (ds : list Qc) :
  length ds = length xs →
  List.filter (λ p : A * Qc, Qc_leb p.2 m) (zip xs ds) = []
  ↔ Forall (λ x, m < x) ds.
Proof.
  revert xs. induction ds as [|d ds IH]; intros [|x xs] Hlen; try done.
  injection Hlen as Hlen. cbn [zip zip_with List.filter snd].
  rewrite Forall_cons, <- (IH xs Hlen).
  destruct (Qc_leb d m) eqn:E.
  - apply Qc_leb_le in E. split; [done|]. intros [H _].
    by apply Qclt_not_le in H.
  - apply not_true_iff_false in E. rewrite Qc_leb_le in E.
    apply Qcnot_le_lt in E. tauto.
Qed.

Lemma known_distance ext rup mesh param dist :
  get_distances ext rup mesh param = Ok dist → param ∈ KNOWN_DISTANCES.
Proof.
  intros H. destruct (decide (param ∈ KNOWN_DISTANCES)) as [|Hout]; [done|].
  by rewrite get_distances_unknown in H.
Qed.

(** X8.  How [make_contexts] fails when no equivalent distances are in use,
    for a filter distance the module knows and at least one site.  It
    raises FarAwayRupture exactly when every site is beyond the maximum
    distance, whatever else is required.  With a site in reach it raises a
    ValueError when a required distance or a required rupture parameter is
    unknown, and returns otherwise: the required site parameters are never
    looked at. *)
Theorem make_contexts_errors ext (self : ContextMaker)
    (sites : SiteCollection) (rup : rupture) (radius_dist : option Qc)
    (dist : ndarray) :
  reqv self = None →
  sites_of sites ≠ [] →
  get_distances ext rup (sites_of sites) (filter_distance self) = Ok dist →
  let m := py_or radius_dist
             (maximum_distance self (tectonic_region_type rup) (mag rup)) in
  let known :=
    Forall (.∈ KNOWN_DISTANCES) (REQUIRES_DISTANCES self)
    ∧ Forall (.∈ RUPTURE_PARAMETERS) (REQUIRES_RUPTURE_PARAMETERS self) in
  match make_contexts ext self sites rup radius_dist with
  | Ok _ => ¬ Forall (λ x, m < x) (data dist) ∧ known
  | Raise e =>
      (Forall (λ x, m < x) (data dist) ∧ kind e = FarAwayRupture)
      ∨ (¬ Forall (λ x, m < x) (data dist) ∧ ¬ known ∧ kind e = ValueError)
  end.
Proof.
  intros Hreqv Hsites Hd m known.
  pose proof (filter_spec ext self sites rup radius_dist dist Hd) as Hf.
  cbv zeta in Hf. fold m in Hf.
  pose proof (no_close_site m (sites_of sites) (data dist)
                (get_distances_length _ _ _ _ _ Hd)) as Hfar.
  unfold make_contexts.
  destruct (filter ext self sites rup radius_dist) as [[s1 d1]|e].
  2: { destruct Hf as [Hnil He]. left. split; [by apply Hfar|by apply He]. }
  destruct Hf as (Hne & -> & ->). cbn [mbind result_bind].
  rewrite Hfar in Hne.
  set (close := List.filter (λ p : site * Qc, Qc_leb p.2 m)
                  (zip (sites_of sites) (data dist))) in *.
  pose proof (make_contexts_loop ext rup
    (sites_of (SiteCol (close.*1) (complete sites)))
    (List.filter (λ p, negb (bool_decide (p = filter_distance self)))
       (REQUIRES_DISTANCES self))
    {[ filter_distance self
       := NDArray [length (close.*2)] (close.*2) true ]}) as Hl.
  assert (Hall : Forall (.∈ KNOWN_DISTANCES)
                   (List.filter
                      (λ p, negb (bool_decide (p = filter_distance self)))
                      (REQUIRES_DISTANCES self))
                 ↔ Forall (.∈ KNOWN_DISTANCES) (REQUIRES_DISTANCES self)).
  { rewrite !Forall_forall. split.
    - intros H d Hin. destruct (decide (d = filter_distance self)) as [->|].
      + by eapply known_distance.
      + by apply H, elem_of_other_distances.
    - intros H d Hin%elem_of_other_distances. apply H, Hin. }
  destruct (foldlM _ _ _) as [d2|e].
  2: { destruct Hl as [Hl He]. right. split_and!; [done| |done].
       intros [H _]. by apply Hl, Hall. }
  destruct Hl as (Hknown & _). apply Hall in Hknown.
  rewrite Hreqv. cbn [mbind option_bind result_bind].
  destruct (decide (Forall (.∈ RUPTURE_PARAMETERS)
                      (REQUIRES_RUPTURE_PARAMETERS self))) as [Hreq|Hreq].
  - destruct (add_rup_params_known ext self rup rup Hreq)
      as (r2 & -> & _); [by destruct rup|]. done.
  - destruct (add_rup_params_unknown ext self rup) as (e & -> & He).
    { by apply not_Forall_Exists; [intros p; apply _|]. }
    right. split_and!; [done| |done]. by intros [_ H].
Qed.

Lemma make_contexts_aligned_witness :
  ∃ res,
    make_contexts Scenario.ext Example.cmaker Example.near_and_remote
      (Scenario.rup_of 7 None) None = Ok res
    ∧ sites_of res.1.2 ≠ []
    ∧ dom res.2 = {[ "rrup" ]} ∪ list_to_set ["rjb"; "rx"; "rrup"]
    ∧ ∀ d a, res.2 !! d = Some a →
             length (data a) = length (sites_of res.1.2).
Proof.
  apply is_Ok_elim; [apply is_Okb_true; vm_compute; reflexivity|].
  intros [[rup' sites'] dctx] H.
  destruct (make_contexts_aligned Scenario.ext Example.cmaker
              Example.near_and_remote (Scenario.rup_of 7 None) None
              rup' sites' dctx eq_refl H)
    as (Hne & _ & Hdom & Hlen & _).
  split_and!; [exact Hne|exact Hdom|].
  intros d a Ha. by apply (Hlen d a).
Defined.

Lemma make_contexts_errors_witness :
  ∃ e, make_contexts Scenario.ext Example.cmaker Scenario.remote_site
         (Scenario.rup_of 7 None) None = Raise e
       ∧ kind e = FarAwayRupture.
Proof.
  pose proof (make_contexts_errors Scenario.ext Example.cmaker
                Scenario.remote_site (Scenario.rup_of 7 None) None
                (NDArray [1%nat] [qc 300 1] false) eq_refl) as H.
  cbv zeta in H.
  destruct (make_contexts Scenario.ext Example.cmaker Scenario.remote_site
              (Scenario.rup_of 7 None) None) as [res|e].
  - exfalso. destruct H as [Hnear _]; [done|vm_compute; reflexivity|].
    apply Hnear. repeat constructor.
  - exists e. split; [reflexivity|].
    destruct H as [[_ He]|[Hnear _]]; [done|vm_compute; reflexivity|done|].
    exfalso. apply Hnear. repeat constructor.
Defined.

Lemma filter_raise_kinds ext self sites rup mdist e :
  filter ext self sites rup mdist = Raise e →
  kind e = FarAwayRupture ∨ kind e = ValueError.
Proof.
  unfold filter.
  destruct (get_distances ext rup (sites_of sites) (filter_distance self))
    as [dist|e1] eqn:Hd; cbn [mbind result_bind].
  - destruct (existsb id _); [done|].
    destruct (data dist); cbn; intros [= <-]; [by right|by left].
  - intros [= <-]. right.
    destruct (decide (filter_distance self ∈ KNOWN_DISTANCES)) as [Hin|Hout].
    + by destruct (get_distances_known ext rup (sites_of sites) _ Hin)
        as (v & _ & Hv); rewrite Hv in Hd.
    + rewrite get_distances_unknown in Hd by done. by injection Hd as <-.
Qed.

Lemma add_rup_params_raise ext self rup e :
  add_rup_params ext self rup = Raise e → kind e = ValueError.
Proof.
  intros H.
  destruct (decide (Forall (.∈ RUPTURE_PARAMETERS)
                      (REQUIRES_RUPTURE_PARAMETERS self))) as [Hreq|Hreq].
  - destruct (add_rup_params_known ext self rup rup Hreq)
      as (r2 & Hr & _); [by destruct rup|]. by rewrite Hr in H.
  - destruct (add_rup_params_unknown ext self rup) as (e' & He' & He).
    { by apply not_Forall_Exists; [intros p; apply _|]. }
    rewrite He' in H. by injection H as <-.
Qed.

(** X9.  On a ContextMaker built by the constructor, [make_contexts] fails
    with FarAwayRupture or ValueError only: the constructor requires repi
    whenever equivalent distances are given, so the epicentral distance
    read for them is always in the distance context. *)
Theorem make_contexts_after_init ext
    (IntegrationDistance_empty : string → Qc → Qc) (trt : string)
    (gsims : list gsim) (param : option param_t)
    (sites : SiteCollection) (rup : rupture) (radius_dist : option Qc)
    (e : exn) :
  make_contexts ext
    (ContextMaker_init IntegrationDistance_empty trt gsims param)
    sites rup radius_dist = Raise e →
  kind e = FarAwayRupture ∨ kind e = ValueError.
Proof.
  set (self := ContextMaker_init IntegrationDistance_empty trt gsims param).
  assert (Hrepi : is_Some (reqv self) → "repi" ∈ REQUIRES_DISTANCES self).
  { unfold self, ContextMaker_init. cbn [reqv REQUIRES_DISTANCES].
    destruct (p_reqv (default empty_param param)); [|by intros [? [=]]].
    intros _. apply set_add_elem. by left. }
  unfold make_contexts.
  destruct (filter ext self sites rup radius_dist) as [[s1 d1]|e1] eqn:Ef.
  2: { cbn. intros [= <-]. by eapply filter_raise_kinds. }
  cbn [mbind result_bind].
  pose proof (make_contexts_loop ext rup (sites_of s1)
    (List.filter (λ p, negb (bool_decide (p = filter_distance self)))
       (REQUIRES_DISTANCES self)) d1) as Hl.
  destruct (foldlM _ _ _) as [d2|e1].
  2: { cbn. intros [= <-]. right. apply Hl. }
  destruct Hl as (_ & Hdom & _).
  assert (Hfd : filter_distance self ∈ dom d1).
  { unfold filter in Ef.
    destruct (get_distances ext rup (sites_of sites) (filter_distance self));
      cbn [mbind result_bind] in Ef; [|done].
    destruct (existsb id _).
    - injection Ef as <- <-. rewrite dom_singleton_L. by apply elem_of_singleton.
    - by destruct (np_min _). }
  assert (Hlast : ∀ dctx : DistancesContext,
            (add_rup_params ext self rup
               ≫= λ rup0 : rupture, Ok (rup0, s1, dctx)) = Raise e →
            kind e = FarAwayRupture ∨ kind e = ValueError).
  { intros dctx.
    destruct (add_rup_params ext self rup) as [r2|e2] eqn:Ea; [done|].
    intros [= <-]. right. by eapply add_rup_params_raise. }
  cbn [mbind result_bind].
  destruct (reqv self) as [r|] eqn:Er;
    cbn [mbind option_bind result_bind]; [|apply Hlast].
  destruct (r !! tectonic_region_type rup) as [reqv_get|];
    cbn [mbind result_bind]; [|apply Hlast].
  destruct (is_planar (surface rup)); cbn [mbind result_bind]; [|apply Hlast].
  assert (Hin : "repi" ∈ dom d2).
  { rewrite Hdom, elem_of_union, elem_of_list_to_set.
    rewrite elem_of_other_distances.
    destruct (decide ("repi" = filter_distance self)) as [Heq|Hne].
    - left. by rewrite Heq.
    - right. split; [|done]. apply Hrepi. by eexists. }
  apply elem_of_dom in Hin as [repi Hin]. rewrite Hin.
  cbn [mbind result_bind]. apply Hlast.
Qed.

Lemma make_contexts_after_init_witness :
  ∃ e, make_contexts Scenario.ext Example.cmaker_reqv Scenario.one_site
         Example.planar_rup None = Raise e
       ∧ kind e = ValueError.
Proof.
  destruct (make_contexts Scenario.ext Example.cmaker_reqv Scenario.one_site
              Example.planar_rup None) as [res|e] eqn:E.
  - exfalso. vm_compute in E. discriminate E.
  - exists e. split; [reflexivity|].
    destruct (make_contexts_after_init _ _ _ _ _ _ _ _ _ E) as [He|He];
      [|exact He].
    exfalso. vm_compute in E. injection E as <-. discriminate He.
Defined.

(** ** RupData *)

Lemma rows_appended_nil (d : gmap string (list cell)) :
  rows_appended [] d d.
Proof. intros name. exists []. by rewrite app_nil_r. Qed.

Lemma rows_appended_app (l1 l2 : list string)
    (d d1 d2 : gmap string (list cell)) :
  rows_appended l1 d d1 → rows_appended l2 d1 d2 →
  rows_appended (l1 ++ l2) d d2.
Proof.
  intros H1 H2 name. destruct (H1 name) as (c1 & E1 & L1).
  destruct (H2 name) as (c2 & E2 & L2). exists (c1 ++ c2).
  rewrite E2, E1, <- app_assoc, length_app, count_occ_app. split; [done|lia].
Qed.

Lemma rows_appended_accum (k : string) (v : cell)
    (d : gmap string (list cell)) :
  rows_appended [k] d (accum_append k v d).
Proof.
  intros name. unfold column, accum_append. cbn [count_occ].
  destruct (String.string_dec k name) as [->|Hne].
  - rewrite lookup_insert_eq. by exists [v].
  - rewrite lookup_insert_ne by done. exists []. by rewrite app_nil_r.
Qed.

Lemma rows_appended_foldlM {A} (key : A → string)
    (body : gmap string (list cell) → A → result (gmap string (list cell)))
    (xs : list A) (d d' : gmap string (list cell)) :
  (∀ d x d', body d x = Ok d' → ∃ v, d' = accum_append (key x) v d) →
  foldlM body d xs = Ok d' →
  rows_appended (key <$> xs) d d'.
Proof.
  intros Hbody. revert d. induction xs as [|x xs IH]; intros d; cbn [foldlM].
  - intros [= <-]. apply rows_appended_nil.
  - destruct (body d x) as [d1|e] eqn:E; cbn [mbind result_bind]; [|done].
    intros Hrest. destruct (Hbody _ _ _ E) as [v ->].
    apply (rows_appended_app [key x] (key <$> xs) _ _ _
             (rows_appended_accum _ _ _) (IH _ Hrest)).
Qed.

Lemma RupData_add_rows ext cmaker self_data rup src_id sctx dctx data' :
  RupData_add ext cmaker self_data rup src_id sctx dctx = Ok data' →
  rows_appended (RupData_columns cmaker) self_data data'.
Proof.
  intros H. unfold RupData_add in H.
  destruct (foldlM _ _ (REQUIRES_RUPTURE_PARAMETERS cmaker)) as [d1|e]
    eqn:E1; cbn [mbind result_bind] in H; [|done].
  destruct (foldlM _ _ (REQUIRES_DISTANCES cmaker)) as [d2|e] eqn:E2;
    cbn [mbind result_bind] in H; [|done].
  injection H as <-.
  apply (rows_appended_foldlM id) in E1.
  2: { intros d x d'. destruct (rup_getattr ext rup x); cbn; [|done].
       intros [= <-]. by eexists. }
  apply (rows_appended_foldlM (λ dst_param, dst_param +:+ "_")) in E2.
  2: { intros d x d'.
       destruct (match dctx with Some _ => _ | None => _ end); cbn; [|done].
       intros [= <-]. by eexists. }
  rewrite list_fmap_id in E1. unfold RupData_columns.
  refine (rows_appended_app
            ["srcidx"; "occurrence_rate"; "weight"; "probs_occur"]
            _ _ _ _ _
            (rows_appended_app _ _ _ _ _ E1
               (rows_appended_app ["sid_"] _ _ _ _
                  (rows_appended_accum _ _ _)
                  (rows_appended_app _ ["lon_"; "lat_"] _ _ _ E2 _)))).
  - exact (rows_appended_app ["srcidx"] _ _ _ _
             (rows_appended_accum _ _ _)
             (rows_appended_app ["occurrence_rate"] _ _ _ _
                (rows_appended_accum _ _ _)
                (rows_appended_app ["weight"] ["probs_occur"] _ _ _
                   (rows_appended_accum _ _ _)
                   (rows_appended_accum _ _ _)))).
  - exact (rows_appended_app ["lon_"] ["lat_"] _ _ _
             (rows_appended_accum _ _ _) (rows_appended_accum _ _ _)).
Qed.

(** X10.  A call of [RupData.add] that returns has appended one cell to
    each column it names, in every column after the cells that were there:
    when no two of its columns share a name, columns of equal length stay
    of equal length, one row longer, and no other column changes. *)
Theorem RupData_add_appends_a_row ext (cmaker : ContextMaker)
    (self_data : gmap string (list cell)) (rup : rupture)
    (src_id : option Z) (sctx : SiteCollection)
    (dctx : option DistancesContext) (data' : gmap string (list cell)) :
  RupData_add ext cmaker self_data rup src_id sctx dctx = Ok data' →
  rows_appended (RupData_columns cmaker) self_data data'
  ∧ (NoDup (RupData_columns cmaker) →
     (∀ name, name ∈ RupData_columns cmaker →
              length (column data' name)
              = S (length (column self_data name)))
     ∧ (∀ name, name ∉ RupData_columns cmaker →
                column data' name = column self_data name)).
Proof.
  intros H. pose proof (RupData_add_rows _ _ _ _ _ _ _ _ H) as Hrows.
  split; [exact Hrows|]. intros Hnd. split.
  - intros name Hin. destruct (Hrows name) as (cells & -> & Hlen).
    rewrite length_app, Hlen.
    apply list_elem_of_In in Hin.
    apply NoDup_ListNoDup in Hnd.
    rewrite (proj1 (NoDup_count_occ' String.string_dec _) Hnd name Hin). lia.
  - intros name Hout. destruct (Hrows name) as (cells & -> & Hlen).
    rewrite (proj1 (count_occ_not_In String.string_dec _ name)) in Hlen.
    + destruct cells; [by rewrite app_nil_r|done].
    + by rewrite <- list_elem_of_In.
Qed.

Lemma RupData_add_appends_a_row_witness :
  ∃ data',
    RupData_add Scenario.ext Scenario.cmaker ∅ (Scenario.rup_of 7 None)
      (Some 1%Z) Scenario.one_site None = Ok data'
    ∧ ∀ name, name ∈ RupData_columns Scenario.cmaker →
              length (column data' name) = 1%nat.
Proof.
  apply is_Ok_elim; [apply is_Okb_true; vm_compute; reflexivity|].
  intros data' H name Hin.
  destruct (RupData_add_appends_a_row _ _ _ _ _ _ _ _ H) as [_ Hnd].
  destruct Hnd as [Hrow _]; [evaluate|]. by rewrite (Hrow name Hin).
Defined.

(** A loop whose steps all succeed or all fail, by a condition [known] that
    does not depend on the step, [w x] being the number of rows step [x]
    appends. *)
Lemma foldlM_rows {A} (known : Prop) (cols : list string) (w : A → nat)
    (body : gmap string (list cell) → A → result (gmap string (list cell)))
    (xs : list A) (d : gmap string (list cell)) :
  (∀ d x,
     match body d x with
     | Ok d' => (w x = 0%nat ∨ known)
                ∧ rows_appended (concat (replicate (w x) cols)) d d'
     | Raise e => w x ≠ 0%nat ∧ ¬ known ∧ kind e = ValueError
     end) →
  match foldlM body d xs with
  | Ok d' => (sum_list_with w xs = 0%nat ∨ known)
             ∧ rows_appended (concat (replicate (sum_list_with w xs) cols))
                 d d'
  | Raise e => sum_list_with w xs ≠ 0%nat ∧ ¬ known ∧ kind e = ValueError
  end.
Proof.
  intros Hbody. revert d. induction xs as [|x xs IH]; intros d; cbn [foldlM].
  - split; [by left|]. apply rows_appended_nil.
  - specialize (Hbody d x). cbn [sum_list_with].
    destruct (body d x) as [d1|e]; cbn [mbind result_bind].
    + destruct Hbody as [Hk Hrows]. specialize (IH d1).
      destruct (foldlM body d1 xs) as [d2|e].
      * destruct IH as [Hk2 Hrows2].
        split; [destruct Hk, Hk2; (by right) || (left; lia)|].
        rewrite replicate_add, concat_app. by eapply rows_appended_app.
      * destruct IH as (Hn & Hk2 & He). split_and!; [lia|done..].
    + destruct Hbody as (Hn & Hk & He). split_and!; [lia|done..].
Qed.

Lemma foldlM_cases {S A} (good : A → Prop) (P : exn → Prop)
    (body : S → A → result S) (xs : list A) (st : S) :
  (∀ st x, match body st x with
           | Ok _ => good x
           | Raise e => ¬ good x ∧ P e
           end) →
  match foldlM body st xs with
  | Ok _ => Forall good xs
  | Raise e => ¬ Forall good xs ∧ P e
  end.
Proof.
  intros Hbody. revert st.
  induction xs as [|x xs IH]; intros st; cbn [foldlM]; [done|].
  specialize (Hbody st x).
  destruct (body st x) as [st1|e]; cbn [mbind result_bind].
  - specialize (IH st1). destruct (foldlM body st1 xs) as [st2|e].
    + by constructor.
    + destruct IH as [Hn He]. split; [|done]. by intros [_ H]%Forall_cons.
  - destruct Hbody as [Hn He]. split; [|done]. by intros [H _]%Forall_cons.
Qed.

Lemma RupData_add_computed ext cmaker self_data rup src_id sctx :
  Forall (λ p, is_Some (params rup !! p))
    (REQUIRES_RUPTURE_PARAMETERS cmaker) →
  match RupData_add ext cmaker self_data rup src_id sctx None with
  | Ok _ => Forall (.∈ KNOWN_DISTANCES) (REQUIRES_DISTANCES cmaker)
  | Raise e => ¬ Forall (.∈ KNOWN_DISTANCES) (REQUIRES_DISTANCES cmaker)
               ∧ kind e = ValueError
  end.
Proof.
  intros Hparams. unfold RupData_add.
  match goal with
  | |- context [foldlM ?body ?d (REQUIRES_RUPTURE_PARAMETERS cmaker)] =>
      pose proof (foldlM_cases (λ p, is_Some (params rup !! p)
                                     ∨ p = "mag" ∨ p = "rake")
                    (λ _, True) body
                    (REQUIRES_RUPTURE_PARAMETERS cmaker) d) as H1;
      destruct (foldlM body d (REQUIRES_RUPTURE_PARAMETERS cmaker))
        as [d1|e]
  end.
  2: { exfalso. destruct H1 as [H1 _].
       - intros st x. unfold rup_getattr.
         destruct (params rup !! x); cbn; [left; by eexists|].
         repeat case_decide; cbn; [tauto..|].
         split; [|done]. intros [[? [=]]|[?|?]]; done.
       - apply H1. eapply Forall_impl; [exact Hparams|]. tauto. }
  clear H1. cbn [mbind result_bind].
  match goal with
  | |- context [foldlM ?body ?d (REQUIRES_DISTANCES cmaker)] =>
      pose proof (foldlM_cases (.∈ KNOWN_DISTANCES)
                    (λ e, kind e = ValueError) body
                    (REQUIRES_DISTANCES cmaker) d) as H2;
      destruct (foldlM body d (REQUIRES_DISTANCES cmaker)) as [d2|e]
  end.
  - apply H2. intros st x.
    destruct (decide (x ∈ KNOWN_DISTANCES)) as [Hx|Hx].
    + by destruct (get_distances_known ext rup (sites_of sctx) x Hx)
        as (v & _ & ->).
    + by rewrite (get_distances_unknown ext rup (sites_of sctx) x Hx).
  - cbn [mbind result_bind]. apply H2. intros st x.
    destruct (decide (x ∈ KNOWN_DISTANCES)) as [Hx|Hx].
    + by destruct (get_distances_known ext rup (sites_of sctx) x Hx)
        as (v & _ & ->).
    + by rewrite (get_distances_unknown ext rup (sites_of sctx) x Hx).
Qed.

Lemma RupData_from_srcs_step ext cmaker self_data rup src sites :
  let known :=
    Forall (.∈ RUPTURE_PARAMETERS) (REQUIRES_RUPTURE_PARAMETERS cmaker)
    ∧ Forall (.∈ KNOWN_DISTANCES) (REQUIRES_DISTANCES cmaker) in
  match rup ← add_rup_params ext cmaker rup;
        RupData_add ext cmaker self_data rup (Some (src_id src)) sites None
  with
  | Ok data' =>
      known ∧ rows_appended (RupData_columns cmaker) self_data data'
  | Raise e => ¬ known ∧ kind e = ValueError
  end.
Proof.
  intros known.
  destruct (decide (Forall (.∈ RUPTURE_PARAMETERS)
                      (REQUIRES_RUPTURE_PARAMETERS cmaker))) as [Hreq|Hreq].
  - destruct (add_rup_params_known ext cmaker rup rup Hreq)
      as (r2 & -> & _ & Hin & _); [by destruct rup|].
    cbn [mbind result_bind].
    pose proof (RupData_add_computed ext cmaker self_data r2
                  (Some (src_id src)) sites) as Hadd.
    destruct (RupData_add ext cmaker self_data r2 (Some (src_id src)) sites
                None) as [data'|e] eqn:E.
    + split; [split; [done|]|by eapply RupData_add_rows].
      apply Hadd. apply Forall_forall. intros p Hp. rewrite (Hin p Hp).
      eapply Forall_forall in Hreq; [|exact Hp].
      unfold RUPTURE_PARAMETERS in Hreq.
      rewrite !elem_of_cons, elem_of_nil in Hreq.
      repeat destruct Hreq as [->|Hreq]; [by eexists..|done].
    + destruct Hadd as [Hn He]; [|split; [by intros [_ H]|done]].
      apply Forall_forall. intros p Hp. rewrite (Hin p Hp).
      eapply Forall_forall in Hreq; [|exact Hp].
      unfold RUPTURE_PARAMETERS in Hreq.
      rewrite !elem_of_cons, elem_of_nil in Hreq.
      repeat destruct Hreq as [->|Hreq]; [by eexists..|done].
  - destruct (add_rup_params_unknown ext cmaker rup) as (e & -> & He).
    { by apply not_Forall_Exists; [intros p; apply _|]. }
    cbn. split; [by intros [H _]|done].
Qed.

Lemma count_occ_rows (n : nat) (cols : list string) (name : string) :
  count_occ String.string_dec (concat (replicate n cols)) name
  = (n * count_occ String.string_dec cols name)%nat.
Proof.
  induction n as [|n IH]; [done|]. cbn. rewrite count_occ_app, IH. lia.
Qed.

Lemma sum_list_with_one {A} (xs : list A) :
  sum_list_with (λ _, 1%nat) xs = length xs.
Proof. induction xs as [|x xs IH]; [done|]. cbn. by rewrite IH. Qed.

(** X11.  [RupData.from_srcs] adds one row for every rupture of every
    source, after the rows that were there, when every required rupture
    parameter and every required distance is one the module knows.  When
    one of them is unknown it raises a ValueError as soon as there is a
    rupture, and returns the data as they were when there is none. *)
Theorem RupData_from_srcs_rows (ext : collaborators) (cmaker : ContextMaker)
    (iter_ruptures : source → list rupture)
    (self_data : gmap string (list cell)) (srcs : list source)
    (sites : SiteCollection) :
  let n := sum_list_with (λ src, length (iter_ruptures src)) srcs in
  let known :=
    Forall (.∈ RUPTURE_PARAMETERS) (REQUIRES_RUPTURE_PARAMETERS cmaker)
    ∧ Forall (.∈ KNOWN_DISTANCES) (REQUIRES_DISTANCES cmaker) in
  match RupData_from_srcs ext cmaker iter_ruptures self_data srcs sites with
  | Ok data' =>
      (n = 0%nat ∨ known)
      ∧ ∀ name, ∃ cells,
          column data' name = column self_data name ++ cells
          ∧ length cells
            = (n * count_occ String.string_dec (RupData_columns cmaker)
                     name)%nat
  | Raise e => n ≠ 0%nat ∧ ¬ known ∧ kind e = ValueError
  end.
Proof.
  intros n known. unfold RupData_from_srcs.
  set (inner := λ (src : source) (self_data : gmap string (list cell))
                  (rup : rupture),
         rup ← add_rup_params ext cmaker rup;
         RupData_add ext cmaker self_data rup (Some (src_id src)) sites None).
  assert (Hinner : ∀ d src,
            match foldlM (inner src) d (iter_ruptures src) with
            | Ok d' =>
                (length (iter_ruptures src) = 0%nat ∨ known)
                ∧ rows_appended
                    (concat (replicate (length (iter_ruptures src))
                               (RupData_columns cmaker))) d d'
            | Raise e => length (iter_ruptures src) ≠ 0%nat
                         ∧ ¬ known ∧ kind e = ValueError
            end).
  { intros d src.
    pose proof (foldlM_rows known (RupData_columns cmaker) (λ _, 1%nat)
                  (inner src) (iter_ruptures src) d) as H.
    rewrite sum_list_with_one in H. apply H. clear H.
    intros d1 rup. cbn [replicate concat]. rewrite app_nil_r.
    pose proof (RupData_from_srcs_step ext cmaker d1 rup src sites) as Hs.
    cbv zeta in Hs. fold known in Hs. fold (inner src d1 rup) in Hs.
    destruct (inner src d1 rup) as [d2|e'].
    - destruct Hs. split; [by right|done].
    - destruct Hs. done. }
  pose proof (foldlM_rows known (RupData_columns cmaker)
                (λ src, length (iter_ruptures src))
                (λ self_data src,
                   foldlM (inner src) self_data (iter_ruptures src))
                srcs self_data Hinner) as H.
  fold n in H.
  destruct (foldlM _ self_data srcs) as [data'|e]; [|exact H].
  destruct H as [Hk Hrows]. split; [exact Hk|]. intros name.
  destruct (Hrows name) as (cells & Hc & Hlen). exists cells.
  by rewrite <- count_occ_rows.
Qed.

(** ** get_num_distances *)

Lemma get_num_distances_set (gsims : list gsim) (dists : gset string) :
  ∀ x, x ∈ foldl (λ (dists : gset string) gsim,
                    dists ∪ list_to_set (gsim_REQUIRES_DISTANCES gsim))
             dists gsims
       ↔ x ∈ dists ∨ ∃ gsim, gsim ∈ gsims ∧ x ∈ gsim_REQUIRES_DISTANCES gsim.
Proof.
  revert dists. induction gsims as [|g gsims IH]; intros dists x; cbn.
  - split; [by left|]. intros [?|(g & Hg & _)]; [done|].
    by apply elem_of_nil in Hg.
  - rewrite IH, elem_of_union, elem_of_list_to_set. split.
    + intros [[?|?]|(g' & Hg' & Hx)]; [by left|right..].
      * exists g. split; [apply list_elem_of_here|done].
      * exists g'. split; [by apply list_elem_of_further|done].
    + intros [?|(g' & Hg' & Hx)]; [by left; left|].
      apply elem_of_cons in Hg' as [->|Hg']; [by left; right|].
      right. by exists g'.
Qed.

Lemma set_add_length (name : string) (reqset : list string) :
  (length reqset ≤ length (set_add name reqset) ≤ S (length reqset))%nat.
Proof.
  unfold set_add. case_bool_decide; [lia|]. rewrite length_app. cbn. lia.
Qed.

(** X12.  [get_num_distances] counts the distinct distances the GSIMs
    require: at most ten when all of them are known to the module.  A
    ContextMaker built on the same GSIMs requires these distances and at
    most two more, the filter distance and repi. *)
Theorem get_num_distances_counts
    (IntegrationDistance_empty : string → Qc → Qc) (trt : string)
    (gsims : list gsim) (param : option param_t) :
  let self := ContextMaker_init IntegrationDistance_empty trt gsims param in
  get_num_distances gsims
  = length (requires_union gsim_REQUIRES_DISTANCES gsims)
  ∧ (get_num_distances gsims ≤ length (REQUIRES_DISTANCES self)
     ≤ get_num_distances gsims + 2)%nat
  ∧ (Forall (λ gsim, Forall (.∈ KNOWN_DISTANCES)
                       (gsim_REQUIRES_DISTANCES gsim)) gsims →
     (get_num_distances gsims ≤ 10)%nat).
Proof.
  intros self.
  destruct (requires_union_spec gsim_REQUIRES_DISTANCES gsims) as [Hnd Hin].
  assert (Hset : foldl (λ (dists : gset string) gsim,
                          dists ∪ list_to_set (gsim_REQUIRES_DISTANCES gsim))
                   ∅ gsims
                 = list_to_set (requires_union gsim_REQUIRES_DISTANCES gsims)).
  { apply set_eq. intros x.
    rewrite get_num_distances_set, elem_of_list_to_set, Hin, elem_of_empty.
    tauto. }
  assert (Hnum : get_num_distances gsims
                 = length (requires_union gsim_REQUIRES_DISTANCES gsims)).
  { unfold get_num_distances. rewrite Hset. by apply size_list_to_set. }
  split_and!; [exact Hnum| | |].
  - rewrite Hnum. unfold self, ContextMaker_init. cbn [REQUIRES_DISTANCES].
    destruct (p_reqv (default empty_param param)).
    + etrans; [|apply set_add_length]. apply set_add_length.
    + apply set_add_length.
  - rewrite Hnum. unfold self, ContextMaker_init. cbn [REQUIRES_DISTANCES].
    destruct (p_reqv (default empty_param param)).
    + etrans; [apply set_add_length|].
      pose proof (set_add_length
        match p_filter_distance (default empty_param param) with
        | Some given => given
        | None =>
            if bool_decide
                 ("rrup" ∈ requires_union gsim_REQUIRES_DISTANCES gsims)
            then "rrup"
            else if bool_decide
                      ("rjb" ∈ requires_union gsim_REQUIRES_DISTANCES gsims)
                 then "rjb" else "rrup"
        end (requires_union gsim_REQUIRES_DISTANCES gsims)). lia.
    + etrans; [apply set_add_length|]. lia.
  - intros Hknown. unfold get_num_distances. rewrite Hset.
    change 10%nat with (size (list_to_set KNOWN_DISTANCES : gset string)).
    apply subseteq_size. intros x.
    rewrite !elem_of_list_to_set, Hin. intros (g & Hg & Hx).
    eapply Forall_forall in Hknown; [|exact Hg].
    eapply Forall_forall in Hknown; [exact Hknown|exact Hx].
Qed.

Lemma get_num_distances_counts_witness :
  (get_num_distances [Example.gsim_rjb; Scenario.gsim0] ≤ 10)%nat.
Proof.
  refine (proj2 (proj2 (get_num_distances_counts (λ _ _, 0) ""
            [Example.gsim_rjb; Scenario.gsim0] None)) _).
  repeat constructor;
    apply (bool_decide_eq_true_1 (_ ∈ KNOWN_DISTANCES)); reflexivity.
Defined.

(** ** The nonparametric probabilities of no exceedance *)

Lemma Qcpower_mono (a b : Qc) (k : nat) : 0 ≤ a → a ≤ b → 0 ≤ a ^ k ≤ b ^ k.
Proof.
  intros Ha Hab. assert (Hb : 0 ≤ b) by by trans a.
  induction k as [|k [IH0 IH1]]; simpl.
  - split; [done|apply Qcle_refl].
  - split; [by apply Qcmult_nonneg_nonneg|].
    trans (b * a ^ k).
    + by apply Qcmult_le_compat_r.
    + rewrite !(Qcmult_comm b). by apply Qcmult_le_compat_r.
Qed.

Lemma sum_weighted_mono (c c' : nat → Qc) (p : list Qc) :
  (∀ k, 0 ≤ c k ≤ c' k) → Forall (λ q, 0 ≤ q) p →
  0 ≤ sum_Qc (imap (λ k q, q * c k) p)
  ∧ sum_Qc (imap (λ k q, q * c k) p) ≤ sum_Qc (imap (λ k q, q * c' k) p).
Proof.
  intros Hc Hp. revert c c' Hc.
  induction Hp as [|q p Hq Hp IH]; intros c c' Hc; simpl.
  - split; [done|apply Qcle_refl].
  - destruct (IH (c ∘ S) (c' ∘ S)) as [IH0 IH1]; [intros k; apply Hc|].
    destruct (Hc 0%nat) as [Hc0 Hc1]. split.
    + apply Qcplus_nonneg_nonneg; [by apply Qcmult_nonneg_nonneg|done].
    + apply Qcplus_le_compat; [|done].
      rewrite !(Qcmult_comm q). by apply Qcmult_le_compat_r.
Qed.

Lemma pne_sum_antitone (p : list Qc) (x y : Qc) :
  Forall (λ q, 0 ≤ q) p → x ≤ y → y ≤ 1 →
  0 ≤ pne_sum p y ∧ pne_sum p y ≤ pne_sum p x.
Proof.
  intros Hp Hxy Hy. unfold pne_sum.
  apply (sum_weighted_mono (λ k, (1 - y) ^ k) (λ k, (1 - x) ^ k)); [|done].
  intros k. apply Qcpower_mono.
  - apply (Qcplus_le_mono_r _ _ y). ring_simplify. done.
  - apply (Qcplus_le_mono_r _ _ (x + y - 1)). ring_simplify. done.
Qed.

(** X13.  For a nonparametric rupture whose [probs_occur] is a probability
    mass function and an array of poes in [0, 1], every value returned is a
    probability, and a higher poe never gives a higher probability of no
    exceedance. *)
Theorem get_probability_no_exceedance_antitone
    (self : rupture) (poes : ndarray) :
  occurrence_rate self = NaN →
  is_pmf (probs_occur self) →
  Forall in_unit (data poes) →
  shape poes ≠ [] →
  data poes ≠ [] →
  ∃ pne, get_probability_no_exceedance self poes = Ok (NpArray pne)
    ∧ length (data pne) = length (data poes)
    ∧ Forall in_unit (data pne)
    ∧ ∀ i j x y a b,
        data poes !! i = Some x → data poes !! j = Some y →
        data pne !! i = Some a → data pne !! j = Some b →
        x ≤ y → b ≤ a.
Proof.
  intros Hnan Hpmf Hunit Hs Hd.
  assert (Hp : probs_occur self ≠ []).
  { destruct Hpmf as [_ Hsum]. intros E. rewrite E in Hsum. done. }
  rewrite (get_probability_no_exceedance_array self poes Hnan Hp Hd Hs).
  eexists. split; [reflexivity|]. cbn [data].
  split_and!.
  - by rewrite length_fmap.
  - apply Forall_fmap. eapply Forall_impl; [exact Hunit|].
    intros x Hx. cbn. rewrite (pne_elem_pmf _ _ Hpmf Hx). split.
    + apply (pne_sum_antitone _ x x); [apply Hpmf|apply Qcle_refl|apply Hx].
    + by apply pne_sum_le_1.
  - intros i j x y a b Hx Hy Ha Hb Hxy.
    rewrite list_lookup_fmap, Hx in Ha. rewrite list_lookup_fmap, Hy in Hb.
    injection Ha as <-. injection Hb as <-.
    assert (Hx' : in_unit x).
    { eapply Forall_forall in Hunit; [exact Hunit|].
      by eapply list_elem_of_lookup_2. }
    assert (Hy' : in_unit y).
    { eapply Forall_forall in Hunit; [exact Hunit|].
      by eapply list_elem_of_lookup_2. }
    rewrite !pne_elem_pmf by done.
    apply pne_sum_antitone; [apply Hpmf|done|apply Hy'].
Qed.

Lemma get_probability_no_exceedance_antitone_witness :
  ∃ pne, get_probability_no_exceedance Scenario.rup_np
           (NDArray [2%nat] [qc 1 10; qc 1 2] true) = Ok (NpArray pne)
    ∧ Forall in_unit (data pne).
Proof.
  destruct (get_probability_no_exceedance_antitone Scenario.rup_np
              (NDArray [2%nat] [qc 1 10; qc 1 2] true))
    as (pne & Hpne & _ & Hunit & _).
  - reflexivity.
  - split; [by repeat constructor|evaluate].
  - by repeat constructor.
  - discriminate.
  - discriminate.
  - exists pne. by split.
Defined.

(** ** _gen_rups_sites *)

Lemma _gen_rups_sites_from_plain ext self src sites loc mag_rups :
  loc = None ∨ (length (sites_of sites) ≤ max_sites_disagg self)%nat →
  _gen_rups_sites_from ext self src sites loc mag_rups
  = (λ mr : Qc * list rupture, Ok (RupList mr.2, sites, None)) <$> mag_rups.
Proof.
  intros Hplain. induction mag_rups as [|[mag rups] mag_rups IH]; [done|].
  cbn [_gen_rups_sites_from fmap list_fmap].
  assert (Hstep : _gen_rups_sites_mag ext self src sites loc mag rups
                  = Ok (loc, [(RupList rups, sites, None)])).
  { unfold _gen_rups_sites_mag. destruct loc as [loc0|]; [|done].
    destruct Hplain as [|Hfew]; [done|].
    by apply Nat.ltb_ge in Hfew as ->. }
  rewrite Hstep. cbn. by rewrite IH.
Qed.

Lemma _gen_rups_sites_mag_items ext self src sites loc mag rups0 loc' items :
  (is_Some loc → is_Some (location src)) →
  _gen_rups_sites_mag ext self src sites loc mag rups0 = Ok (loc', items) →
  (is_Some loc' → is_Some (location src))
  ∧ (0 < length items ≤ 2)%nat
  ∧ Forall (yielded_for self src sites mag rups0) items.
Proof.
  intros Hloc E.
  assert (Hmin : ∀ a b, Qc_min a b ≤ b).
  { intros a b. unfold Qc_min. destruct (Qc_leb a b) eqn:Eab.
    - by apply Qc_leb_le.
    - apply Qcle_refl. }
  assert (Hmdist :
            match max_radius self with
            | Some max_radius =>
                Qc_min (max_radius * _get_max_rupture_projection_radius src mag)
                  (maximum_distance self (src_tectonic_region_type src) mag)
            | None => maximum_distance self (src_tectonic_region_type src) mag
            end ≤ maximum_distance self (src_tectonic_region_type src) mag).
  { destruct (max_radius self); [apply Hmin|apply Qcle_refl]. }
  unfold _gen_rups_sites_mag in E.
  destruct loc as [loc0|].
  2: { injection E as <- <-. split_and!; [done|cbn; lia..|].
       by repeat constructor. }
  destruct (max_sites_disagg self <? length (sites_of sites))%nat eqn:Hmany.
  2: { injection E as <- <-. split_and!; [done|cbn; lia..|].
       by repeat constructor. }
  apply Nat.ltb_lt in Hmany.
  assert (Hsrc : is_Some (location src)) by by apply Hloc.
  destruct Hsrc as [l Hl]. rewrite Hl in E.
  case_bool_decide as Hsimple.
  - cbn [mbind result_bind] in E. injection E as <- <-.
    split_and!; [done|cbn; lia..|].
    constructor; [|done]. split; [done|]. cbn. rewrite Hl.
    split_and!; [by eexists|done|exact Hmdist].
  - destruct (match hypocenter_distribution src with
              | [] => _ | _ => _ end) as [loc1|e];
      cbn [mbind result_bind] in E; [|done].
    destruct (split ext sites loc1 _) as [far|close|close far].
    + destruct (_collapse rups0) as [rup|e] eqn:Ec;
        cbn [mbind result_bind] in E; [|done].
      injection E as <- <-. split_and!; [done|cbn; lia..|].
      constructor; [|done]. split; cbn; rewrite ?Hl.
      * split_and!; [done..|by eexists].
      * split_and!; [by eexists|done|exact Hmdist].
    + injection E as <- <-. split_and!; [done|cbn; lia..|].
      constructor; [|done]. split; [done|]. cbn. rewrite Hl.
      split_and!; [by eexists|done|exact Hmdist].
    + destruct (_collapse rups0) as [rup|e] eqn:Ec;
        cbn [mbind result_bind] in E; [|done].
      injection E as <- <-. split_and!; [done|cbn; lia..|].
      constructor; [|constructor; [|done]]; split; cbn; rewrite ?Hl.
      * split_and!; [done..|by eexists].
      * split_and!; [by eexists|done|exact Hmdist].
      * done.
      * split_and!; [by eexists|done|exact Hmdist].
Qed.

(** X14.  For a source without a location, or for no more sites than
    [max_sites_disagg], the generator yields one item for every magnitude:
    the ruptures of the magnitude, all the sites and no distance.  It does
    not raise and collapses nothing. *)
Theorem gen_rups_sites_plain ext (self : ContextMaker) (src : source)
    (sites : SiteCollection) :
  location src = None
  ∨ (length (sites_of sites) ≤ max_sites_disagg self)%nat →
  _gen_rups_sites ext self src sites
  = (λ mr : Qc * list rupture, Ok (RupList mr.2, sites, None))
      <$> gen_mag_ruptures src.
Proof.
  intros Hplain. unfold _gen_rups_sites.
  apply _gen_rups_sites_from_plain.
  destruct Hplain as [->|Hfew]; [by left|by right].
Qed.

Lemma gen_rups_sites_plain_witness :
  _gen_rups_sites Scenario.ext Scenario.cmaker
    (Scenario.src_of Scenario.two_rups) Scenario.one_site
  = [Ok (RupList Scenario.two_rups, Scenario.one_site, None)].
Proof.
  apply (gen_rups_sites_plain Scenario.ext Scenario.cmaker
           (Scenario.src_of Scenario.two_rups) Scenario.one_site).
  left. reflexivity.
Defined.

Lemma _gen_rups_sites_from_length ext self src sites loc mag_rups :
  (is_Some loc → is_Some (location src)) →
  (length (_gen_rups_sites_from ext self src sites loc mag_rups)
   ≤ 2 * length mag_rups)%nat.
Proof.
  revert loc. induction mag_rups as [|[mag rups0] mag_rups IH]; intros loc Hloc;
    cbn [_gen_rups_sites_from length]; [lia|].
  destruct (_gen_rups_sites_mag ext self src sites loc mag rups0)
    as [[loc' items]|e] eqn:E; [|cbn; lia].
  destruct (_gen_rups_sites_mag_items _ _ _ _ _ _ _ _ _ Hloc E)
    as (Hloc' & Hlen & _).
  rewrite length_app, length_fmap. specialize (IH loc' Hloc'). lia.
Qed.

Lemma _gen_rups_sites_mag_example :
  ∃ rup mdist,
    _gen_rups_sites Example.ext_far Example.cmaker_collapse Example.point_src
      Scenario.one_site
    = [Ok (OneRupture rup, Scenario.one_site, Some mdist)].
Proof.
  destruct (_gen_rups_sites Example.ext_far Example.cmaker_collapse
              Example.point_src Scenario.one_site)
    as [|[[[[rups|rup] sites] [mdist|]]|e] [|item2 items]] eqn:E;
    try (exfalso; vm_compute in E; discriminate E).
  exists rup, mdist.
  assert (sites = Scenario.one_site) as ->; [|done].
  vm_compute in E. by injection E.
Defined.

Lemma _gen_rups_sites_from_groups ext self src sites loc mag_rups :
  (is_Some loc → is_Some (location src)) →
  ∃ (groups : list (list (rups_t * SiteCollection * option Qc)))
    (tail : list (result (rups_t * SiteCollection * option Qc))),
    _gen_rups_sites_from ext self src sites loc mag_rups
    = (Ok <$> concat groups) ++ tail
    ∧ Forall2 (λ (mr : Qc * list rupture) group,
                 (0 < length group ≤ 2)%nat
                 ∧ Forall (yielded_for self src sites mr.1 mr.2) group)
        (take (length groups) mag_rups) groups
    ∧ (tail = [] ∧ length groups = length mag_rups
       ∨ ∃ e, tail = [Raise e] ∧ (length groups < length mag_rups)%nat).
Proof.
  revert loc. induction mag_rups as [|[mag rups0] mag_rups IH]; intros loc Hloc;
    cbn [_gen_rups_sites_from].
  - exists [], []. split_and!; [done|constructor|by left].
  - destruct (_gen_rups_sites_mag ext self src sites loc mag rups0)
      as [[loc' items]|e] eqn:E.
    + destruct (_gen_rups_sites_mag_items _ _ _ _ _ _ _ _ _ Hloc E)
        as (Hloc' & Hlen & Hitems).
      destruct (IH loc' Hloc') as (groups & tail & -> & Hgroups & Htail).
      exists (items :: groups), tail. split_and!.
      * cbn [concat]. by rewrite fmap_app, <- app_assoc.
      * cbn [length take]. by constructor.
      * destruct Htail as [[-> Hl]|(e & -> & Hl)]; [left|right].
        -- split; [done|]. cbn. by rewrite Hl.
        -- exists e. split; [done|]. cbn. lia.
    + exists [], [Raise e]. split_and!; [done|constructor|].
      right. exists e. split; [done|]. cbn. lia.
Qed.

(** X15.  What the generator yields is, magnitude after magnitude of the
    source and in their order, one or two items for each, up to the end or
    up to a magnitude whose turn raises, the exception coming last.  An item
    holds the ruptures of its magnitude, or the one rupture they collapse
    to, which happens only for a point source with more than one nodal plane
    or hypocenter; its distance, when it has one, is at most the maximum
    distance of the magnitude, and it has one only for a source with a
    location and more sites than [max_sites_disagg]. *)
Theorem gen_rups_sites_items ext (self : ContextMaker) (src : source)
    (sites : SiteCollection) :
  ∃ (groups : list (list (rups_t * SiteCollection * option Qc)))
    (tail : list (result (rups_t * SiteCollection * option Qc))),
    _gen_rups_sites ext self src sites = (Ok <$> concat groups) ++ tail
    ∧ Forall2 (λ (mr : Qc * list rupture) group,
                 (0 < length group ≤ 2)%nat
                 ∧ Forall (yielded_for self src sites mr.1 mr.2) group)
        (take (length groups) (gen_mag_ruptures src)) groups
    ∧ (tail = [] ∧ length groups = length (gen_mag_ruptures src)
       ∨ ∃ e, tail = [Raise e]
              ∧ (length groups < length (gen_mag_ruptures src))%nat)
    ∧ (length (_gen_rups_sites ext self src sites)
       ≤ 2 * length (gen_mag_ruptures src))%nat
    ∧ ∀ item, Ok item ∈ _gen_rups_sites ext self src sites →
        ∃ mag rups0, (mag, rups0) ∈ gen_mag_ruptures src
                     ∧ yielded_for self src sites mag rups0 item.
Proof.
  destruct (_gen_rups_sites_from_groups ext self src sites (location src)
              (gen_mag_ruptures src)) as (groups & tail & E & Hgroups & Htail);
    [done|].
  exists groups, tail. fold (_gen_rups_sites ext self src sites) in E.
  split_and!; [exact E|exact Hgroups|exact Htail| |].
  - apply _gen_rups_sites_from_length. done.
  - intros item Hin. rewrite E in Hin.
    apply elem_of_app in Hin as [Hin|Hin].
    2: { destruct Htail as [[-> _]|(e & -> & _)].
         - by apply elem_of_nil in Hin.
         - by apply list_elem_of_singleton in Hin. }
    apply list_elem_of_fmap in Hin as (it & [= <-] & Hin).
    apply list_elem_of_In, in_concat in Hin as (group & Hgroup & Hit).
    apply list_elem_of_In in Hgroup, Hit.
    apply list_elem_of_lookup in Hgroup as [i Hi].
    destruct (Forall2_lookup_r _ _ _ _ _ Hgroups Hi)
      as ([mag rups0] & Hmr & _ & Hall).
    exists mag, rups0. split.
    + apply lookup_take_Some in Hmr as [Hmr _].
      by eapply list_elem_of_lookup_2.
    + eapply Forall_forall in Hall; [exact Hall|exact Hit].
Qed.

(** ** get_pmap *)

Lemma foldlM_raises_at {S A} (body : S → A → result S) (xs : list A) (x : A)
    (st : S) :
  x ∈ xs → (∀ st, ∃ e, body st x = Raise e) →
  ∃ e, foldlM body st xs = Raise e.
Proof.
  intros Hin Hx. revert st.
  induction xs as [|y xs IH]; intros st; [by apply elem_of_nil in Hin|].
  cbn [foldlM]. destruct (body st y) as [st1|e] eqn:E; [|by eexists].
  cbn [mbind result_bind].
  apply elem_of_cons in Hin as [->|Hin]; [|by apply IH].
  destruct (Hx st) as [e He]. congruence.
Qed.

(** X16.  [get_pmap] cannot process what the generator yields for the far
    sites of a point source: the rupture [_collapse] returns stands where
    the loop expects a list of ruptures.  Whenever such an item is yielded
    [get_pmap] raises, and when it is the first item the exception is the
    TypeError of iterating over a rupture. *)
Theorem get_pmap_collapsed_raises ext (self : ContextMaker) (src : source)
    (s_sites : SiteCollection) (rup_indep : bool)
    (rup : rupture) (far_sites : SiteCollection) (magdist : option Qc) :
  Ok (OneRupture rup, far_sites, magdist)
    ∈ _gen_rups_sites ext self src s_sites →
  (∃ e, get_pmap ext self src s_sites rup_indep = Raise e)
  ∧ (head (_gen_rups_sites ext self src s_sites)
     = Some (Ok (OneRupture rup, far_sites, magdist)) →
     get_pmap ext self src s_sites rup_indep
     = Raise (Exn TypeError "rupture object is not iterable" ["get_pmap"])).
Proof.
  intros Hin. unfold get_pmap. split.
  - match goal with
    | |- context [foldlM ?body ?st0 ?items] =>
        destruct (foldlM_raises_at body items
                    (Ok (OneRupture rup, far_sites, magdist)) st0 Hin)
          as [e He]
    end.
    + intros st. by eexists.
    + rewrite He. by eexists.
  - destruct (_gen_rups_sites ext self src s_sites) as [|item items];
      [done|].
    intros [= ->]. reflexivity.
Qed.

Lemma get_pmap_collapsed_raises_witness :
  get_pmap Example.ext_far Example.cmaker_collapse Example.point_src
    Scenario.one_site true
  = Raise (Exn TypeError "rupture object is not iterable" ["get_pmap"]).
Proof.
  destruct _gen_rups_sites_mag_example as (rup & mdist & E).
  refine (proj2 (get_pmap_collapsed_raises Example.ext_far
                   Example.cmaker_collapse Example.point_src
                   Scenario.one_site true rup Scenario.one_site (Some mdist)
                   _) _).
  - rewrite E. apply list_elem_of_here.
  - by rewrite E.
Defined.

Lemma filter_nonempty ext self sites rup mdist sites' dctx :
  filter ext self sites rup mdist = Ok (sites', dctx) → sites_of sites' ≠ [].
Proof.
  intros H.
  destruct (get_distances ext rup (sites_of sites) (filter_distance self))
    as [dist|e] eqn:Hd.
  2: { unfold filter in H. by rewrite Hd in H. }
  pose proof (filter_spec ext self sites rup mdist dist Hd) as Hf.
  cbv zeta in Hf. rewrite H in Hf. destruct Hf as (Hne & -> & _).
  cbn. by destruct (List.filter _ _).
Qed.

Lemma make_contexts_nonempty ext self sites rup radius_dist rup' sites' dctx :
  make_contexts ext self sites rup radius_dist = Ok (rup', sites', dctx) →
  sids sites' ≠ [].
Proof.
  unfold make_contexts.
  destruct (filter ext self sites rup radius_dist) as [[s1 d1]|e] eqn:Ef;
    cbn [mbind result_bind]; [|done].
  apply filter_nonempty in Ef.
  destruct (foldlM _ _ _) as [d2|e]; cbn [mbind result_bind]; [|done].
  destruct (match reqv self ≫= _ with Some _ => _ | None => _ end)
    as [d3|e]; cbn [mbind result_bind]; [|done].
  destruct (add_rup_params ext self rup) as [r2|e];
    cbn [mbind result_bind]; [|done].
  intros [= <- <- <-]. unfold sids. by destruct (sites_of s1).
Qed.

Lemma contexts_loop_far ext self sites magdist st rups :
  Forall (λ rup, ∃ e, make_contexts ext self sites rup magdist = Raise e
                      ∧ kind e = FarAwayRupture) rups →
  ∃ cl, contexts_loop ext self sites magdist st rups = Ok cl
        ∧ cl_sids cl = cl_sids st.
Proof.
  intros Hfar. revert st. unfold contexts_loop.
  induction Hfar as [|rup rups (e & He & Hk) _ IH]; intros st; cbn [foldlM].
  - by exists st.
  - rewrite (contexts_step_far_away _ _ _ _ _ _ _ He Hk).
    cbn [mbind result_bind]. destruct (IH (CtxLoop (cl_sids st) (cl_data st)
                                             (Some rup) (cl_last st)))
      as (cl & -> & Hcl). by exists cl.
Qed.

Lemma contexts_loop_no_sids ext self sites magdist st rups cl :
  contexts_loop ext self sites magdist st rups = Ok cl →
  cl_sids cl = [] →
  cl_sids st = []
  ∧ Forall (λ rup, ∃ e, make_contexts ext self sites rup magdist = Raise e
                        ∧ kind e = FarAwayRupture) rups.
Proof.
  unfold contexts_loop. revert st.
  induction rups as [|rup rups IH]; intros st; cbn [foldlM].
  - by intros [= <-] ?.
  - destruct (contexts_step ext self sites magdist st rup) as [st1|e] eqn:E;
      cbn [mbind result_bind]; [|done].
    intros Hrest Hnil. destruct (IH st1 Hrest Hnil) as [Hst1 Hfar].
    unfold contexts_step in E.
    destruct (make_contexts ext self sites rup magdist)
      as [[[r2 s2] d2]|e] eqn:Em.
    + injection E as <-. cbn in Hst1.
      apply app_eq_nil in Hst1 as [_ Hs2].
      by apply make_contexts_nonempty in Em.
    + case_decide as Hk; [|done]. injection E as <-. cbn in Hst1.
      split; [done|]. constructor; [by exists e|done].
Qed.

Lemma get_pmap_body_returns ext self src rup_indep fewsites st item :
  match get_pmap_body ext self src rup_indep fewsites st item with
  | Ok st' =>
      all_far_away ext self item
      ∧ st' = PmapLoop (pl_poemap st) (pl_rupdata st) (pl_nrups st)
                (pl_nsites st) (pl_dists st ++ option_list item.2)
  | Raise e => ¬ all_far_away ext self item
  end.
Proof.
  unfold get_pmap_body, all_far_away.
  destruct item as [[[rups|rup] sites] magdist]; cbn [fst snd].
  2: { cbn. by intros (rups & [=] & _). }
  cbn [mbind result_bind].
  destruct (contexts_loop ext self sites magdist (CtxLoop [] [] None None)
              rups) as [cl|e] eqn:El; cbn [mbind result_bind].
  2: { intros (rups' & [= <-] & Hfar).
       destruct (contexts_loop_far ext self sites magdist
                   (CtxLoop [] [] None None) rups Hfar) as (cl & Hcl & _).
       congruence. }
  destruct (cl_sids cl) as [|s0 ss] eqn:Es.
  - destruct (contexts_loop_no_sids _ _ _ _ _ _ _ El Es) as [_ Hfar].
    split; [by exists rups|]. f_equal.
    destruct magdist; [done|]. cbn. by rewrite app_nil_r.
  - assert (Hnot : ¬ ∃ rups0, RupList rups = RupList rups0
               ∧ Forall (λ rup, ∃ e,
                   make_contexts ext self sites rup magdist = Raise e
                   ∧ kind e = FarAwayRupture) rups0).
    { intros (rups' & [= <-] & Hfar).
      destruct (contexts_loop_far ext self sites magdist
                  (CtxLoop [] [] None None) rups Hfar) as (cl' & Hcl & Hs).
      rewrite El in Hcl. injection Hcl as <-. by rewrite Es in Hs. }
    destruct (get_mean_std ext _ _ _) as [mean_std|e];
      cbn [mbind result_bind]; [|done].
    destruct (_make_pnes_raises ext self (cl_data cl) mean_std) as [e ->].
    done.
Qed.

Lemma get_pmap_loop_returns ext self src rup_indep fewsites gen st :
  match foldlM (λ st item,
                  item ← item;
                  get_pmap_body ext self src rup_indep fewsites st item)
          st gen with
  | Ok st' =>
      ∃ items, gen = Ok <$> items
        ∧ Forall (all_far_away ext self) items
        ∧ st' = PmapLoop (pl_poemap st) (pl_rupdata st) (pl_nrups st)
                  (pl_nsites st)
                  (pl_dists st ++ (items ≫= λ item, option_list item.2))
  | Raise e =>
      ¬ ∃ items, gen = Ok <$> items ∧ Forall (all_far_away ext self) items
  end.
Proof.
  revert st. induction gen as [|[item|e] gen IH]; intros st; cbn [foldlM].
  - exists []. split_and!; [done..|]. cbn. rewrite app_nil_r. by destruct st.
  - cbn [mbind result_bind].
    pose proof (get_pmap_body_returns ext self src rup_indep fewsites st item)
      as Hb.
    destruct (get_pmap_body ext self src rup_indep fewsites st item)
      as [st1|e]; cbn [mbind result_bind].
    + destruct Hb as [Hfar ->]. specialize (IH (PmapLoop (pl_poemap st)
        (pl_rupdata st) (pl_nrups st) (pl_nsites st)
        (pl_dists st ++ option_list item.2))).
      destruct (foldlM _ _ gen) as [st2|e].
      * destruct IH as (items & -> & Hall & ->). exists (item :: items).
        split_and!; [done|by constructor|]. cbn. by rewrite <- app_assoc.
      * intros (items & Hg & Hall). apply IH.
        destruct items as [|i items]; [done|]. injection Hg as <- ->.
        exists items. split; [done|]. by apply Forall_cons in Hall as [_ ?].
    + intros (items & Hg & Hall).
      destruct items as [|i items]; [done|]. injection Hg as <- ->.
      by apply Forall_cons in Hall as [? _].
  - cbn. intros (items & Hg & _). by destruct items.
Qed.

(** X17.  [get_pmap] returns exactly when the generator yields without
    raising and every rupture it yields is too far from all the sites
    yielded with it.  What it returns then is the empty map: no curve, no
    RupData, no rupture and no site counted, and the mean of the distances
    the generator yielded as maxdist.  In every other case it raises. *)
Theorem get_pmap_returns_iff ext (self : ContextMaker) (src : source)
    (s_sites : SiteCollection) (rup_indep : bool) (pm : ProbabilityMap) :
  get_pmap ext self src s_sites rup_indep = Ok pm
  ↔ ∃ items,
      _gen_rups_sites ext self src s_sites = Ok <$> items
      ∧ Forall (all_far_away ext self) items
      ∧ pm = PMap (num_levels (imtls self)) (length (gsims self)) ∅ 0 0
               (mean_or_None (items ≫= λ item, option_list item.2)) ∅.
Proof.
  unfold get_pmap.
  match goal with
  | |- context [foldlM ?body ?st0 ?gen] =>
      pose proof (get_pmap_loop_returns ext self src rup_indep
                    (length (complete s_sites) <=? max_sites_disagg self)%nat
                    gen st0) as H;
      destruct (foldlM body st0 gen) as [st|e]
  end; cbn [mbind result_bind].
  - destruct H as (items & Hg & Hall & ->). cbn. split.
    + intros [= <-]. by exists items.
    + intros (items' & Hg' & _ & ->). rewrite Hg in Hg'.
      assert (Inj (=) (=) (@Ok (rups_t * SiteCollection * option Qc)))
        by (by intros ?? [=]).
      apply (inj (fmap Ok)) in Hg' as <-. done.
  - split; [done|]. intros (items & Hg & Hall & _). destruct H.
    by exists items.
Qed.

(** ** get_pmap_by_grp *)

Lemma _update_empty L G pmap pm src src_mutex rup_mutex :
  curves pm = ∅ → _update L G pmap pm src src_mutex rup_mutex = pmap.
Proof.
  intros Hpm. unfold _update.
  rewrite bool_decide_eq_true_2; [done|].
  destruct (negb rup_mutex); [|done].
  unfold pmap_invert. cbn. by rewrite Hpm, fmap_empty.
Qed.

Lemma get_pmap_by_grp_loop_nothing ext self src_mutex rup_mutex src_sites
    st st' :
  get_pmap_by_grp_loop ext self src_mutex rup_mutex st src_sites = Ok st' →
  gl_pmap st' = gl_pmap st ∧ gl_gids st' = gl_gids st
  ∧ gl_rup_data st' = gl_rup_data st
  ∧ (∀ id c, gl_calc_times st' !! id = Some c →
             gl_calc_times st !! id = Some c
             ∨ (gl_calc_times st !! id = None ∧ c = (0, 0)%nat
                ∧ id ∈ src_id <$> src_sites.*1)).
Proof.
  revert st. induction src_sites as [|[src s_sites] src_sites IH]; intros st;
    cbn [get_pmap_by_grp_loop].
  - intros [= <-]. split_and!; [done..|]. intros id c Hc. by left.
  - destruct (get_pmap ext self src s_sites (negb rup_mutex))
      as [poemap|err] eqn:Ep.
    2: { case_decide; [|by repeat case_match]. intros [= <-].
         split_and!; [done..|]. intros id c Hc. by left. }
    destruct (get_pmap_stores_nothing _ _ _ _ _ _ Ep)
      as (Hc & Hr & Hn & Hs).
    unfold grp_step.
    rewrite (_update_empty _ _ _ _ _ _ _ Hc), Hr, Hn, Hs.
    rewrite bool_decide_eq_true_2 by done.
    intros Hrest. apply IH in Hrest as (H1 & H2 & H3 & H4).
    cbn in H1, H2, H3, H4. split_and!; [done..|].
    intros id c Hic. destruct (H4 id c Hic) as [Hold|(Hnone & -> & Hin)].
    + destruct (decide (id = src_id src)) as [->|Hne].
      * rewrite lookup_insert_eq in Hold. injection Hold as <-.
        destruct (gl_calc_times st !! src_id src) as [[n1 n2]|] eqn:Eold.
        -- left. cbn. by rewrite !Nat.add_0_r.
        -- right. split_and!; [done|done|]. cbn. apply list_elem_of_here.
      * rewrite lookup_insert_ne in Hold by done. by left.
    + destruct (decide (id = src_id src)) as [->|Hne].
      * by rewrite lookup_insert_eq in Hnone.
      * rewrite lookup_insert_ne in Hnone by done. right.
        split_and!; [done..|]. cbn. by apply list_elem_of_further.
Qed.

(** X18.  Whatever [get_pmap_by_grp] returns holds no result: no group has
    a probability map, the rupture data are the empty column grp_id alone,
    and the sources counted in calc_times, all of them among those given,
    have no rupture and no site. *)
Theorem get_pmap_by_grp_returns_nothing ext (self : ContextMaker)
    (src_sites : list (source * SiteCollection)) (src_mutex rup_mutex : bool)
    (res : grp_result) :
  get_pmap_by_grp ext self src_sites src_mutex rup_mutex = Ok res →
  gr_pmap res = ∅
  ∧ gr_rdata res = {[ "grp_id" := [] ]}
  ∧ ∀ id c, gr_calc_times res !! id = Some c →
            c = (0, 0)%nat ∧ id ∈ src_id <$> src_sites.*1.
Proof.
  unfold get_pmap_by_grp.
  destruct (get_pmap_by_grp_loop _ _ _ _ _ _) as [st|e] eqn:E;
    cbn [mbind result_bind]; [|done].
  apply get_pmap_by_grp_loop_nothing in E as (H1 & H2 & H3 & H4).
  intros [= <-]. cbn in *. rewrite H1, H2, H3. split_and!; [done..|].
  intros id c Hc. destruct (H4 id c Hc) as [Hold|(_ & -> & Hin)]; [|done].
  by rewrite lookup_empty in Hold.
Qed.

Lemma get_pmap_by_grp_returns_nothing_witness :
  ∃ res,
    get_pmap_by_grp Scenario.ext Scenario.cmaker
      [(Scenario.src_of Scenario.two_rups, Scenario.remote_site)] false false
    = Ok res
    ∧ gr_pmap res = ∅.
Proof.
  apply is_Ok_elim; [apply is_Okb_true; vm_compute; reflexivity|].
  intros res H.
  by destruct (get_pmap_by_grp_returns_nothing _ _ _ _ _ _ H) as [Hp _].
Defined.

(** ** _update *)

Lemma _update_loop_frame (f : ProbabilityMap → ProbabilityMap) (L G : nat)
    (gids : list Z) (pmap : gmap Z ProbabilityMap) :
  let pmap' :=
    foldl (λ (pmap : gmap Z ProbabilityMap) grp_id,
             <[grp_id := f (default (new_ProbabilityMap L G)
                              (pmap !! grp_id))]> pmap) pmap gids in
  (∀ g, g ∉ gids → pmap' !! g = pmap !! g)
  ∧ dom pmap' = dom pmap ∪ list_to_set gids.
Proof.
  revert pmap. induction gids as [|gid gids IH]; intros pmap; cbn.
  - split; [done|]. by rewrite (right_id_L ∅ (∪)).
  - destruct (IH (<[gid := f (default (new_ProbabilityMap L G)
                                (pmap !! gid))]> pmap)) as [IH1 IH2].
    split.
    + intros g [Hne Hg]%not_elem_of_cons.
      by rewrite IH1, lookup_insert_ne.
    + rewrite IH2, dom_insert_L. apply set_eq. intros g.
      rewrite !elem_of_union. tauto.
Qed.

(** X19.  [_update] changes the maps of the groups of the source and of no
    other group.  A probability map without sites changes nothing; any
    other gives every group of the source a map, new groups included. *)
Theorem update_frame (L G : nat) (pmap : gmap Z ProbabilityMap)
    (pm : ProbabilityMap) (src : source) (src_mutex rup_mutex : bool) :
  let pmap' := _update L G pmap pm src src_mutex rup_mutex in
  (∀ g, g ∉ src_group_ids src → pmap' !! g = pmap !! g)
  ∧ (if decide (curves pm = ∅) then pmap' = pmap
     else dom pmap' = dom pmap ∪ list_to_set (src_group_ids src)).
Proof.
  intros pmap'. unfold pmap', _update.
  set (pm1 := if negb rup_mutex then pmap_invert pm else pm).
  assert (Hempty : curves pm1 = ∅ ↔ curves pm = ∅).
  { unfold pm1. destruct (negb rup_mutex); [|done].
    unfold pmap_invert. cbn. apply fmap_empty_iff. }
  case_bool_decide as Hpm.
  { split; [done|]. apply Hempty in Hpm. by rewrite decide_True. }
  rewrite decide_False by (by rewrite <- Hempty).
  destruct src_mutex.
  - apply (_update_loop_frame
             (λ old, pmap_iadd old (pmap_imul pm1 (mutex_weight src)))).
  - apply (_update_loop_frame (λ old, pmap_ior old pm1)).
Qed.

(** ** filter *)

Lemma get_distances_pointwise ext rup param :
  param ∈ KNOWN_DISTANCES →
  ∃ f : site → Qc, ∀ mesh,
    get_distances ext rup mesh param
    = Ok (NDArray [length mesh] (f <$> mesh) false).
Proof.
  intros Hp. unfold get_distances.
  repeat (case_decide; [eexists; intros mesh; reflexivity|]).
  case_decide.
  - exists (λ _, 0). intros mesh. cbn. unfold set_writeable, zeros_like. cbn.
    do 2 f_equal. induction mesh as [|x mesh IH]; [done|]. cbn. by f_equal.
  - exfalso. unfold KNOWN_DISTANCES in Hp.
    rewrite !elem_of_cons, elem_of_nil in Hp. tauto.
Qed.

Lemma filter_zip_fmap {A B} (f : A → B) (g : B → bool) (xs : list A) :
  List.filter (λ p : A * B, g p.2) (zip xs (f <$> xs))
  = (λ x, (x, f x)) <$> List.filter (λ x, g (f x)) xs.
Proof.
  induction xs as [|x xs IH]; [done|]. cbn.
  destruct (g (f x)); cbn; by rewrite IH.
Qed.

Lemma filter_filter_id {A} (g : A → bool) (xs : list A) :
  List.filter g (List.filter g xs) = List.filter g xs.
Proof.
  induction xs as [|x xs IH]; [done|]. cbn.
  destruct (g x) eqn:E; cbn; rewrite ?E, IH; done.
Qed.

(** X20.  Filtering is idempotent: the sites [filter] returns for a rupture
    are all within the maximum distance, so filtering them again for the
    same rupture and distance returns the same sites and the same distance
    context. *)
Theorem filter_idempotent ext (self : ContextMaker) (sites : SiteCollection)
    (rup : rupture) (mdist : option Qc)
    (sites' : SiteCollection) (dctx : DistancesContext) :
  filter ext self sites rup mdist = Ok (sites', dctx) →
  filter ext self sites' rup mdist = Ok (sites', dctx).
Proof.
  intros H.
  destruct (decide (filter_distance self ∈ KNOWN_DISTANCES)) as [Hfd|Hfd].
  2: { unfold filter in H. by rewrite get_distances_unknown in H. }
  destruct (get_distances_pointwise ext rup _ Hfd) as [f Hf].
  set (m := py_or mdist
              (maximum_distance self (tectonic_region_type rup) (mag rup))).
  set (close := List.filter (λ x, Qc_leb (f x) m) (sites_of sites)).
  assert (Hzip : ∀ xs : list site,
            List.filter (λ p : site * Qc, Qc_leb p.2 m) (zip xs (f <$> xs))
            = (λ x, (x, f x)) <$> List.filter (λ x, Qc_leb (f x) m) xs).
  { intros xs. apply (filter_zip_fmap f (λ d, Qc_leb d m)). }
  assert (H1st : ∀ xs : list site, ((λ x, (x, f x)) <$> xs).*1 = xs).
  { intros xs. rewrite <- list_fmap_compose. apply list_fmap_id. }
  pose proof (filter_spec ext self sites rup mdist _ (Hf (sites_of sites)))
    as H1.
  cbv zeta in H1. rewrite H in H1. cbn [data] in H1. fold m in H1.
  rewrite Hzip in H1. fold close in H1. rewrite H1st in H1.
  destruct H1 as (Hne & -> & ->).
  pose proof (filter_spec ext self (SiteCol close (complete sites))
                rup mdist _ (Hf _)) as H2.
  cbv zeta in H2. cbn [data sites_of complete] in H2. fold m in H2.
  assert (Hid : List.filter (λ x, Qc_leb (f x) m) close = close)
    by apply filter_filter_id.
  rewrite Hzip, Hid, H1st in H2.
  destruct (filter ext self (SiteCol close (complete sites)) rup mdist)
    as [[s2 d2]|e].
  - by destruct H2 as (_ & -> & ->).
  - destruct H2 as [Hnil _]. by rewrite Hnil in Hne.
Qed.

Lemma filter_idempotent_witness :
  ∃ res,
    filter Scenario.ext Example.cmaker Example.near_and_remote
      (Scenario.rup_of 7 None) None = Ok res
    ∧ filter Scenario.ext Example.cmaker res.1 (Scenario.rup_of 7 None) None
      = Ok res.
Proof.
  apply is_Ok_elim; [apply is_Okb_true; vm_compute; reflexivity|].
  intros [sites' dctx] H. by apply (filter_idempotent _ _ _ _ _ _ _ H).
Defined.

(** ** RupData.add on the contexts of make_contexts *)

Lemma add_rup_params_sets ext self rup rup' :
  add_rup_params ext self rup = Ok rup' →
  Forall (λ p, is_Some (params rup' !! p)) (REQUIRES_RUPTURE_PARAMETERS self).
Proof.
  intros H.
  destruct (decide (Forall (.∈ RUPTURE_PARAMETERS)
                      (REQUIRES_RUPTURE_PARAMETERS self))) as [Hreq|Hreq].
  - destruct (add_rup_params_known ext self rup rup Hreq)
      as (r2 & Hr & _ & Hin & _); [by destruct rup|].
    rewrite H in Hr. injection Hr as <-.
    apply Forall_forall. intros p Hp. rewrite (Hin p Hp).
    eapply Forall_forall in Hreq; [|exact Hp].
    unfold RUPTURE_PARAMETERS in Hreq.
    rewrite !elem_of_cons, elem_of_nil in Hreq.
    repeat destruct Hreq as [->|Hreq]; [by eexists..|done].
  - destruct (add_rup_params_unknown ext self rup) as (e & He & _).
    { by apply not_Forall_Exists; [intros p; apply _|]. }
    congruence.
Qed.

Lemma make_contexts_dom ext self sites rup radius_dist rup' sites' dctx :
  make_contexts ext self sites rup radius_dist = Ok (rup', sites', dctx) →
  ∀ d, d ∈ REQUIRES_DISTANCES self → is_Some (dctx !! d).
Proof.
  unfold make_contexts.
  destruct (filter ext self sites rup radius_dist) as [[s1 d1]|e] eqn:Ef;
    cbn [mbind result_bind]; [|done].
  assert (Hfd : is_Some (d1 !! filter_distance self)).
  { unfold filter in Ef.
    destruct (get_distances ext rup (sites_of sites) (filter_distance self));
      cbn [mbind result_bind] in Ef; [|done].
    destruct (existsb id _).
    - injection Ef as <- <-. rewrite lookup_singleton_eq. by eexists.
    - by destruct (np_min _). }
  pose proof (make_contexts_loop ext rup (sites_of s1)
    (List.filter (λ p, negb (bool_decide (p = filter_distance self)))
       (REQUIRES_DISTANCES self)) d1) as Hl.
  destruct (foldlM _ _ _) as [d2|e]; cbn [mbind result_bind]; [|done].
  destruct Hl as (_ & _ & Hout & Hin).
  assert (Hd2 : ∀ d, d ∈ REQUIRES_DISTANCES self → is_Some (d2 !! d)).
  { intros d Hd. destruct (decide (d = filter_distance self)) as [->|Hne].
    - rewrite Hout; [done|]. rewrite elem_of_other_distances. tauto.
    - destruct (Hin d) as (a & -> & _); [|by eexists].
      by apply elem_of_other_distances. }
  assert (Hins : ∀ (k : string) (a : ndarray) (m : DistancesContext) d,
            is_Some (m !! d) → is_Some (<[k := a]> m !! d)).
  { intros k a m d Hm. destruct (decide (k = d)) as [->|Hne].
    - rewrite lookup_insert_eq. by eexists.
    - by rewrite lookup_insert_ne. }
  destruct (match reqv self ≫= _ with Some _ => _ | None => _ end)
    as [d3|e] eqn:E3; cbn [mbind result_bind]; [|done].
  destruct (add_rup_params ext self rup) as [r2|e];
    cbn [mbind result_bind]; [|done].
  intros [= <- <- <-] d Hd. specialize (Hd2 d Hd).
  destruct (reqv self ≫= _) as [reqv_get|]; [|by injection E3 as <-].
  destruct (is_planar (surface rup)); [|by injection E3 as <-].
  destruct (d2 !! "repi"); [|done]. injection E3 as <-.
  repeat case_bool_decide; repeat apply Hins; done.
Qed.

(** X21.  The contexts [make_contexts] returns are what [RupData.add]
    needs: with the rupture, the sites and the distance context of one
    call, [add] finds every required rupture parameter on the rupture and
    every required distance in the context, and appends its row. *)
Theorem RupData_add_after_make_contexts ext (self : ContextMaker)
    (sites : SiteCollection) (rup : rupture) (radius_dist : option Qc)
    (rup' : rupture) (sites' : SiteCollection) (dctx : DistancesContext)
    (self_data : gmap string (list cell)) (src_id : option Z) :
  make_contexts ext self sites rup radius_dist = Ok (rup', sites', dctx) →
  ∃ data',
    RupData_add ext self self_data rup' src_id sites' (Some dctx) = Ok data'
    ∧ rows_appended (RupData_columns self) self_data data'.
Proof.
  intros Hmc.
  assert (Hparams : Forall (λ p, is_Some (params rup' !! p))
                      (REQUIRES_RUPTURE_PARAMETERS self)).
  { unfold make_contexts in Hmc.
    destruct (filter _ _ _ _ _) as [[s1 d1]|e];
      cbn [mbind result_bind] in Hmc; [|done].
    destruct (foldlM _ _ _) as [d2|e]; cbn [mbind result_bind] in Hmc;
      [|done].
    destruct (match reqv self ≫= _ with Some _ => _ | None => _ end)
      as [d3|e]; cbn [mbind result_bind] in Hmc; [|done].
    destruct (add_rup_params ext self rup) as [r2|e] eqn:Ea;
      cbn [mbind result_bind] in Hmc; [|done].
    injection Hmc as <- <- <-. by eapply add_rup_params_sets. }
  pose proof (make_contexts_dom _ _ _ _ _ _ _ _ Hmc) as Hdom.
  destruct (RupData_add ext self self_data rup' src_id sites' (Some dctx))
    as [data'|e] eqn:E.
  { exists data'. split; [done|]. by eapply RupData_add_rows. }
  exfalso. unfold RupData_add in E.
  match type of E with
  | context [foldlM ?body ?d (REQUIRES_RUPTURE_PARAMETERS self)] =>
      pose proof (foldlM_cases (λ p, is_Some (params rup' !! p)
                                     ∨ p = "mag" ∨ p = "rake")
                    (λ _, True) body
                    (REQUIRES_RUPTURE_PARAMETERS self) d) as H1;
      destruct (foldlM body d (REQUIRES_RUPTURE_PARAMETERS self))
        as [d1|e1]
  end.
  2: { destruct H1 as [H1 _].
       - intros st x. unfold rup_getattr.
         destruct (params rup' !! x); cbn; [left; by eexists|].
         repeat case_decide; cbn; [tauto..|].
         split; [|done]. intros [[? [=]]|[?|?]]; done.
       - apply H1. eapply Forall_impl; [exact Hparams|]. tauto. }
  clear H1. cbn [mbind result_bind] in E.
  match type of E with
  | context [foldlM ?body ?d (REQUIRES_DISTANCES self)] =>
      pose proof (foldlM_cases (λ p, is_Some (dctx !! p))
                    (λ _, True) body (REQUIRES_DISTANCES self) d) as H2;
      destruct (foldlM body d (REQUIRES_DISTANCES self)) as [d2|e2]
  end; [done|].
  destruct H2 as [H2 _]; [|by apply H2, Forall_forall].
  intros st x. destruct (dctx !! x); cbn; [by eexists|].
  split; [by intros [? [=]]|done].
Qed.

Lemma RupData_add_after_make_contexts_witness :
  ∃ res data',
    make_contexts Scenario.ext Example.cmaker Example.near_and_remote
      (Scenario.rup_of 7 None) None = Ok res
    ∧ RupData_add Scenario.ext Example.cmaker ∅ res.1.1 (Some 1%Z) res.1.2
        (Some res.2) = Ok data'.
Proof.
  destruct (make_contexts Scenario.ext Example.cmaker Example.near_and_remote
              (Scenario.rup_of 7 None) None)
    as [[[rup' sites'] dctx]|e] eqn:E.
  - destruct (RupData_add_after_make_contexts _ _ _ _ _ _ _ _ ∅ (Some 1%Z) E)
      as (data' & Hadd & _).
    by exists (rup', sites', dctx), data'.
  - exfalso. vm_compute in E. discriminate E.
Defined.

(** X22.  The two corrections of the nonparametric formula hold for any
    numbers, probabilities or not: in the array returned no value is above
    1, and the value is 1 wherever the poe is 0. *)
Theorem get_probability_no_exceedance_patched
    (self : rupture) (poes : ndarray) :
  occurrence_rate self = NaN →
  probs_occur self ≠ [] →
  shape poes ≠ [] →
  data poes ≠ [] →
  ∃ pne, get_probability_no_exceedance self poes = Ok (NpArray pne)
    ∧ length (data pne) = length (data poes)
    ∧ Forall (λ p, p ≤ 1) (data pne)
    ∧ ∀ i, data poes !! i = Some 0 → data pne !! i = Some 1.
Proof.
  intros Hnan Hp Hs Hd.
  rewrite (get_probability_no_exceedance_array self poes Hnan Hp Hd Hs).
  eexists. split; [reflexivity|]. cbn [data]. split_and!.
  - by rewrite length_fmap.
  - apply Forall_fmap, Forall_forall. intros x _. cbn. unfold pne_elem.
    destruct (Qc_eqb x 0); [apply Qcle_refl|].
    destruct (Qc_ltb 1 _) eqn:E; [apply Qcle_refl|]. by apply Qc_ltb_ge.
  - intros i Hi. by rewrite list_lookup_fmap, Hi.
Qed.

Lemma get_probability_no_exceedance_patched_witness :
  ∃ pne,
    get_probability_no_exceedance
      (Rupture 0 (qc 6 1) 0 "" (Hypocenter 0 0 0) (Surface 0 0 0 0 false)
         NaN [qc 3 1; qc 2 1] None None ∅)
      (NDArray [2%nat] [0; qc 1 2] true) = Ok (NpArray pne)
    ∧ data pne = [1; 1].
Proof.
  destruct (get_probability_no_exceedance_patched
              (Rupture 0 (qc 6 1) 0 "" (Hypocenter 0 0 0) (Surface 0 0 0 0 false)
                 NaN [qc 3 1; qc 2 1] None None ∅)
              (NDArray [2%nat] [0; qc 1 2] true))
    as (pne & Hpne & _); [reflexivity|discriminate..|].
  exists pne. split; [exact Hpne|].
  vm_compute in Hpne. injection Hpne as <-. reflexivity.
Defined.

(** ** The exceptions get_pmap_by_grp raises *)

(** X23.  When [get_pmap] raises for a source, the sources before it having
    been processed, [get_pmap_by_grp] raises too unless the exception is a
    StopIteration.  An exception of a class derived from [Exception] that is
    built from one message is re-raised with the same class and traceback
    and the message followed by " (source id=<source_id>)"; for a class that
    is not built from one message, building the new exception fails with a
    TypeError instead; an exception that is not an [Exception], as
    KeyboardInterrupt, goes through as it was raised.  A FarAwayRupture of
    [make_contexts] is caught in the rupture loop, which goes on with the
    next rupture: unless a collaborator raises one, [get_pmap] never raises
    it. *)
Theorem get_pmap_by_grp_reraises ext self src_mutex rup_mutex
    (before : list (source * SiteCollection)) (src : source)
    (s_sites : SiteCollection) (rest : list (source * SiteCollection))
    (err : exn) :
  Forall (λ p, is_Ok (get_pmap ext self p.1 p.2 (negb rup_mutex))) before →
  get_pmap ext self src s_sites (negb rup_mutex) = Raise err →
  kind err ≠ StopIteration →
  get_pmap_by_grp ext self (before ++ (src, s_sites) :: rest)
    src_mutex rup_mutex
  = Raise (if is_Exception (kind err) then
             match init_error_of (kind err) with
             | None =>
                 Exn (kind err)
                   (msg err +:+ " (source id=" +:+ source_id src +:+ ")")
                   (tb err)
             | Some m => Exn TypeError m ["get_pmap_by_grp"]
             end
           else err)
  ∧ (∀ sites magdist st rup rups e,
       make_contexts ext self sites rup magdist = Raise e →
       kind e = FarAwayRupture →
       contexts_loop ext self sites magdist st (rup :: rups)
       = contexts_loop ext self sites magdist
           (CtxLoop (cl_sids st) (cl_data st) (Some rup) (cl_last st)) rups)
  ∧ (no_far_away ext → kind err ≠ FarAwayRupture).
Proof.
  intros Hbefore Herr Hkind. split_and!.
  - unfold get_pmap_by_grp.
    destruct (get_pmap_by_grp_loop_app ext self src_mutex rup_mutex
                (GrpLoop ∅ [] ∅ ∅ []) before ((src, s_sites) :: rest) Hbefore)
      as [st' ->].
    cbn [get_pmap_by_grp_loop]. rewrite Herr.
    rewrite decide_False by done.
    destruct (is_Exception (kind err)); [|done].
    by destruct (init_error_of (kind err)).
  - intros sites magdist st rup rups e He Hfar.
    unfold contexts_loop. cbn [foldlM].
    by rewrite (contexts_step_far_away _ _ _ _ _ _ _ He Hfar).
  - intros Hext. by eapply get_pmap_raise.
Qed.

(** The NameError of [_make_pnes] reaches the caller of [get_pmap_by_grp]
    with the source id in its message. *)
Lemma get_pmap_by_grp_reraises_witness :
  get_pmap_by_grp Scenario.ext Scenario.cmaker
    [(Scenario.src_of Scenario.two_rups, Scenario.one_site)] false false
  = Raise (Exn NameError "name 'rupture' is not defined (source id=src-1)"
             ["_make_pnes"]).
Proof.
  refine (proj1 (get_pmap_by_grp_reraises Scenario.ext Scenario.cmaker
                   false false [] (Scenario.src_of Scenario.two_rups)
                   Scenario.one_site [] Scenario.name_error _ _ _)).
  - constructor.
  - vm_compute. reflexivity.
  - discriminate.
Defined.
